(** * Real-time voice translation frontend: capture, encoding and playback

    A shallow embedding of the audio pipeline of the frontend
    (components/VoiceRecorder.tsx, its batch-only variant,
    components/TranslationDisplay.tsx, the page that holds them and
    components/EvaluationMetrics.tsx) together with the properties of the
    pipeline that the design document states and further properties that
    the code shows.

    Layout:
    - [JS]         the browser values the code computes with: numbers,
                   typed-array stores, binary strings, [btoa] / [atob];
    - [Encoder]    the Float32 -> Int16 -> bytes -> base64 path of
                   [processor.onaudioprocess];
    - [Recorder]   the streaming/batch recorder: chunker, start/stop,
                   [sendAudioToBackend];
    - [BatchRecorder] the batch-only variant: health probe and record button;
    - [Playback]   the auto-play queue and manual replay of
                   TranslationDisplay;
    - [Design]     the wording of the design document where a property
                   compares the code with it;
    - [Examples]   sample inputs;
    - [TextSafe], [ArgumentLimit]
                   the alphabet of the encoded text; the encoder on an
                   engine that bounds the arguments of one call;
    - [RecorderComponent], [BatchComponent]
                   the recorders as components: inbound socket messages,
                   the buttons, the callbacks of the media recorder;
    - [Page], [App] the page (page.tsx): results, error box, statistics,
                   and what its renders do to the recorder and the display;
    - [Metrics]    the evaluation panel (EvaluationMetrics.tsx);
    - [PlaybackRuns] runs of the display beyond the queue path;
    - [Samples]    more sample inputs.

    The properties follow the definitions, one section per component.
    The components run on one thread: a callback (a frame, a socket
    event, a click, a media event) runs to its end before the next one
    starts, so each is a function on the component's state. *)

From Stdlib Require Import ZArith NArith QArith Qround Qminmax Lia List String Ascii Bool.
From Stdlib.Strings Require Import Byte.
Import ListNotations.

(** Linear arithmetic with division and remainder by constants. *)
Ltac div_lia := zify; Z.to_euclidean_division_equations; lia.

(* ===================================================================== *)
(** * Browser values *)
(* ===================================================================== *)

Module JS.

(** A JavaScript number as far as the audio path needs it.  Every Float32
    sample is a rational; the products the encoder forms (a 24-bit
    significand times 32768 or 32767) are exact in double precision, so
    exact rational arithmetic is what the code computes on them. *)
Inductive number : Type :=
| Fin (q : Q)
| PosInf
| NegInf
| NaN.

(** [Math.min] and [Math.max] on two arguments. *)
Definition Math_min (a b : number) : number :=
  match a, b with
  | NaN, _ | _, NaN => NaN
  | NegInf, _ | _, NegInf => NegInf
  | PosInf, y => y
  | x, PosInf => x
  | Fin x, Fin y => if Qle_bool x y then Fin x else Fin y
  end.

Definition Math_max (a b : number) : number :=
  match a, b with
  | NaN, _ | _, NaN => NaN
  | PosInf, _ | _, PosInf => PosInf
  | NegInf, y => y
  | x, NegInf => x
  | Fin x, Fin y => if Qle_bool y x then Fin x else Fin y
  end.

(** [a < b]; any comparison with NaN is false. *)
Definition lt (a b : number) : bool :=
  match a, b with
  | NaN, _ | _, NaN => false
  | _, NegInf => false
  | NegInf, _ => true
  | PosInf, _ => false
  | Fin _, PosInf => true
  | Fin x, Fin y => negb (Qle_bool y x)
  end.

Definition inf_of_sign (positive : bool) : number :=
  if positive then PosInf else NegInf.

(** [a * b]. *)
Definition mul (a b : number) : number :=
  match a, b with
  | NaN, _ | _, NaN => NaN
  | Fin x, Fin y => Fin (x * y)
  | Fin x, PosInf | PosInf, Fin x =>
      if (Qnum x =? 0)%Z then NaN else inf_of_sign (0 <? Qnum x)%Z
  | Fin x, NegInf | NegInf, Fin x =>
      if (Qnum x =? 0)%Z then NaN else inf_of_sign (Qnum x <? 0)%Z
  | PosInf, PosInf | NegInf, NegInf => PosInf
  | PosInf, NegInf | NegInf, PosInf => NegInf
  end.

(** Truncation toward zero of a rational. *)
Definition Qtrunc (q : Q) : Z := Z.quot (Qnum q) (Zpos (Qden q)).

(** Reduction of an integer into the signed 16-bit range. *)
Definition wrap16 (z : Z) : Z := ((z + 32768) mod 65536 - 32768)%Z.

(** [ToInt16]: what a store into an [Int16Array] does to a number. *)
Definition ToInt16 (x : number) : Z :=
  match x with
  | Fin q => wrap16 (Qtrunc q)
  | PosInf | NegInf | NaN => 0%Z
  end.

(** A [Uint8Array] is a list of bytes; a binary string is a [string], whose
    characters are the code units 0..255. *)
Definition fromCharCode (b : byte) : ascii := ascii_of_byte b.

(** [String.fromCharCode.apply(null, Array.from(chunk))], for a chunk that
    the engine accepts as the arguments of one call: the loop of the
    recorder passes at most 8192 bytes at a time.  [ArgumentLimit] has the
    call with the engine's bound on the number of arguments. *)
Definition fromCharCode_apply (chunk : list byte) : string :=
  string_of_list_ascii (map fromCharCode chunk).

(** [bytes.subarray(begin, end)]. *)
Definition subarray {A : Type} (l : list A) (begin_ end_ : nat) : list A :=
  firstn (end_ - begin_) (skipn begin_ l).

(** ** Base64 *)

Local Open Scope N_scope.

Definition b64char (n : N) : ascii :=
  if n <? 26 then ascii_of_N (65 + n)
  else if n <? 52 then ascii_of_N (97 + (n - 26))
  else if n <? 62 then ascii_of_N (48 + (n - 52))
  else if n =? 62 then "+"%char
  else "/"%char.

Definition b64val (c : ascii) : option N :=
  let k := N_of_ascii c in
  if (65 <=? k) && (k <=? 90) then Some (k - 65)
  else if (97 <=? k) && (k <=? 122) then Some (k - 71)
  else if (48 <=? k) && (k <=? 57) then Some (k + 4)
  else if k =? 43 then Some 62
  else if k =? 47 then Some 63
  else None.

Definition pad : ascii := "="%char.

(** [btoa]: three characters of the binary string give four digits; a last
    group of one or two characters is padded with [=]. *)
Fixpoint btoa (s : string) : string :=
  match s with
  | EmptyString => EmptyString
  | String a EmptyString =>
      let x := N_of_ascii a in
      String (b64char (x / 4)) (String (b64char ((x mod 4) * 16))
        (String pad (String pad EmptyString)))
  | String a (String b EmptyString) =>
      let x := N_of_ascii a in
      let y := N_of_ascii b in
      String (b64char (x / 4)) (String (b64char ((x mod 4) * 16 + y / 16))
        (String (b64char ((y mod 16) * 4)) (String pad EmptyString)))
  | String a (String b (String c rest)) =>
      let x := N_of_ascii a in
      let y := N_of_ascii b in
      let z := N_of_ascii c in
      String (b64char (x / 4)) (String (b64char ((x mod 4) * 16 + y / 16))
        (String (b64char ((y mod 16) * 4 + z / 64))
          (String (b64char (z mod 64)) (btoa rest))))
  end.

Definition is_pad (c : ascii) : bool := Ascii.eqb c pad.

(** [atob] on canonical text, the decoder of RFC 4648: groups of four
    digits, padding only in the last group; [None] on any other text. *)
Fixpoint atob (s : string) : option string :=
  match s with
  | EmptyString => Some EmptyString
  | String c1 (String c2 (String c3 (String c4 rest))) =>
      match b64val c1, b64val c2 with
      | Some v1, Some v2 =>
          let b1 := ascii_of_N (v1 * 4 + v2 / 16) in
          if is_pad c3 then
            if is_pad c4 then
              match rest with
              | EmptyString => Some (String b1 EmptyString)
              | _ => None
              end
            else None
          else
            match b64val c3 with
            | Some v3 =>
                let b2 := ascii_of_N ((v2 mod 16) * 16 + v3 / 4) in
                if is_pad c4 then
                  match rest with
                  | EmptyString => Some (String b1 (String b2 EmptyString))
                  | _ => None
                  end
                else
                  match b64val c4 with
                  | Some v4 =>
                      let b3 := ascii_of_N ((v3 mod 4) * 64 + v4) in
                      match atob rest with
                      | Some t => Some (String b1 (String b2 (String b3 t)))
                      | None => None
                      end
                  | None => None
                  end
            | None => None
            end
      | _, _ => None
      end
  | _ => None
  end.

End JS.

(* ===================================================================== *)
(** * The sample encoder of [processor.onaudioprocess] *)
(* ===================================================================== *)

Module Encoder.
Import JS.

(** Body of the conversion loop:
    [const s = Math.max(-1, Math.min(1, combined[i]));
     int16Array[i] = s < 0 ? s * 0x8000 : s * 0x7FFF;] *)
Definition quantize (sample : number) : Z :=
  let s := Math_max (Fin (inject_Z (-1))) (Math_min (Fin (inject_Z 1)) sample) in
  ToInt16 (if lt s (Fin (inject_Z 0))
           then mul s (Fin (inject_Z 32768))
           else mul s (Fin (inject_Z 32767))).

(** [int16Array], filled from [combined]. *)
Definition int16Array (combined : list number) : list Z := map quantize combined.

Definition byte_of_Z (z : Z) : byte :=
  byte_of_ascii (ascii_of_N (Z.to_N (z mod 256))).

(** [new Uint8Array(int16Array.buffer)]: two bytes per sample, low byte
    first, two's complement. *)
Definition Uint8Array_of_Int16 (a : list Z) : list byte :=
  flat_map (fun v => let u := (v mod 65536)%Z in
                     [byte_of_Z u; byte_of_Z (u / 256)]) a.

Definition chunkSize : nat := Z.to_nat 8192.

(** The windowed loop
    [for (let i = 0; i < bytes.length; i += chunkSize) {
       const chunk = bytes.subarray(i, Math.min(i + chunkSize, bytes.length));
       binary += String.fromCharCode.apply(null, Array.from(chunk)); }].
    A window holds at most 8192 bytes, so each call passes at most 8192
    arguments.  [fuel] bounds the number of iterations; [None] when it
    runs out. *)
Fixpoint binaryLoop (fuel : nat) (bytes : list byte) (i : nat)
         (binary : string) : option string :=
  if i <? List.length bytes then
    match fuel with
    | O => None
    | S fuel' =>
        let chunk :=
          subarray bytes i (Nat.min (i + chunkSize) (List.length bytes)) in
        binaryLoop fuel' bytes (i + chunkSize)
                   (String.append binary (fromCharCode_apply chunk))
    end
  else Some binary.

(** [btoa(binary)], the text-safe encoding of a byte array. *)
Definition encode (bytes : list byte) : option string :=
  match binaryLoop (List.length bytes) bytes 0 EmptyString with
  | Some binary => Some (btoa binary)
  | None => None
  end.

(** The payload of one [audio_chunk] message, from the combined samples. *)
Definition encodeSamples (combined : list number) : option string :=
  encode (Uint8Array_of_Int16 (int16Array combined)).

(** Modelled from the spec: the decoder of the round trip, which the
    frontend does not contain.  It is the standard decoder, [atob], read as
    bytes. *)
Definition decode (text : string) : option (list byte) :=
  match atob text with
  | Some binary => Some (map byte_of_ascii (list_ascii_of_string binary))
  | None => None
  end.

(** The bytes of a payload as the signed 16-bit samples they hold (low
    byte first); a trailing odd byte is not a sample. *)
Definition Z_of_byte (b : byte) : Z := Z.of_N (Byte.to_N b).

Fixpoint Int16_of_Uint8Array (bytes : list byte) : list Z :=
  match bytes with
  | lo :: hi :: rest =>
      wrap16 (Z_of_byte lo + 256 * Z_of_byte hi) :: Int16_of_Uint8Array rest
  | _ => []
  end.

Definition decodeSamples (text : string) : option (list Z) :=
  match decode text with
  | Some bytes => Some (Int16_of_Uint8Array bytes)
  | None => None
  end.

End Encoder.

(* ===================================================================== *)
(** * Values shared by the recorder variants *)
(* ===================================================================== *)

Module Common.
Import JS.

(** [timestamp] is [Date.now()] in the batch-only variant and
    [new Date().toISOString()] in the streaming variant. *)
Inductive Timestamp : Type :=
| TsNumber (ms : Z)
| TsIso (iso : string).

Record TranslationResult : Type := {
  original_text : string;
  translated_text : string;
  audio_base64 : string;
  sample_rate : number;
  latency_ms : number;
  confidence : number;
  timestamp : Timestamp;
  is_final : option bool
}.

(** The component's props.  [onTranslation] is required, [onError] is
    optional ([onError?:]); only its presence matters here. *)
Record props : Type := {
  sourceLang : string;
  targetLang : string;
  has_onError : bool
}.

(** A value that is thrown or that rejects a promise. *)
Inductive thrown : Type :=
| DOMException (name message : string)
| Error (message : string)
| NotAnError.

Definition instanceof_DOMException (e : thrown) : bool :=
  match e with DOMException _ _ => true | _ => false end.

(** [DOMException.prototype] inherits from [Error.prototype]. *)
Definition instanceof_Error (e : thrown) : bool :=
  match e with DOMException _ _ | Error _ => true | NotAnError => false end.

Definition message_of (e : thrown) : string :=
  match e with
  | DOMException _ m | Error m => m
  | NotAnError => EmptyString
  end.

(** A [Blob] of recorded audio. *)
Definition Blob : Type := list byte.

(** What the component does to the outside: socket messages, requests,
    callbacks of the parent, console output. *)
Inductive effect : Type :=
| console_log (what : string)
| console_warn (what : string)
| console_error (what : string)
| getUserMedia
| emit_start_translation (source_lang target_lang : string)
| emit_audio_chunk (audio : string) (sample_rate : Q) (format : string)
| emit_stop_translation
| fetch_translate (audio : Blob) (source_lang target_lang : string)
| fetch_health
| onTranslation (result : TranslationResult)
| onError (msg : string).

(** [if (onError) onError(msg)]. *)
Definition call_onError (p : props) (msg : string) : list effect :=
  if has_onError p then [onError msg] else [].

(** [a || fallback] on an optional string: absent and empty are falsy. *)
Definition or_else (a : option string) (fallback : string) : string :=
  match a with
  | Some EmptyString | None => fallback
  | Some s => s
  end.

(** The body of a response of [POST /api/translate], as the code reads it.
    By the interface of the backend it is the translation with its metrics
    ([body_success]) or a failure with an optional [error] text
    ([body_failure]; the code reads [success] and [error] only, so this
    shape stands for every body whose [success] is falsy or missing).
    Two more shapes parse as JSON and make the code throw while it reads
    them: a body whose [success] is truthy and that has no [metrics]
    object, where [data.metrics.latency_ms] throws a [TypeError], and the
    JSON value [null], where every property access throws one.
    [type_error] is the message the engine gives that [TypeError]. *)
Inductive translate_body : Type :=
| body_success (original translated audio : string)
               (rate latency conf : number)
| body_failure (error : option string)
| body_without_metrics (error : option string) (type_error : string)
| body_null (type_error : string).

(** [errorData.error] / [data.error], where reading it does not throw. *)
Definition body_error (d : translate_body) : option string :=
  match d with
  | body_success _ _ _ _ _ _ => None
  | body_failure e => e
  | body_without_metrics e _ => e
  | body_null _ => None
  end.

(** [await response.json()] parses the body or throws. *)
Inductive json_result (A : Type) : Type :=
| json_ok (data : A)
| json_throws (e : thrown).
Arguments json_ok {A} data.
Arguments json_throws {A} e.

(** [await fetch(...)] rejects (network failure, abort) or resolves with a
    response of some status. *)
Inductive fetch_outcome (A : Type) : Type :=
| fetch_rejects (e : thrown)
| fetch_resolves (status : Z) (body : json_result A).
Arguments fetch_rejects {A} e.
Arguments fetch_resolves {A} status body.

(** [response.ok]. *)
Definition response_ok (status : Z) : bool :=
  ((200 <=? status) && (status <=? 299))%Z.

(** ** [sendAudioToBackend]

    The body of the [try] block either completes or throws; its effects up
    to that point are kept.  A [TypeError] is an [Error] and is thrown
    before [onTranslation] is called: the fields of [result] are read
    first. *)
Definition send_try (p : props) (now : Timestamp) (audioBlob : Blob)
           (net : fetch_outcome translate_body) : list effect * option thrown :=
  let request := fetch_translate audioBlob (sourceLang p) (targetLang p) in
  match net with
  | fetch_rejects e => ([request], Some e)
  | fetch_resolves status body =>
      if negb (response_ok status) then
        match body with
        | json_throws e => ([request], Some e)
        | json_ok (body_null type_error) => ([request], Some (Error type_error))
        | json_ok errorData =>
            ([request],
             Some (Error (or_else (body_error errorData) "Translation failed")))
        end
      else
        match body with
        | json_throws e => ([request], Some e)
        | json_ok (body_success o t a r l c) =>
            let result := {| original_text := o; translated_text := t;
                             audio_base64 := a; sample_rate := r;
                             latency_ms := l; confidence := c;
                             timestamp := now; is_final := Some true |} in
            ([request; onTranslation result], None)
        | json_ok (body_failure e) =>
            ([request], Some (Error (or_else e "Translation failed")))
        | json_ok (body_without_metrics _ type_error)
        | json_ok (body_null type_error) =>
            ([request], Some (Error type_error))
        end
  end.

(** The [catch] block. *)
Definition send_catch (p : props) (error : thrown) : list effect :=
  console_error "Error sending audio:"
  :: call_onError p (if instanceof_Error error then message_of error
                     else "Failed to translate audio").

(** The text that a failed call passes to [onError], by the outcome of the
    request: the message of what [fetch], [response.json()] or the reading
    of the body threw when that is an [Error], [Failed to translate audio]
    when it is not one, and otherwise the [error] text of the body or,
    when that is missing or empty, [Translation failed]. *)
Definition failure_message (net : fetch_outcome translate_body) : string :=
  match net with
  | fetch_rejects e | fetch_resolves _ (json_throws e) =>
      match e with
      | DOMException _ m | Error m => m
      | NotAnError => "Failed to translate audio"
      end
  | fetch_resolves _ (json_ok (body_null type_error)) => type_error
  | fetch_resolves status (json_ok (body_without_metrics e type_error)) =>
      if response_ok status then type_error
      else or_else e "Translation failed"
  | fetch_resolves _ (json_ok d) => or_else (body_error d) "Translation failed"
  end.

(** The requests on which the code reads the response to its end: a
    response arrived, its body parsed, and reading it threw nothing. *)
Definition response_read (net : fetch_outcome translate_body) : bool :=
  match net with
  | fetch_resolves _ (json_ok (body_null _)) => false
  | fetch_resolves status (json_ok (body_without_metrics _ _)) =>
      negb (response_ok status)
  | fetch_resolves _ (json_ok _) => true
  | _ => false
  end.

(** The effects of one call; the [finally] block leaves [isProcessing]
    false whatever happened. *)
Definition sendAudioToBackend_effects (p : props) (now : Timestamp)
           (audioBlob : Blob) (net : fetch_outcome translate_body) : list effect :=
  match send_try p now audioBlob net with
  | (effs, None) => effs
  | (effs, Some error) => effs ++ send_catch p error
  end.

(** Views of a list of effects. *)
Fixpoint requests (effs : list effect) : list (Blob * string * string) :=
  match effs with
  | [] => []
  | fetch_translate a sl tl :: rest => (a, sl, tl) :: requests rest
  | _ :: rest => requests rest
  end.

Fixpoint delivered (effs : list effect) : list TranslationResult :=
  match effs with
  | [] => []
  | onTranslation r :: rest => r :: delivered rest
  | _ :: rest => delivered rest
  end.

Fixpoint reported (effs : list effect) : list string :=
  match effs with
  | [] => []
  | onError m :: rest => m :: reported rest
  | _ :: rest => reported rest
  end.

Fixpoint errors_logged (effs : list effect) : list string :=
  match effs with
  | [] => []
  | console_error m :: rest => m :: errors_logged rest
  | _ :: rest => errors_logged rest
  end.

(** What the console shows as a warning or an error. *)
Fixpoint errors_and_warnings (effs : list effect) : list string :=
  match effs with
  | [] => []
  | console_error m :: rest | console_warn m :: rest => m :: errors_and_warnings rest
  | _ :: rest => errors_and_warnings rest
  end.

(** Messages sent on the socket. *)
Fixpoint socket_messages (effs : list effect) : list effect :=
  match effs with
  | [] => []
  | emit_start_translation sl tl :: rest =>
      emit_start_translation sl tl :: socket_messages rest
  | emit_audio_chunk a r f :: rest => emit_audio_chunk a r f :: socket_messages rest
  | emit_stop_translation :: rest => emit_stop_translation :: socket_messages rest
  | _ :: rest => socket_messages rest
  end.

(** The microphone request of [startRecording]: [navigator.mediaDevices]
    may be missing (insecure context), [getUserMedia] may reject, or it
    resolves with a stream whose audio context runs at [sampleRate]. *)
Inductive mic_outcome : Type :=
| mic_unavailable
| mic_rejects (e : thrown)
| mic_resolves (sampleRate : Q).

End Common.

(* ===================================================================== *)
(** * The recorder with real-time and batch modes (VoiceRecorder.tsx) *)
(* ===================================================================== *)

Module Recorder.
Import JS Encoder Common.
Local Open Scope nat_scope.

Inductive Mode : Type := realtime | batch.

(** The script processor of a streaming session: the sample rate of its
    audio context and the closure variable [audioBuffer]. *)
Record chunker : Type := {
  sampleRate : Q;
  audioBuffer : list (list number)
}.

Record state : Type := {
  isRecording : bool;
  isConnected : bool;
  isProcessing : bool;
  mode : Mode;
  socket_connected : bool;           (* socketRef.current?.connected *)
  audioChunksRef : list Blob;
  stream_live : bool;                (* streamRef.current has live tracks *)
  audioProcessor : option chunker;   (* the connected script processor *)
  recorder_active : bool;            (* mediaRecorder.state !== 'inactive' *)
  batch_handlers : bool              (* ondataavailable / onstop installed *)
}.

Definition initial : state :=
  {| isRecording := false; isConnected := false; isProcessing := false;
     mode := realtime; socket_connected := false; audioChunksRef := [];
     stream_live := false; audioProcessor := None; recorder_active := false;
     batch_handlers := false |}.

Definition CHUNK_DURATION : Q := 2%Q.

(** [Math.floor(CHUNK_DURATION * sampleRate)]. *)
Definition samplesPerChunk (sampleRate : Q) : Z :=
  Qfloor (CHUNK_DURATION * sampleRate)%Q.

Definition bufferSize : nat := Z.to_nat 4096.

(** [audioBuffer.reduce((sum, arr) => sum + arr.length, 0)]. *)
Definition totalSamples (audioBuffer : list (list number)) : nat :=
  fold_left (fun sum arr => sum + List.length arr) audioBuffer 0.

(** [combined.set(buf, offset)]. *)
Definition set_at (combined buf : list number) (offset : nat) : list number :=
  firstn offset combined ++ buf ++ skipn (offset + List.length buf) combined.

(** [new Float32Array(totalSamples)] filled by the loop over [audioBuffer]. *)
Definition combine (audioBuffer : list (list number)) (total : nat) : list number :=
  fst (fold_left
         (fun (acc : list number * nat) buf =>
            (set_at (fst acc) buf (snd acc), snd acc + List.length buf))
         audioBuffer (repeat (Fin 0%Q) total, 0)).

(** [processor.onaudioprocess] on one frame; [connected] is
    [socketRef.current?.connected] at that moment. *)
Definition onaudioprocess (connected : bool) (inputData : list number)
           (c : chunker) : chunker * list effect :=
  let audioBuffer' := audioBuffer c ++ [inputData] in
  let total := totalSamples audioBuffer' in
  if (samplesPerChunk (sampleRate c) <=? Z.of_nat total)%Z then
    let combined := combine audioBuffer' total in
    let sent :=
      if connected then
        match encodeSamples combined with
        | Some base64 =>
            [console_log "Emitting audio chunk";
             emit_audio_chunk base64 (sampleRate c) "raw_pcm"]
        | None => []          (* the window loop does not return *)
        end
      else [console_warn "Socket not connected, skipping chunk"] in
    ({| sampleRate := sampleRate c; audioBuffer := [] |},
     console_log "Sending audio chunk" :: sent)
  else
    ({| sampleRate := sampleRate c; audioBuffer := audioBuffer' |}, []).

(** The message of the [catch] block of [startRecording]. *)
Definition start_error_message (error : thrown) : string :=
  match error with
  | DOMException name message =>
      if String.eqb name "NotAllowedError" then
        "Microphone permission denied. Please allow microphone access."
      else if String.eqb name "NotFoundError" then
        "No microphone found. Please connect a microphone."
      else if String.eqb name "NotReadableError" then
        "Microphone is in use by another application."
      else if String.eqb name "OverconstrainedError" then
        "Could not satisfy audio constraints."
      else if String.eqb name "SecurityError" then
        "Microphone access blocked. Use HTTPS or localhost."
      else String.append "Microphone error: " message
  | Error message => message
  | NotAnError => "Failed to access microphone"
  end.

Definition start_catch (p : props) (error : thrown) : list effect :=
  console_error "Error starting recording:"
  :: call_onError p (start_error_message error).

Definition mic_unavailable_message : string :=
  "Microphone access not available. Please use localhost (not 127.0.0.1) or HTTPS.".

(** [startRecording]. *)
Definition startRecording (p : props) (mic : mic_outcome) (s : state)
  : state * list effect :=
  let s0 :=
    {| isRecording := isRecording s; isConnected := isConnected s;
       isProcessing := isProcessing s; mode := mode s;
       socket_connected := socket_connected s; audioChunksRef := [];
       stream_live := stream_live s; audioProcessor := audioProcessor s;
       recorder_active := recorder_active s;
       batch_handlers := batch_handlers s |} in
  match mic with
  | mic_unavailable => (s0, start_catch p (Error mic_unavailable_message))
  | mic_rejects e => (s0, getUserMedia :: start_catch p e)
  | mic_resolves rate =>
      match mode s, socket_connected s with
      | realtime, true =>
          ({| isRecording := true; isConnected := isConnected s;
              isProcessing := true; mode := mode s;
              socket_connected := socket_connected s; audioChunksRef := [];
              stream_live := true;
              audioProcessor := Some {| sampleRate := rate; audioBuffer := [] |};
              recorder_active := true; batch_handlers := false |},
           [getUserMedia;
            console_log "Starting real-time translation...";
            emit_start_translation (sourceLang p) (targetLang p)])
      | _, _ =>
          ({| isRecording := true; isConnected := isConnected s;
              isProcessing := isProcessing s; mode := mode s;
              socket_connected := socket_connected s; audioChunksRef := [];
              stream_live := true; audioProcessor := audioProcessor s;
              recorder_active := true; batch_handlers := true |},
           [getUserMedia; console_log "Starting batch recording..."])
      end
  end.

(** [stopRecording].  The recorder is stopped, the session is closed on the
    socket, the script processor is disconnected and the tracks are
    stopped; [audioBuffer] is not read. *)
Definition stopRecording (s : state) : state * list effect :=
  ({| isRecording := false; isConnected := isConnected s;
      isProcessing := isProcessing s; mode := mode s;
      socket_connected := socket_connected s;
      audioChunksRef := audioChunksRef s;
      stream_live := false; audioProcessor := None;
      recorder_active := false; batch_handlers := batch_handlers s |},
   match mode s, socket_connected s with
   | realtime, true => [emit_stop_translation]
   | _, _ => []
   end).

(** One frame delivered to the connected processor. *)
Definition audioprocess_event (inputData : list number) (s : state)
  : state * list effect :=
  match audioProcessor s with
  | Some c =>
      let (c', effs) := onaudioprocess (socket_connected s) inputData c in
      ({| isRecording := isRecording s; isConnected := isConnected s;
          isProcessing := isProcessing s; mode := mode s;
          socket_connected := socket_connected s;
          audioChunksRef := audioChunksRef s;
          stream_live := stream_live s; audioProcessor := Some c';
          recorder_active := recorder_active s;
          batch_handlers := batch_handlers s |}, effs)
  | None => (s, [])
  end.

(** The socket's [connect] and [disconnect] handlers. *)
Definition socket_event (up : bool) (s : state) : state * list effect :=
  ({| isRecording := isRecording s; isConnected := up;
      isProcessing := isProcessing s; mode := mode s;
      socket_connected := up; audioChunksRef := audioChunksRef s;
      stream_live := stream_live s; audioProcessor := audioProcessor s;
      recorder_active := recorder_active s;
      batch_handlers := batch_handlers s |},
   [console_log (if up then "Socket.io connected" else "Socket.io disconnected")]).

(** What happens during a recording. *)
Inductive event : Type :=
| frame (inputData : list number)
| socket (up : bool).

Definition step (e : event) (s : state) : state * list effect :=
  match e with
  | frame inputData => audioprocess_event inputData s
  | socket up => socket_event up s
  end.

Fixpoint run (es : list event) (s : state) : state * list effect :=
  match es with
  | [] => (s, [])
  | e :: es' =>
      let (s1, effs1) := step e s in
      let (s2, effs2) := run es' s1 in
      (s2, effs1 ++ effs2)
  end.

(** A recording from [startRecording] to [stopRecording]: the state before
    the stop, the final state, and the effects of the three phases. *)
Record session_run : Type := {
  before_stop : state;
  after_stop : state;
  start_effects : list effect;
  recording_effects : list effect;
  stop_effects : list effect
}.

Definition session (p : props) (mic : mic_outcome) (es : list event)
           (s : state) : session_run :=
  let (s1, e1) := startRecording p mic s in
  let (s2, e2) := run es s1 in
  let (s3, e3) := stopRecording s2 in
  {| before_stop := s2; after_stop := s3; start_effects := e1;
     recording_effects := e2; stop_effects := e3 |}.

Definition session_effects (r : session_run) : list effect :=
  start_effects r ++ recording_effects r ++ stop_effects r.

(** The samples carried by the [audio_chunk] messages among some effects,
    one list per message, as the receiver decodes them. *)
Fixpoint emitted_chunks (effs : list effect) : list (option (list Z)) :=
  match effs with
  | [] => []
  | emit_audio_chunk audio _ _ :: rest => decodeSamples audio :: emitted_chunks rest
  | _ :: rest => emitted_chunks rest
  end.

Definition chunk_size (c : option (list Z)) : nat :=
  match c with Some l => List.length l | None => 0 end.

Definition emitted_sample_count (effs : list effect) : nat :=
  fold_right (fun c n => chunk_size c + n) 0 (emitted_chunks effs).

(** The same samples as one stream. *)
Definition emitted_samples (effs : list effect) : list Z :=
  flat_map (fun c => match c with Some l => l | None => [] end)
           (emitted_chunks effs).

(** The samples still in the accumulation buffer. *)
Definition buffered (s : state) : list number :=
  match audioProcessor s with
  | Some c => List.concat (audioBuffer c)
  | None => []
  end.

(** The invariant of a streaming session whose socket stays connected. *)
Definition streaming (sr : Q) (s : state) : Prop :=
  socket_connected s = true /\
  (exists c, audioProcessor s = Some c /\ sampleRate c = sr) /\
  (Z.of_nat (List.length (buffered s)) < samplesPerChunk sr)%Z.

(** [sendAudioToBackend]: [setIsProcessing(true)] first,
    [setIsProcessing(false)] in [finally]; nothing else of the state is
    written. *)
Definition sendAudioToBackend (p : props) (now : Timestamp) (audioBlob : Blob)
           (net : fetch_outcome translate_body) (s : state) : state * list effect :=
  ({| isRecording := isRecording s; isConnected := isConnected s;
      isProcessing := false; mode := mode s;
      socket_connected := socket_connected s;
      audioChunksRef := audioChunksRef s;
      stream_live := stream_live s; audioProcessor := audioProcessor s;
      recorder_active := recorder_active s;
      batch_handlers := batch_handlers s |},
   sendAudioToBackend_effects p now audioBlob net).

End Recorder.

(* ===================================================================== *)
(** * The batch-only recorder: health probe and record button *)
(* ===================================================================== *)

Module BatchRecorder.
Import Common.

Record state : Type := {
  isRecording : bool;
  isConnected : bool;
  isProcessing : bool;
  audioChunksRef : list Blob;
  recorder_active : bool;
  stream_live : bool
}.

Definition initial : state :=
  {| isRecording := false; isConnected := false; isProcessing := false;
     audioChunksRef := []; recorder_active := false; stream_live := false |}.

Definition setIsConnected (b : bool) (s : state) : state :=
  {| isRecording := isRecording s; isConnected := b;
     isProcessing := isProcessing s; audioChunksRef := audioChunksRef s;
     recorder_active := recorder_active s; stream_live := stream_live s |}.

(** The probe's timer, [setTimeout(() => controller.abort(), 3000)], and
    its period, [setInterval(checkHealth, 5000)], in milliseconds. *)
Definition health_timeout_ms : Z := 3000.
Definition health_interval_ms : Z := 5000.

(** What the network does with one probe: it fails, it stays silent until
    the timer fires, or it answers with a status and a body that parses as
    JSON or does not. *)
Inductive probe : Type :=
| probe_fails (e : thrown)
| probe_silent
| probe_answers (status : Z) (body : json_result unit).

(** [await fetch(`${API_URL}/health`, {signal: controller.signal})]. *)
Definition health_fetch (n : probe) : fetch_outcome unit :=
  match n with
  | probe_fails e => fetch_rejects e
  | probe_silent => fetch_rejects (DOMException "AbortError" "The operation was aborted.")
  | probe_answers status body => fetch_resolves status body
  end.

(** [checkHealth]. *)
Definition checkHealth (n : probe) (s : state) : state * list effect :=
  match health_fetch n with
  | fetch_rejects _ =>
      (setIsConnected false s, [fetch_health; console_error "Health check failed:"])
  | fetch_resolves status body =>
      if response_ok status then
        match body with
        | json_ok _ =>
            (setIsConnected true s,
             [fetch_health; console_log "Backend health check OK:"])
        | json_throws _ =>
            (setIsConnected false s,
             [fetch_health; console_error "Health check failed:"])
        end
      else
        (setIsConnected false s,
         [fetch_health; console_error "Health check failed with status:"])
  end.

(** The probes of a mounted component, one at mount and one per period. *)
Fixpoint probes (ns : list probe) (s : state) : state :=
  match ns with
  | [] => s
  | n :: rest => probes rest (fst (checkHealth n s))
  end.

(** [startRecording] of this variant: any failure gives one message. *)
Definition startRecording (p : props) (mic : mic_outcome) (s : state)
  : state * list effect :=
  match mic with
  | mic_resolves _ =>
      ({| isRecording := true; isConnected := isConnected s;
          isProcessing := isProcessing s; audioChunksRef := [];
          recorder_active := true; stream_live := true |},
       [getUserMedia])
  | mic_rejects _ =>
      ({| isRecording := isRecording s; isConnected := isConnected s;
          isProcessing := isProcessing s; audioChunksRef := [];
          recorder_active := recorder_active s; stream_live := stream_live s |},
       getUserMedia :: console_error "Error starting recording:"
         :: call_onError p "Failed to access microphone")
  | mic_unavailable =>
      ({| isRecording := isRecording s; isConnected := isConnected s;
          isProcessing := isProcessing s; audioChunksRef := [];
          recorder_active := recorder_active s; stream_live := stream_live s |},
       console_error "Error starting recording:"
         :: call_onError p "Failed to access microphone")
  end.

Definition stopRecording (s : state) : state * list effect :=
  ({| isRecording := false; isConnected := isConnected s;
      isProcessing := isProcessing s; audioChunksRef := audioChunksRef s;
      recorder_active := false; stream_live := false |}, []).

Definition toggleRecording (p : props) (mic : mic_outcome) (s : state)
  : state * list effect :=
  if isRecording s then stopRecording s else startRecording p mic s.

(** The record button: [disabled={!isConnected || isProcessing}]. *)
Definition button_disabled (s : state) : bool :=
  negb (isConnected s) || isProcessing s.

(** A click on the record button; a disabled button runs no handler. *)
Definition click_record (p : props) (mic : mic_outcome) (s : state)
  : state * list effect :=
  if button_disabled s then (s, []) else toggleRecording p mic s.

(** [sendAudioToBackend] of this variant. *)
Definition sendAudioToBackend (p : props) (now : Timestamp) (audioBlob : Blob)
           (net : fetch_outcome translate_body) (s : state) : state * list effect :=
  ({| isRecording := isRecording s; isConnected := isConnected s;
      isProcessing := false; audioChunksRef := audioChunksRef s;
      recorder_active := recorder_active s; stream_live := stream_live s |},
   sendAudioToBackend_effects p now audioBlob net).

End BatchRecorder.

(* ===================================================================== *)
(** * The auto-play queue and manual replay (TranslationDisplay.tsx) *)
(* ===================================================================== *)

Module Playback.
Import Common.
Local Open Scope nat_scope.

(** An entry of [audioQueueRef]: [{ audioBase64, index }]. *)
Definition entry : Type := (string * nat)%type.

(** Which handlers an [Audio] object carries: those of [playNextInQueue]
    ([onended], [onerror], the [catch] on [play()]) or those of
    [playAudio] ([onended], [onerror]). *)
Inductive handlers : Type := queue_handlers | manual_handlers.

(** An [Audio] object: its source, whether it is playing, its handlers. *)
Record audio : Type := {
  src : string;
  playing : bool;
  installed : handlers
}.

(** What the component does that can be observed from outside. *)
Inductive action : Type :=
| act_shift (e : entry)          (* audioQueueRef.current.shift() *)
| act_play (id : nat)            (* audio.play() *)
| act_pause (id : nat) (interrupts : bool)
                                 (* audio.pause(); was the object playing? *)
| act_error (what : string).     (* console.error *)

(** The component's state.  [audios] holds every [Audio] object created so
    far; an object is named by its position, and [audioRef] holds such a
    name. *)
Record state : Type := {
  results : list TranslationResult;
  playingIndex : option nat;
  audioRef : option nat;
  audioQueueRef : list entry;
  isPlayingQueueRef : bool;
  audios : list audio;
  log : list action
}.

Definition initial : state :=
  {| results := []; playingIndex := None; audioRef := None;
     audioQueueRef := []; isPlayingQueueRef := false; audios := []; log := [] |}.

Definition set_results (v : list TranslationResult) (s : state) : state :=
  {| results := v; playingIndex := playingIndex s; audioRef := audioRef s;
     audioQueueRef := audioQueueRef s; isPlayingQueueRef := isPlayingQueueRef s;
     audios := audios s; log := log s |}.

Definition setPlayingIndex (v : option nat) (s : state) : state :=
  {| results := results s; playingIndex := v; audioRef := audioRef s;
     audioQueueRef := audioQueueRef s; isPlayingQueueRef := isPlayingQueueRef s;
     audios := audios s; log := log s |}.

Definition set_audioRef (v : option nat) (s : state) : state :=
  {| results := results s; playingIndex := playingIndex s; audioRef := v;
     audioQueueRef := audioQueueRef s; isPlayingQueueRef := isPlayingQueueRef s;
     audios := audios s; log := log s |}.

Definition set_audioQueueRef (v : list entry) (s : state) : state :=
  {| results := results s; playingIndex := playingIndex s; audioRef := audioRef s;
     audioQueueRef := v; isPlayingQueueRef := isPlayingQueueRef s;
     audios := audios s; log := log s |}.

Definition set_isPlayingQueueRef (v : bool) (s : state) : state :=
  {| results := results s; playingIndex := playingIndex s; audioRef := audioRef s;
     audioQueueRef := audioQueueRef s; isPlayingQueueRef := v;
     audios := audios s; log := log s |}.

Definition set_audios (v : list audio) (s : state) : state :=
  {| results := results s; playingIndex := playingIndex s; audioRef := audioRef s;
     audioQueueRef := audioQueueRef s; isPlayingQueueRef := isPlayingQueueRef s;
     audios := v; log := log s |}.

Definition record (a : action) (s : state) : state :=
  {| results := results s; playingIndex := playingIndex s; audioRef := audioRef s;
     audioQueueRef := audioQueueRef s; isPlayingQueueRef := isPlayingQueueRef s;
     audios := audios s; log := log s ++ [a] |}.

(** Playback of the object [id] stops (pause, end of media or failure). *)
Fixpoint silence (id : nat) (l : list audio) : list audio :=
  match l, id with
  | [], _ => []
  | a :: rest, O =>
      {| src := src a; playing := false; installed := installed a |} :: rest
  | a :: rest, S id' => a :: silence id' rest
  end.

Definition is_playing (id : nat) (s : state) : bool :=
  match nth_error (audios s) id with
  | Some a => playing a
  | None => false
  end.

(** [audio.pause()]. *)
Definition pause (id : nat) (s : state) : state :=
  record (act_pause id (is_playing id s)) (set_audios (silence id (audios s)) s).

(** [`data:audio/wav;base64,${audioBase64}`]. *)
Definition data_url (audioBase64 : string) : string :=
  String.append "data:audio/wav;base64," audioBase64.

(** [new Audio(audioData)], its handlers, and [audio.play()]: the object
    is created playing and gets the next free name. *)
Definition start (h : handlers) (audioBase64 : string) (index : nat)
           (s : state) : state :=
  let id := List.length (audios s) in
  record (act_play id)
    (setPlayingIndex (Some index)
       (set_audioRef (Some id)
          (set_audios (audios s ++ [{| src := data_url audioBase64;
                                       playing := true;
                                       installed := h |}]) s))).

Section WithAudio.

(** Whether creating and starting an [Audio] object for a payload throws
    synchronously, which the [try] blocks guard against. *)
Variable Audio_throws : string -> bool.

(** [playNextInQueue], by recursion on the queue it reads: the call in
    its [catch] block finds the queue one entry shorter. *)
Fixpoint playNextInQueue_from (queue : list entry) (s : state) : state :=
  match queue with
  | [] => setPlayingIndex None (set_isPlayingQueueRef false s)
  | (audioBase64, index) :: rest =>
      let s1 := record (act_shift (audioBase64, index))
                  (set_audioQueueRef rest (set_isPlayingQueueRef true s)) in
      let s2 := match audioRef s1 with
                | Some id => pause id s1
                | None => s1
                end in
      if Audio_throws audioBase64 then
        playNextInQueue_from rest (record (act_error "Error playing audio:") s2)
      else start queue_handlers audioBase64 index s2
  end.

Definition playNextInQueue (s : state) : state :=
  playNextInQueue_from (audioQueueRef s) s.

(** The effect on [results.length]: enqueue the latest result and start the
    consumer unless it is running. *)
Definition autoplay_effect (s : state) : state :=
  match List.length (results s) with
  | O => s
  | S latestIndex =>
      match nth_error (results s) latestIndex with
      | Some latestResult =>
          let s1 := set_audioQueueRef
                      (audioQueueRef s ++ [(audio_base64 latestResult, latestIndex)]) s in
          if negb (isPlayingQueueRef s1) then playNextInQueue s1 else s1
      | None => s
      end
  end.

(** [playAudio]. *)
Definition playAudio (audioBase64 : string) (index : nat) (s : state) : state :=
  let s1 := match audioRef s with
            | Some id => set_audioRef None (pause id s)
            | None => s
            end in
  if Audio_throws audioBase64 then
    setPlayingIndex None (record (act_error "Error playing audio:") s1)
  else start manual_handlers audioBase64 index s1.

(** [stopAudio]. *)
Definition stopAudio (s : state) : state :=
  match audioRef s with
  | Some id => setPlayingIndex None (set_audioRef None (pause id s))
  | None => s
  end.

(** The handlers installed on the objects. *)
Definition onended (h : handlers) (s : state) : state :=
  match h with
  | queue_handlers => playNextInQueue s
  | manual_handlers => set_audioRef None (setPlayingIndex None s)
  end.

Definition onerror (h : handlers) (s : state) : state :=
  match h with
  | queue_handlers => playNextInQueue (record (act_error "Error playing audio") s)
  | manual_handlers =>
      set_audioRef None
        (setPlayingIndex None (record (act_error "Error playing audio") s))
  end.

(** [audio.play().catch(...)]: only [playNextInQueue] installs one. *)
Definition onrejected (h : handlers) (s : state) : state :=
  match h with
  | queue_handlers => playNextInQueue (record (act_error "Error starting playback:") s)
  | manual_handlers => s
  end.

(** The button of a result card: [playingIndex === index ? Stop : Play].
    The card marked as playing shows Stop, every other card shows Play. *)
Definition shows_stop (index : nat) (s : state) : bool :=
  match playingIndex s with
  | Some marked => Nat.eqb marked index
  | None => false
  end.

(** Whether some card shows the Stop button. *)
Definition stop_button (s : state) : bool :=
  match playingIndex s with
  | Some marked => marked <? List.length (results s)
  | None => false
  end.

(** What can happen to the component.  [submit] is a render of the parent
    with one more result, the way [handleTranslation] appends them;
    [rerender] is a render with any other results array (several results
    appended before one render, or the list cleared).  A click is a click
    on a button that the page shows: Play on a card that is not marked as
    playing, Stop on the card that is.  A click on a button that is not
    there is no event of the component and leaves the state as it is. *)
Inductive event : Type :=
| submit (r : TranslationResult)   (* the parent appends a result *)
| rerender (rs : list TranslationResult)
| ended (id : nat)                 (* a playing object reaches its end *)
| errored (id : nat)               (* an object fails to load or decode *)
| play_rejected (id : nat)         (* the promise of [play()] rejects *)
| click_play (index : nat)         (* the Play button of a result card *)
| click_stop.                      (* the Stop button of the marked card *)

Definition step (e : event) (s : state) : state :=
  match e with
  | submit r => autoplay_effect (set_results (results s ++ [r]) s)
  | rerender rs =>
      (* the effect depends on [results.length] *)
      if Nat.eqb (List.length rs) (List.length (results s))
      then set_results rs s
      else autoplay_effect (set_results rs s)
  | ended id =>
      match nth_error (audios s) id with
      | Some a =>
          if playing a
          then onended (installed a) (set_audios (silence id (audios s)) s)
          else s
      | None => s
      end
  | errored id =>
      match nth_error (audios s) id with
      | Some a => onerror (installed a) (set_audios (silence id (audios s)) s)
      | None => s
      end
  | play_rejected id =>
      match nth_error (audios s) id with
      | Some a => onrejected (installed a) (set_audios (silence id (audios s)) s)
      | None => s
      end
  | click_play index =>
      match nth_error (results s) index with
      | Some r =>
          if shows_stop index s then s
          else playAudio (audio_base64 r) index s
      | None => s
      end
  | click_stop => if stop_button s then stopAudio s else s
  end.

Fixpoint run (es : list event) (s : state) : state :=
  match es with
  | [] => s
  | e :: rest => run rest (step e s)
  end.

(** Events of the queue path: results submitted one by one and what
    happens to the objects; no button of a result card is pressed. *)
Definition queue_event (e : event) : bool :=
  match e with
  | click_play _ | click_stop | rerender _ => false
  | _ => true
  end.

(** Events of a run in which every object plays to its end. *)
Definition error_free (e : event) : bool :=
  match e with
  | submit _ | ended _ => true
  | _ => false
  end.

(** Whether an event runs a handler that [playNextInQueue] installed. *)
Definition fires_queue_handler (e : event) (s : state) : bool :=
  match e with
  | ended id =>
      match nth_error (audios s) id with
      | Some {| playing := true; installed := queue_handlers |} => true
      | _ => false
      end
  | errored id | play_rejected id =>
      match nth_error (audios s) id with
      | Some {| installed := queue_handlers |} => true
      | _ => false
      end
  | _ => false
  end.

(** A run in which no handler of [playNextInQueue] fires. *)
Fixpoint quiet (es : list event) (s : state) : bool :=
  match es with
  | [] => true
  | e :: rest => negb (fires_queue_handler e s) && quiet rest (step e s)
  end.

(** Playback left to itself: as long as the consumer is running, the
    current object plays to its end, [n] times at most. *)
Fixpoint drain (n : nat) (s : state) : state :=
  match n with
  | O => s
  | S n' =>
      if isPlayingQueueRef s then
        match audioRef s with
        | Some id => drain n' (step (ended id) s)
        | None => s
        end
      else s
  end.

End WithAudio.

(** The entries the queue has handed out, oldest first. *)
Fixpoint shifted (l : list action) : list entry :=
  match l with
  | [] => []
  | act_shift e :: rest => e :: shifted rest
  | _ :: rest => shifted rest
  end.

Definition dequeued (s : state) : list entry := shifted (log s).

(** The objects that were paused while they were playing. *)
Fixpoint interrupted (l : list action) : list nat :=
  match l with
  | [] => []
  | act_pause id true :: rest => id :: interrupted rest
  | _ :: rest => interrupted rest
  end.

(** The entries of the results submitted so far, in order. *)
Fixpoint entries_from (index : nat) (rs : list TranslationResult) : list entry :=
  match rs with
  | [] => []
  | r :: rest => (audio_base64 r, index) :: entries_from (S index) rest
  end.

Definition submitted (s : state) : list entry := entries_from 0 (results s).

Definition is_queue_audio (a : audio) : bool :=
  match installed a with
  | queue_handlers => true
  | manual_handlers => false
  end.

(** The sources of the objects that [playNextInQueue] started, in order. *)
Definition queue_started (s : state) : list string :=
  map src (filter is_queue_audio (audios s)).

(** The sources of the entries whose object could be created. *)
Definition playable (Audio_throws : string -> bool) (l : list entry) : list string :=
  map data_url (filter (fun a => negb (Audio_throws a)) (map fst l)).

(** Only the object [audioRef] names may be playing. *)
Definition only_current_playing (s : state) : Prop :=
  forall id, is_playing id s = true -> audioRef s = Some id.

(** At most one object is playing. *)
Definition at_most_one_playing (s : state) : Prop :=
  forall i j, is_playing i s = true -> is_playing j s = true -> i = j.

(** No object is playing. *)
Definition all_silent (s : state) : Prop := forall j, is_playing j s = false.

(** What the consumer relies on when it is called: only the current
    object may be playing, the queue holds the submitted entries that were
    not handed out yet, the objects created are those of the entries handed
    out, and every object carries the consumer's handlers. *)
Definition ready (Audio_throws : string -> bool) (s : state) : Prop :=
  only_current_playing s /\
  dequeued s ++ audioQueueRef s = submitted s /\
  queue_started s = playable Audio_throws (dequeued s) /\
  Forall (fun a => installed a = queue_handlers) (audios s).

(** What holds between two events of the queue path: an idle consumer has
    an empty queue, and a running consumer has a playing object. *)
Definition consistent (Audio_throws : string -> bool) (s : state) : Prop :=
  ready Audio_throws s /\
  (isPlayingQueueRef s = false -> audioQueueRef s = []) /\
  (isPlayingQueueRef s = true ->
   exists id, audioRef s = Some id /\ is_playing id s = true).

(** What the manual operations and handlers leave alone. *)
Definition same_queue (s s' : state) : Prop :=
  audioQueueRef s' = audioQueueRef s /\
  isPlayingQueueRef s' = isPlayingQueueRef s /\
  dequeued s' = dequeued s /\
  results s' = results s /\
  queue_started s' = queue_started s.

(** The queue as a run without the consumer leaves it: nothing handed
    out, the flag kept, new entries appended. *)
Definition grown (s s' : state) : Prop :=
  isPlayingQueueRef s' = isPlayingQueueRef s /\
  dequeued s' = dequeued s /\
  queue_started s' = queue_started s /\
  exists later, audioQueueRef s' = audioQueueRef s ++ later.

(** What holds along a run in which every object plays to its end: an
    idle consumer has no object playing, and no object was interrupted. *)
Definition calm (Audio_throws : string -> bool) (s : state) : Prop :=
  consistent Audio_throws s /\
  (isPlayingQueueRef s = false -> all_silent s) /\
  interrupted (log s) = [].

(** From [s] to [s'] no object is lost and no object that was not playing
    plays: playback starts with the creation of an object only. *)
Definition no_resume (s s' : state) : Prop :=
  List.length (audios s) <= List.length (audios s') /\
  forall id, id < List.length (audios s) ->
             is_playing id s = false -> is_playing id s' = false.

(** The state in which [playNextInQueue] creates the next object. *)
Definition shift_state (e : entry) (rest : list entry) (s : state) : state :=
  let s1 := record (act_shift e)
              (set_audioQueueRef rest (set_isPlayingQueueRef true s)) in
  match audioRef s1 with
  | Some id => pause id s1
  | None => s1
  end.

End Playback.

(* ===================================================================== *)
(** * The design document's wording *)
(* ===================================================================== *)

Module Design.
Import JS Encoder Common.

(** Quantization as the document words it: clamp to [-1, 1], scale
    negative values by 32768 and the others by 32767, truncate. *)
Definition clamp (q : Q) : Q := Qmax (inject_Z (-1)) (Qmin (inject_Z 1) q).

Definition scale (c : Q) : Q :=
  if Qlt_le_dec c 0 then c * inject_Z 32768 else c * inject_Z 32767.

Definition quantize_spec (q : Q) : Z := Qtrunc (scale (clamp q)).

(** The translation a batch request resolves with: a response with a
    success status whose body is the success shape. *)
Definition translation_of (now : Timestamp) (net : fetch_outcome translate_body)
  : option TranslationResult :=
  match net with
  | fetch_resolves status (json_ok (body_success o t a r l c)) =>
      if response_ok status then
        Some {| original_text := o; translated_text := t; audio_base64 := a;
                sample_rate := r; latency_ms := l; confidence := c;
                timestamp := now; is_final := Some true |}
      else None
  | _ => None
  end.

(** The text that a failure response offers: the [error] text of its
    parsed body. *)
Definition response_error (net : fetch_outcome translate_body)
  : option string :=
  match net with
  | fetch_resolves _ (json_ok d) => body_error d
  | _ => None
  end.

(** The two generic texts of the code. *)
Definition generic_fallbacks : list string :=
  ["Translation failed"; "Failed to translate audio"]%string.

(** Modelled from the spec: the message of a failed batch request is
    "extracted from the failure response (with a generic fallback)": it is
    the non-empty text the response offers, or one of the generic texts. *)
Definition from_the_response (net : fetch_outcome translate_body)
           (message : string) : bool :=
  match response_error net with
  | Some text => String.eqb message text && negb (String.eqb message "")
  | None => false
  end
  || existsb (String.eqb message) generic_fallbacks.


(** The causes of a failed microphone request. *)
Inductive mic_cause : Type :=
| permission_denied
| device_absent
| device_busy
| constraint_unsatisfiable
| insecure_context.

(** The cause a failed request stands for, by the names of the Media
    Capture specification. *)
Definition cause_of (mic : mic_outcome) : option mic_cause :=
  match mic with
  | mic_unavailable => Some insecure_context
  | mic_rejects (DOMException name _) =>
      if String.eqb name "NotAllowedError" then Some permission_denied
      else if String.eqb name "NotFoundError" then Some device_absent
      else if String.eqb name "NotReadableError" then Some device_busy
      else if String.eqb name "OverconstrainedError" then Some constraint_unsatisfiable
      else if String.eqb name "SecurityError" then Some insecure_context
      else None
  | _ => None
  end.

(** The text shown for a cause; an insecure context shows one of two. *)
Definition cause_message (mic : mic_outcome) (c : mic_cause) : string :=
  match c with
  | permission_denied =>
      "Microphone permission denied. Please allow microphone access."
  | device_absent => "No microphone found. Please connect a microphone."
  | device_busy => "Microphone is in use by another application."
  | constraint_unsatisfiable => "Could not satisfy audio constraints."
  | insecure_context =>
      match mic with
      | mic_unavailable =>
          "Microphone access not available. Please use localhost (not 127.0.0.1) or HTTPS."
      | _ => "Microphone access blocked. Use HTTPS or localhost."
      end
  end.

(** A probe that finds the backend: a success status and a body that
    parses as JSON. *)
Definition probe_succeeds (n : BatchRecorder.probe) : bool :=
  match n with
  | BatchRecorder.probe_answers status (json_ok _) => response_ok status
  | _ => false
  end.

(** The status of the response to a probe, when there is one. *)
Definition probe_status (n : BatchRecorder.probe) : option Z :=
  match n with
  | BatchRecorder.probe_answers status _ => Some status
  | _ => None
  end.

End Design.

(* ===================================================================== *)
(** * Sample inputs *)
(* ===================================================================== *)

Module Examples.
Import JS Common.

Definition a_props : props :=
  {| sourceLang := "en"; targetLang := "es"; has_onError := true |}.

(** One frame of silence of the size the script processor delivers. *)
Definition silence_frame : list number :=
  repeat (Fin 0%Q) Recorder.bufferSize.

(** A recorder in real-time mode whose socket is connected. *)
Definition connected_idle : Recorder.state :=
  {| Recorder.isRecording := false; Recorder.isConnected := true;
     Recorder.isProcessing := false; Recorder.mode := Recorder.realtime;
     Recorder.socket_connected := true; Recorder.audioChunksRef := [];
     Recorder.stream_live := false; Recorder.audioProcessor := None;
     Recorder.recorder_active := false; Recorder.batch_handlers := false |}.

Definition a_result (text audio : string) : TranslationResult :=
  {| original_text := text; translated_text := text; audio_base64 := audio;
     sample_rate := Fin 22050%Q; latency_ms := Fin 850%Q;
     confidence := Fin (9 # 10)%Q; timestamp := TsNumber 0;
     is_final := None |}.

Definition r1 : TranslationResult := a_result "one" "UklGRg==".
Definition r2 : TranslationResult := a_result "two" "UklGRh==".
Definition r3 : TranslationResult := a_result "three" "UklGRi==".

(** An [Audio] constructor that never throws. *)
Definition never_throws (audioBase64 : string) : bool := false.

End Examples.

(* ===================================================================== *)
(** * The alphabet of the encoded text *)
(* ===================================================================== *)

Module TextSafe.
Import JS.

(** A digit of the base64 alphabet, or the padding character. *)
Definition base64_char (c : ascii) : bool :=
  match b64val c with
  | Some _ => true
  | None => is_pad c
  end.

End TextSafe.

(* ===================================================================== *)
(** * The encoder on an engine with a bound on the arguments of a call *)
(* ===================================================================== *)

Module ArgumentLimit.
Import JS.

(** [Function.prototype.apply] spreads the array into the arguments of one
    call, and an engine accepts a bounded number of them: beyond the bound
    the call throws a [RangeError].  The bound differs between engines and
    is the parameter [limit] here.  The comment of the source gives this as
    the reason for the loop: "Convert to base64 in chunks to avoid stack
    overflow". *)
Inductive outcome : Type :=
| returns (text : string)
| RangeError
| out_of_fuel.

(** [String.fromCharCode.apply(null, Array.from(chunk))]. *)
Definition fromCharCode_apply (limit : nat) (chunk : list byte) : outcome :=
  if limit <? List.length chunk then RangeError
  else returns (JS.fromCharCode_apply chunk).

(** The loop of [Encoder.binaryLoop], with the call that can throw. *)
Fixpoint binaryLoop (limit fuel : nat) (bytes : list byte) (i : nat)
         (binary : string) : outcome :=
  if i <? List.length bytes then
    match fuel with
    | O => out_of_fuel
    | S fuel' =>
        let chunk :=
          subarray bytes i
                   (Nat.min (i + Encoder.chunkSize) (List.length bytes)) in
        match fromCharCode_apply limit chunk with
        | returns piece =>
            binaryLoop limit fuel' bytes (i + Encoder.chunkSize)
                       (String.append binary piece)
        | failure => failure
        end
    end
  else returns binary.

Definition encode (limit : nat) (bytes : list byte) : outcome :=
  match binaryLoop limit (List.length bytes) bytes 0 EmptyString with
  | returns binary => returns (btoa binary)
  | failure => failure
  end.

End ArgumentLimit.

(* ===================================================================== *)
(** * The recorder as a component: inbound messages, buttons, batch upload *)
(* ===================================================================== *)

Module RecorderComponent.
Import JS Common Recorder.
Local Open Scope nat_scope.

Definition setIsProcessing (b : bool) (s : state) : state :=
  {| isRecording := isRecording s; isConnected := isConnected s;
     isProcessing := b; mode := mode s;
     socket_connected := socket_connected s;
     audioChunksRef := audioChunksRef s;
     stream_live := stream_live s; audioProcessor := audioProcessor s;
     recorder_active := recorder_active s;
     batch_handlers := batch_handlers s |}.

Definition setMode (m : Mode) (s : state) : state :=
  {| isRecording := isRecording s; isConnected := isConnected s;
     isProcessing := isProcessing s; mode := m;
     socket_connected := socket_connected s;
     audioChunksRef := audioChunksRef s;
     stream_live := stream_live s; audioProcessor := audioProcessor s;
     recorder_active := recorder_active s;
     batch_handlers := batch_handlers s |}.

Definition set_audioChunksRef (v : list Blob) (s : state) : state :=
  {| isRecording := isRecording s; isConnected := isConnected s;
     isProcessing := isProcessing s; mode := mode s;
     socket_connected := socket_connected s;
     audioChunksRef := v;
     stream_live := stream_live s; audioProcessor := audioProcessor s;
     recorder_active := recorder_active s;
     batch_handlers := batch_handlers s |}.

(** [if (result.is_final)]: an absent flag is falsy. *)
Definition truthy (flag : option bool) : bool :=
  match flag with
  | Some true => true
  | _ => false
  end.

(** The socket's [translation_result] handler. *)
Definition on_translation_result (result : TranslationResult) (s : state)
  : state * list effect :=
  (if truthy (is_final result) then setIsProcessing false s else s,
   [console_log "Translation:"; onTranslation result]).

(** The socket's [error] handler. *)
Definition on_error (p : props) (error : string) (s : state)
  : state * list effect :=
  (setIsProcessing false s,
   console_error "Socket error:" :: call_onError p error).

(** The socket's [translation_stopped] handler. *)
Definition on_translation_stopped (s : state) : state * list effect :=
  (setIsProcessing false s, [console_log "Translation session ended"]).

(** [blob.size > 0]. *)
Definition has_data (data : Blob) : bool := 0 <? List.length data.

(** The two handlers that [startRecording] installs on the
    [MediaRecorder] of a batch recording.  They belong to that recorder:
    they read and write [audioChunksRef] of the component whenever the
    recorder fires, whether or not it still is the recorder in
    [mediaRecorderRef].  [p] holds the languages of the render in which the
    recording was started. *)
Definition batch_ondataavailable (data : Blob) (s : state) : state :=
  if has_data data
  then set_audioChunksRef (audioChunksRef s ++ [data]) s
  else s.

Definition batch_onstop (p : props) (now : Timestamp)
           (net : fetch_outcome translate_body) (s : state)
  : state * list effect :=
  let audioBlob := List.concat (audioChunksRef s) in
  let (s1, effs) :=
    if has_data audioBlob
    then sendAudioToBackend p now audioBlob net s
    else (s, []) in
  (set_audioChunksRef [] s1, effs).

(** [dataavailable] and [stop] of the recorder in [mediaRecorderRef]: it
    carries the handlers when it was created by a start in batch mode, and
    no handler at all when it was created by a start in real-time mode. *)
Definition ondataavailable (data : Blob) (s : state) : state :=
  if batch_handlers s then batch_ondataavailable data s else s.

Definition onstop (p : props) (now : Timestamp)
           (net : fetch_outcome translate_body) (s : state)
  : state * list effect :=
  if batch_handlers s then batch_onstop p now net s else (s, []).

(** The start button: [disabled={!isConnected || isProcessing}]. *)
Definition start_disabled (s : state) : bool :=
  negb (isConnected s) || isProcessing s.

(** A click on the round button: the start button while not recording (a
    disabled button runs no handler), the stop button otherwise. *)
Definition click_button (p : props) (mic : mic_outcome) (s : state)
  : state * list effect :=
  if isRecording s then stopRecording s
  else if start_disabled s then (s, [])
  else startRecording p mic s.

(** What can happen to the component.  [dataavailable] and
    [recorder_stopped] are the events of the recorder in
    [mediaRecorderRef].  The events of a stopped recorder are delivered
    after [stopRecording] has returned, so the next recording can start
    before they arrive: [earlier_dataavailable] and
    [earlier_recorder_stopped] are the events of the recorder of an
    earlier batch recording, which [mediaRecorderRef] no longer holds. *)
Inductive event : Type :=
| capture (e : Recorder.event)          (* a frame; the socket connects or drops *)
| translation_result (result : TranslationResult)
| server_error (error : string)
| translation_stopped
| click (mic : mic_outcome)             (* the round button *)
| mode_button (m : Mode)
| dataavailable (data : Blob)
| recorder_stopped (now : Timestamp) (net : fetch_outcome translate_body)
| earlier_dataavailable (data : Blob)
| earlier_recorder_stopped (now : Timestamp)
                           (net : fetch_outcome translate_body).

Definition step (p : props) (e : event) (s : state) : state * list effect :=
  match e with
  | capture e' => Recorder.step e' s
  | translation_result result => on_translation_result result s
  | server_error error => on_error p error s
  | translation_stopped => on_translation_stopped s
  | click mic => click_button p mic s
  | mode_button m => (setMode m s, [])
  | dataavailable data => (ondataavailable data s, [])
  | recorder_stopped now net => onstop p now net s
  | earlier_dataavailable data => (batch_ondataavailable data s, [])
  | earlier_recorder_stopped now net => batch_onstop p now net s
  end.

Fixpoint run (p : props) (es : list event) (s : state) : state * list effect :=
  match es with
  | [] => (s, [])
  | e :: es' =>
      let (s1, effs1) := step p e s in
      let (s2, effs2) := run p es' s1 in
      (s2, effs1 ++ effs2)
  end.


(** The chunks the processor dropped: one warning each. *)
Fixpoint skipped_chunks (effs : list effect) : nat :=
  match effs with
  | [] => 0
  | console_warn _ :: rest => S (skipped_chunks rest)
  | _ :: rest => skipped_chunks rest
  end.

(** The frames among some capture events. *)
Fixpoint frames_of (es : list Recorder.event) : list (list number) :=
  match es with
  | [] => []
  | frame f :: rest => f :: frames_of rest
  | socket _ :: rest => frames_of rest
  end.

(** What a frame or a socket event can do to the outside. *)
Definition capture_effect (e : effect) : bool :=
  match e with
  | console_log _ | console_warn _ | emit_audio_chunk _ _ _ => true
  | _ => false
  end.

(** The processor of a session: it exists, runs at [sr], and holds less
    than one chunk. *)
Definition capturing (sr : Q) (s : state) : Prop :=
  (exists c, audioProcessor s = Some c /\ sampleRate c = sr) /\
  (Z.of_nat (List.length (buffered s)) < samplesPerChunk sr)%Z.

End RecorderComponent.

(* ===================================================================== *)
(** * The batch-only recorder's media callbacks *)
(* ===================================================================== *)

Module BatchComponent.
Import Common BatchRecorder.
Local Open Scope nat_scope.

Definition set_audioChunksRef (v : list Blob) (s : state) : state :=
  {| isRecording := isRecording s; isConnected := isConnected s;
     isProcessing := isProcessing s; audioChunksRef := v;
     recorder_active := recorder_active s; stream_live := stream_live s |}.

(** [blob.size > 0]. *)
Definition has_data (data : Blob) : bool := 0 <? List.length data.

(** [mediaRecorder.ondataavailable].  In this variant every recorder
    carries the two handlers, so the events below are those of any
    recorder the component has created. *)
Definition ondataavailable (data : Blob) (s : state) : state :=
  if has_data data
  then set_audioChunksRef (audioChunksRef s ++ [data]) s
  else s.

(** [mediaRecorder.onstop]. *)
Definition onstop (p : props) (now : Timestamp)
           (net : fetch_outcome translate_body) (s : state)
  : state * list effect :=
  let audioBlob := List.concat (audioChunksRef s) in
  let (s1, effs) :=
    if has_data audioBlob
    then sendAudioToBackend p now audioBlob net s
    else (s, []) in
  (set_audioChunksRef [] s1, effs).

Inductive event : Type :=
| health (n : probe)
| click (mic : mic_outcome)
| dataavailable (data : Blob)
| recorder_stopped (now : Timestamp) (net : fetch_outcome translate_body).

Definition step (p : props) (e : event) (s : state) : state * list effect :=
  match e with
  | health n => checkHealth n s
  | click mic => click_record p mic s
  | dataavailable data => (ondataavailable data s, [])
  | recorder_stopped now net => onstop p now net s
  end.

Fixpoint run (p : props) (es : list event) (s : state) : state * list effect :=
  match es with
  | [] => (s, [])
  | e :: es' =>
      let (s1, effs1) := step p e s in
      let (s2, effs2) := run p es' s1 in
      (s2, effs1 ++ effs2)
  end.

End BatchComponent.

(* ===================================================================== *)
(** * The page: results, error banner, statistics (page.tsx) *)
(* ===================================================================== *)

Module Page.
Import Common.
Local Open Scope nat_scope.

Record state : Type := {
  sourceLang : string;
  targetLang : string;
  results : list TranslationResult;
  error : option string;
  showStats : bool;
  showEvaluation : bool
}.

Definition initial : state :=
  {| sourceLang := "en"; targetLang := "es"; results := []; error := None;
     showStats := false; showEvaluation := false |}.

Definition handleTranslation (result : TranslationResult) (s : state) : state :=
  {| sourceLang := sourceLang s; targetLang := targetLang s;
     results := results s ++ [result]; error := None;
     showStats := showStats s; showEvaluation := showEvaluation s |}.

Definition handleError (errorMessage : string) (s : state) : state :=
  {| sourceLang := sourceLang s; targetLang := targetLang s;
     results := results s; error := Some errorMessage;
     showStats := showStats s; showEvaluation := showEvaluation s |}.

Definition swapLanguages (s : state) : state :=
  {| sourceLang := targetLang s; targetLang := sourceLang s;
     results := results s; error := error s;
     showStats := showStats s; showEvaluation := showEvaluation s |}.

Definition clearResults (s : state) : state :=
  {| sourceLang := sourceLang s; targetLang := targetLang s;
     results := []; error := None;
     showStats := showStats s; showEvaluation := showEvaluation s |}.

Definition setSourceLang (l : string) (s : state) : state :=
  {| sourceLang := l; targetLang := targetLang s;
     results := results s; error := error s;
     showStats := showStats s; showEvaluation := showEvaluation s |}.

Definition setTargetLang (l : string) (s : state) : state :=
  {| sourceLang := sourceLang s; targetLang := l;
     results := results s; error := error s;
     showStats := showStats s; showEvaluation := showEvaluation s |}.

Definition setShowStats (b : bool) (s : state) : state :=
  {| sourceLang := sourceLang s; targetLang := targetLang s;
     results := results s; error := error s;
     showStats := b; showEvaluation := showEvaluation s |}.

Definition setShowEvaluation (b : bool) (s : state) : state :=
  {| sourceLang := sourceLang s; targetLang := targetLang s;
     results := results s; error := error s;
     showStats := showStats s; showEvaluation := b |}.

(** The error box, [{error && (...)}]: shown for a non-empty message. *)
Definition banner (s : state) : option string :=
  match error s with
  | Some (String c m) => Some (String c m)
  | _ => None
  end.

(** The callbacks the recorder is given: [onTranslation={handleTranslation}]
    and [onError={handleError}], applied to what a handler of the recorder
    did, in order. *)
Fixpoint callbacks (effs : list effect) (s : state) : state :=
  match effs with
  | [] => s
  | onTranslation result :: rest => callbacks rest (handleTranslation result s)
  | onError msg :: rest => callbacks rest (handleError msg s)
  | _ :: rest => callbacks rest s
  end.

(** [text.split(' ')]: the pieces between the spaces, empty ones
    included. *)
Fixpoint split_space (text : string) : list string :=
  match text with
  | EmptyString => [EmptyString]
  | String c rest =>
      if Ascii.eqb c " "%char then EmptyString :: split_space rest
      else match split_space rest with
           | piece :: pieces => String c piece :: pieces
           | [] => [String c EmptyString]
           end
  end.

(** [results.reduce((sum, r) => sum + r.original_text.split(' ').length, 0)],
    the [totalWords] of [calculateStats]. *)
Definition totalWords (results : list TranslationResult) : nat :=
  fold_left (fun sum r => sum + List.length (split_space (original_text r)))
            results 0.

(** The number of spaces of a text. *)
Fixpoint spaces (text : string) : nat :=
  match text with
  | EmptyString => 0
  | String c rest => (if Ascii.eqb c " "%char then 1 else 0) + spaces rest
  end.

(** The spaces of the transcripts of some results. *)
Definition total_spaces (results : list TranslationResult) : nat :=
  list_sum (map (fun r => spaces (original_text r)) results).

(** [pieces.join(' ')]. *)
Fixpoint join_space (pieces : list string) : string :=
  match pieces with
  | [] => EmptyString
  | [piece] => piece
  | piece :: rest => String.append piece (String " "%char (join_space rest))
  end.

End Page.

(* ===================================================================== *)
(** * The page and its recorder: renders and the socket effect *)
(* ===================================================================== *)

Module App.
Import Common.
Local Open Scope nat_scope.

(** What the handlers of [Home] are called with. *)
Inductive event : Type :=
| translation (result : TranslationResult)   (* onTranslation *)
| failure (errorMessage : string)            (* onError *)
| swap
| clear
| select_source (l : string)
| select_target (l : string)
| toggle_stats
| toggle_evaluation.

Definition handle (e : event) (pg : Page.state) : Page.state :=
  match e with
  | translation result => Page.handleTranslation result pg
  | failure errorMessage => Page.handleError errorMessage pg
  | swap => Page.swapLanguages pg
  | clear => Page.clearResults pg
  | select_source l => Page.setSourceLang l pg
  | select_target l => Page.setTargetLang l pg
  | toggle_stats => Page.setShowStats (negb (Page.showStats pg)) pg
  | toggle_evaluation => Page.setShowEvaluation (negb (Page.showEvaluation pg)) pg
  end.

Definition same_text (a b : option string) : bool :=
  match a, b with
  | Some x, Some y => String.eqb x y
  | None, None => true
  | _, _ => false
  end.

(** Whether a handler leaves [Home] with a state that differs from the
    current one, so that [Home] renders again: strings, booleans and [null]
    compare by value, arrays by identity, and [[...prev, result]] and [[]]
    are new arrays. *)
Definition renders_again (e : event) (pg : Page.state) : bool :=
  match e with
  | translation _ | clear => true
  | failure errorMessage => negb (same_text (Page.error pg) (Some errorMessage))
  | swap => negb (String.eqb (Page.sourceLang pg) (Page.targetLang pg))
  | select_source l => negb (String.eqb l (Page.sourceLang pg))
  | select_target l => negb (String.eqb l (Page.targetLang pg))
  | toggle_stats | toggle_evaluation => true
  end.

(** What the recorder's socket effect does. *)
Inductive socket_action : Type :=
| io_open (socket : nat)           (* io(API_URL, ...) *)
| socket_disconnect (socket : nat).  (* the cleanup: socket.disconnect() *)

(** [Home] with its recorder.  A render of [Home] evaluates the function
    expressions [handleTranslation] and [handleError] anew; the render and
    its two functions are named by its number.  The socket effect of the
    recorder has the dependencies [[onTranslation, onError]]: after a render
    with other functions its cleanup runs and the effect runs again.  A
    socket is named by the render whose effect opened it. *)
Record state : Type := {
  page : Page.state;
  render : nat;
  socketRef : nat;
  sockets : list socket_action
}.

Definition initial : state :=
  {| page := Page.initial; render := 0; socketRef := 0; sockets := [io_open 0] |}.

Definition step (e : event) (t : state) : state :=
  if renders_again e (page t) then
    {| page := handle e (page t);
       render := S (render t);
       socketRef := S (render t);
       sockets := sockets t ++ [socket_disconnect (socketRef t);
                                io_open (S (render t))] |}
  else
    {| page := handle e (page t); render := render t;
       socketRef := socketRef t; sockets := sockets t |}.

Fixpoint run (es : list event) (t : state) : state :=
  match es with
  | [] => t
  | e :: rest => run rest (step e t)
  end.

Fixpoint opened (l : list socket_action) : list nat :=
  match l with
  | [] => []
  | io_open n :: rest => n :: opened rest
  | _ :: rest => opened rest
  end.

Fixpoint closed (l : list socket_action) : list nat :=
  match l with
  | [] => []
  | socket_disconnect n :: rest => n :: closed rest
  | _ :: rest => closed rest
  end.

Fixpoint translations (es : list event) : list TranslationResult :=
  match es with
  | [] => []
  | translation result :: rest => result :: translations rest
  | _ :: rest => translations rest
  end.

(** [Home] renders [<TranslationDisplay results={results} .../>]: what a
    result handed to [handleTranslation] does to the page and, through the
    render that follows, to the display. *)
Definition deliver (Audio_throws : string -> bool) (result : TranslationResult)
           (v : Page.state * Playback.state) : Page.state * Playback.state :=
  let pg := Page.handleTranslation result (fst v) in
  (pg, Playback.step Audio_throws (Playback.rerender (Page.results pg)) (snd v)).

Fixpoint deliver_all (Audio_throws : string -> bool)
         (rs : list TranslationResult) (v : Page.state * Playback.state)
  : Page.state * Playback.state :=
  match rs with
  | [] => v
  | r :: rest => deliver_all Audio_throws rest (deliver Audio_throws r v)
  end.

(** Every socket but the one in use has been disconnected. *)
Definition tidy (t : state) : Prop :=
  opened (sockets t) = seq 0 (S (render t)) /\
  closed (sockets t) = seq 0 (render t) /\
  socketRef t = render t.

End App.

(* ===================================================================== *)
(** * The evaluation panel (EvaluationMetrics.tsx) *)
(* ===================================================================== *)

Module Metrics.
Import JS Common.

Record asr_metrics : Type := {
  avg_wer : number;
  avg_cer : number;
  asr_total_samples : number;
  asr_interpretation : string
}.

Record mt_metrics : Type := {
  avg_bleu : number;
  mt_total_samples : number;
  mt_interpretation : string
}.

Record tts_metrics : Type := {
  avg_mos : number;
  tts_total_samples : number;
  tts_interpretation : string
}.

Record quality : Type := {
  score : number;
  interpretation : string
}.

Record EvaluationSummary : Type := {
  asr : asr_metrics;
  mt : mt_metrics;
  tts : tts_metrics;
  overall_quality : quality
}.

(** The body of a response of the evaluation routes as the component reads
    it: whether [data.success] is truthy, and [data.summary].  A body on
    which reading [success] throws ([null]) behaves as one that does not
    parse. *)
Record response_body : Type := {
  success : bool;
  summary_field : option EvaluationSummary
}.

Record state : Type := {
  summary : option EvaluationSummary;
  loading : bool;
  error : string;
  autoRefresh : bool
}.

Definition initial : state :=
  {| summary := None; loading := false; error := EmptyString;
     autoRefresh := false |}.

Inductive effect : Type :=
| get_summary                  (* fetch('.../api/evaluation/summary') *)
| post_reset                   (* fetch('.../api/evaluation/reset', POST) *)
| log_error                    (* console.error(err) *)
| alert (message : string).

(** [fetchSummary]; the status of the response is not read. *)
Definition fetchSummary (net : fetch_outcome response_body) (s : state)
  : state * list effect :=
  match net with
  | fetch_resolves _ (json_ok data) =>
      if success data then
        ({| summary := summary_field data; loading := false;
            error := EmptyString; autoRefresh := autoRefresh s |},
         [get_summary])
      else
        ({| summary := summary s; loading := false;
            error := "Failed to fetch evaluation summary";
            autoRefresh := autoRefresh s |},
         [get_summary])
  | fetch_rejects _ | fetch_resolves _ (json_throws _) =>
      ({| summary := summary s; loading := false;
          error := "Error connecting to server";
          autoRefresh := autoRefresh s |},
       [get_summary; log_error])
  end.

(** [resetMetrics]. *)
Definition resetMetrics (net : fetch_outcome response_body) (s : state)
  : state * list effect :=
  match net with
  | fetch_resolves _ (json_ok data) =>
      if success data then
        ({| summary := None; loading := loading s; error := error s;
            autoRefresh := false |},
         [post_reset])
      else (s, [post_reset; alert "Error resetting metrics"])
  | fetch_rejects _ | fetch_resolves _ (json_throws _) =>
      (s, [post_reset; log_error; alert "Error resetting metrics"])
  end.

Definition setAutoRefresh (b : bool) (s : state) : state :=
  {| summary := summary s; loading := loading s; error := error s;
     autoRefresh := b |}.

(** What can happen to the panel: the Refresh button, the Auto button, a
    tick of the interval the effect sets while [autoRefresh] holds, and the
    Reset button, which is rendered only while there is a summary. *)
Inductive event : Type :=
| refresh (net : fetch_outcome response_body)
| toggle_auto
| tick (net : fetch_outcome response_body)
| reset (net : fetch_outcome response_body).

Definition step (e : event) (s : state) : state * list effect :=
  match e with
  | refresh net => fetchSummary net s
  | toggle_auto => (setAutoRefresh (negb (autoRefresh s)) s, [])
  | tick net => if autoRefresh s then fetchSummary net s else (s, [])
  | reset net =>
      match summary s with
      | Some _ => resetMetrics net s
      | None => (s, [])
      end
  end.

Fixpoint run (es : list event) (s : state) : state * list effect :=
  match es with
  | [] => (s, [])
  | e :: es' =>
      let (s1, effs1) := step e s in
      let (s2, effs2) := run es' s1 in
      (s2, effs1 ++ effs2)
  end.

(** [a >= b]; any comparison with NaN is false. *)
Definition ge (a b : number) : bool :=
  match a, b with
  | NaN, _ | _, NaN => false
  | PosInf, _ => true
  | _, NegInf => true
  | NegInf, _ => false
  | Fin _, PosInf => false
  | Fin x, Fin y => Qle_bool y x
  end.

(** [x || 0] on a number: NaN and zero are falsy. *)
Definition or_zero (x : number) : number :=
  match x with
  | NaN => Fin 0
  | Fin q => if (Qnum q =? 0)%Z then Fin 0 else Fin q
  | _ => x
  end.

(** The literals of [getScoreColor] as the doubles they denote. *)
Definition d0_05 : Q := 3602879701896397 # 72057594037927936.
Definition d0_10 : Q := 3602879701896397 # 36028797018963968.
Definition d0_20 : Q := 3602879701896397 # 18014398509481984.

(** [getScoreColor(score, isWER)]. *)
Definition getScoreColor (score : number) (isWER : bool) : string :=
  if isWER then
    if lt score (Fin d0_05) then "text-green-600"
    else if lt score (Fin d0_10) then "text-blue-600"
    else if lt score (Fin d0_20) then "text-yellow-600"
    else "text-red-600"
  else
    if ge score (Fin 80) || ge score (Fin (9 # 2)) then "text-green-600"
    else if ge score (Fin 60) || ge score (Fin 4) then "text-blue-600"
    else if ge score (Fin 40) || ge score (Fin (7 # 2)) then "text-yellow-600"
    else "text-red-600".

(** How good a colour is: green, blue, yellow, red. *)
Definition grade (colour : string) : nat :=
  if String.eqb colour "text-green-600" then 3
  else if String.eqb colour "text-blue-600" then 2
  else if String.eqb colour "text-yellow-600" then 1
  else 0.

(** The order of two numbers that are not NaN. *)
Definition le (a b : number) : Prop :=
  match a, b with
  | NaN, _ | _, NaN => False
  | NegInf, _ => True
  | _, PosInf => True
  | Fin x, Fin y => (x <= y)%Q
  | _, _ => False
  end.

(** Whether a response body reports success. *)
Definition reports_success (net : fetch_outcome response_body) : bool :=
  match net with
  | fetch_resolves _ (json_ok data) => success data
  | _ => false
  end.

(** The alerts among some effects. *)
Fixpoint alerts (effs : list effect) : list string :=
  match effs with
  | [] => []
  | alert message :: rest => message :: alerts rest
  | _ :: rest => alerts rest
  end.

End Metrics.

(* ===================================================================== *)
(** * More of the display: events on objects that are not current *)
(* ===================================================================== *)

Module PlaybackRuns.
Import Common Playback.
Local Open Scope nat_scope.

Section WithAudio.
Variable Audio_throws : string -> bool.

(** Whether an [error] event reaches an object of [playAudio] that
    [audioRef] does not name. *)
Definition stale_manual_error (e : event) (s : state) : bool :=
  match e with
  | errored id =>
      match nth_error (audios s) id with
      | Some {| installed := manual_handlers |} =>
          match audioRef s with
          | Some current => negb (Nat.eqb current id)
          | None => false
          end
      | _ => false
      end
  | _ => false
  end.

(** A run without such an event. *)
Fixpoint timely (es : list event) (s : state) : bool :=
  match es with
  | [] => true
  | e :: rest =>
      negb (stale_manual_error e s) && timely rest (step Audio_throws e s)
  end.

(** Playback whose every [play()] is rejected, as a browser does that
    blocks autoplay: as long as the consumer is running, the promise of
    the current object rejects, [n] times at most. *)
Fixpoint blocked (n : nat) (s : state) : state :=
  match n with
  | O => s
  | S n' =>
      if isPlayingQueueRef s then
        match audioRef s with
        | Some id => blocked n' (step Audio_throws (play_rejected id) s)
        | None => s
        end
      else s
  end.

End WithAudio.

(** The entry of the latest result, [results[results.length - 1]] with its
    index; none for an empty array. *)
Definition latest_entry (rs : list TranslationResult) : list entry :=
  match nth_error rs (pred (List.length rs)) with
  | Some latestResult => [(audio_base64 latestResult, pred (List.length rs))]
  | None => []
  end.

(** While the consumer is running, the card that is marked as playing is
    the card of the result that is heard: [playingIndex] is the index of
    the entry handed out last, the current object plays that entry's audio,
    and the result at that index is the one the audio belongs to. *)
Definition marks_what_plays (s : state) : Prop :=
  isPlayingQueueRef s = true ->
  exists x i id r earlier,
    dequeued s = earlier ++ [(x, i)] /\
    playingIndex s = Some i /\
    audioRef s = Some id /\
    nth_error (audios s) id
    = Some {| src := data_url x; playing := true; installed := queue_handlers |} /\
    nth_error (results s) i = Some r /\ audio_base64 r = x.

(** The objects on which [play()] was called. *)
Fixpoint played (l : list action) : list nat :=
  match l with
  | [] => []
  | act_play id :: rest => id :: played rest
  | _ :: rest => played rest
  end.

(** The [console.error] lines of the display. *)
Fixpoint error_lines (l : list action) : list string :=
  match l with
  | [] => []
  | act_error what :: rest => what :: error_lines rest
  | _ :: rest => error_lines rest
  end.

End PlaybackRuns.

(* ===================================================================== *)
(** * More sample inputs *)
(* ===================================================================== *)

Module Samples.
Import JS Common.

(** A recorder in batch mode whose socket is connected. *)
Definition batch_idle : Recorder.state :=
  RecorderComponent.setMode Recorder.batch Examples.connected_idle.

(** Two pieces of recorded audio. *)
Definition piece1 : Blob := ["082"%byte; "073"%byte].
Definition piece2 : Blob := ["070"%byte].

(** A request that fails on the network. *)
Definition offline : fetch_outcome translate_body :=
  fetch_rejects (Error "Failed to fetch").

(** A proxy answers 502 with an HTML page: [response.json()] throws the
    parser's [SyntaxError]. *)
Definition bad_gateway : fetch_outcome translate_body :=
  fetch_resolves 502
    (json_throws (Error "Unexpected token < in JSON at position 0")).

(** The request is aborted with an error that carries no message. *)
Definition aborted_silently : fetch_outcome translate_body :=
  fetch_rejects (Error "").

(** The backend refuses and says why. *)
Definition refused : fetch_outcome translate_body :=
  fetch_resolves 500 (json_ok (body_failure (Some "Model not loaded"%string))).

(** A success status with the JSON value [null] as body. *)
Definition null_body : fetch_outcome translate_body :=
  fetch_resolves 200
    (json_ok (body_null "Cannot read properties of null (reading 'success')")).

(** A summary of the evaluation routes, and a panel that shows it with
    auto-refresh on. *)
Definition a_summary : Metrics.EvaluationSummary :=
  {| Metrics.asr := {| Metrics.avg_wer := Fin (1 # 10); Metrics.avg_cer := Fin (1 # 20);
                       Metrics.asr_total_samples := Fin 3;
                       Metrics.asr_interpretation := "Good" |};
     Metrics.mt := {| Metrics.avg_bleu := Fin 42; Metrics.mt_total_samples := Fin 3;
                      Metrics.mt_interpretation := "Fair" |};
     Metrics.tts := {| Metrics.avg_mos := Fin 4; Metrics.tts_total_samples := Fin 3;
                       Metrics.tts_interpretation := "Good" |};
     Metrics.overall_quality := {| Metrics.score := Fin 70;
                                   Metrics.interpretation := "Good" |} |}.

Definition refreshing_panel : Metrics.state :=
  {| Metrics.summary := Some a_summary; Metrics.loading := false;
     Metrics.error := EmptyString; Metrics.autoRefresh := true |}.

Definition reset_done : fetch_outcome Metrics.response_body :=
  fetch_resolves 200 (json_ok {| Metrics.success := true;
                                 Metrics.summary_field := None |}).

Definition summary_served : fetch_outcome Metrics.response_body :=
  fetch_resolves 200 (json_ok {| Metrics.success := true;
                                 Metrics.summary_field := Some a_summary |}).

End Samples.

(* ===================================================================== *)
(** * Properties of the sample encoder *)
(* ===================================================================== *)

Section EncoderFacts.
Import JS Encoder Design.

Lemma Qle_bool_false_lt x y : Qle_bool x y = false -> y < x.
Proof.
  intros H. apply Qnot_le_lt. intros L. apply Qle_bool_iff in L. congruence.
Qed.

Lemma Math_min_Qmin x y : Math_min (Fin x) (Fin y) = Fin (Qmin x y).
Proof.
  simpl. unfold Qmin, GenericMinMax.gmin.
  destruct (Qle_bool x y) eqn:E; destruct (Qcompare x y) eqn:C; try reflexivity; exfalso.
  - apply Qle_bool_iff in E. apply Qgt_alt in C. exact (Qlt_not_le _ _ C E).
  - apply Qle_bool_false_lt in E. apply Qeq_alt in C.
    rewrite C in E. exact (Qlt_irrefl _ E).
  - apply Qle_bool_false_lt in E. apply Qlt_alt in C.
    exact (Qlt_irrefl _ (Qlt_trans _ _ _ E C)).
Qed.

Lemma Math_max_Qmax x y : Math_max (Fin x) (Fin y) = Fin (Qmax x y).
Proof.
  simpl. unfold Qmax, GenericMinMax.gmax.
  destruct (Qle_bool y x) eqn:E; destruct (Qcompare x y) eqn:C; try reflexivity; exfalso.
  - apply Qle_bool_iff in E. apply Qlt_alt in C. exact (Qlt_not_le _ _ C E).
  - apply Qle_bool_false_lt in E. apply Qeq_alt in C.
    rewrite C in E. exact (Qlt_irrefl _ E).
  - apply Qle_bool_false_lt in E. apply Qgt_alt in C.
    exact (Qlt_irrefl _ (Qlt_trans _ _ _ E C)).
Qed.

Lemma lt_zero c : lt (Fin c) (Fin (inject_Z 0)) = if Qlt_le_dec c 0 then true else false.
Proof.
  simpl. destruct (Qlt_le_dec c 0) as [L|L].
  - destruct (Qle_bool (inject_Z 0) c) eqn:E; [|reflexivity].
    apply Qle_bool_iff in E. exfalso. apply (Qlt_not_le _ _ L E).
  - apply Qle_bool_iff in L. change (inject_Z 0) with 0. rewrite L. reflexivity.
Qed.

Lemma clamp_range q : inject_Z (-1) <= clamp q /\ clamp q <= inject_Z 1.
Proof.
  unfold clamp. split.
  - apply Q.le_max_l.
  - apply Q.max_lub. discriminate. apply Q.le_min_l.
Qed.

Lemma Qtrunc_scale_range c :
  inject_Z (-1) <= c -> c <= inject_Z 1 ->
  (-32768 <= Qtrunc (scale c) <= 32767)%Z.
Proof.
  destruct c as [n d]. unfold Qle, scale, Qtrunc. simpl. intros Hlo Hhi.
  destruct (Qlt_le_dec (n # d) 0) as [L|L]; unfold Qlt, Qle in L; simpl in *.
  - pose proof (Pos2Z.is_pos d).
    zify; Z.to_euclidean_division_equations; nia.
  - pose proof (Pos2Z.is_pos d).
    zify; Z.to_euclidean_division_equations; nia.
Qed.

Lemma wrap16_id z : (-32768 <= z <= 32767)%Z -> wrap16 z = z.
Proof. unfold wrap16. intros. div_lia. Qed.

Lemma quantize_refines q : quantize (Fin q) = quantize_spec q.
Proof.
  unfold quantize, quantize_spec.
  rewrite Math_min_Qmin, Math_max_Qmax. fold (clamp q).
  rewrite lt_zero. unfold scale.
  pose proof (clamp_range q) as [Hlo Hhi].
  pose proof (Qtrunc_scale_range (clamp q) Hlo Hhi) as R. unfold scale in R.
  destruct (Qlt_le_dec (clamp q) 0); simpl; apply wrap16_id; exact R.
Qed.

Lemma quantize_spec_range q : (-32768 <= quantize_spec q <= 32767)%Z.
Proof.
  unfold quantize_spec. destruct (clamp_range q). now apply Qtrunc_scale_range.
Qed.

Lemma quantize_range s : (-32768 <= quantize s <= 32767)%Z.
Proof.
  destruct s as [q| | |].
  - rewrite quantize_refines. apply quantize_spec_range.
  - vm_compute. split; discriminate.
  - vm_compute. split; discriminate.
  - vm_compute. split; discriminate.
Qed.

Lemma Qtrunc_integer q z : q == inject_Z z -> Qtrunc q = z.
Proof.
  destruct q as [n d]. unfold Qeq, Qtrunc. simpl. intros H.
  rewrite Z.mul_1_r in H. subst n. apply Z.quot_mul. discriminate.
Qed.

Lemma Qtrunc_toward_zero q :
  (0 <= q -> inject_Z (Qtrunc q) <= q /\ q < inject_Z (Qtrunc q + 1)) /\
  (q <= 0 -> inject_Z (Qtrunc q - 1) < q /\ q <= inject_Z (Qtrunc q)).
Proof.
  destruct q as [n d]. unfold Qle, Qlt, Qtrunc. simpl.
  pose proof (Pos2Z.is_pos d).
  split; intros; split; zify; Z.to_euclidean_division_equations; nia.
Qed.

Lemma quantize_zero q : q == 0 -> quantize (Fin q) = 0%Z.
Proof.
  intros H. rewrite quantize_refines. unfold quantize_spec.
  apply Qtrunc_integer.
  assert (C : clamp q == 0).
  { unfold clamp. rewrite H. reflexivity. }
  unfold scale. destruct (Qlt_le_dec (clamp q) 0); rewrite C; reflexivity.
Qed.

Lemma quantize_one q : q == 1 -> quantize (Fin q) = 32767%Z.
Proof.
  intros H. rewrite quantize_refines. unfold quantize_spec.
  apply Qtrunc_integer.
  assert (C : clamp q == 1).
  { unfold clamp. rewrite H. reflexivity. }
  unfold scale. destruct (Qlt_le_dec (clamp q) 0) as [L|L].
  - rewrite C in L. discriminate L.
  - rewrite C. reflexivity.
Qed.

Lemma quantize_minus_one q : q == inject_Z (-1) -> quantize (Fin q) = (-32768)%Z.
Proof.
  intros H. rewrite quantize_refines. unfold quantize_spec.
  apply Qtrunc_integer.
  assert (C : clamp q == inject_Z (-1)).
  { unfold clamp. rewrite H. reflexivity. }
  unfold scale. destruct (Qlt_le_dec (clamp q) 0) as [L|L].
  - rewrite C. reflexivity.
  - rewrite C in L. exfalso. apply L. reflexivity.
Qed.

(** C2. Quantization of a float sample to 16 bits clamps the sample to
    [-1, 1], multiplies a negative value by 32768 and any other value by
    32767, and truncates the product toward zero.  The output is always in
    [-32768, 32767] (also for infinities and NaN); 0 maps to 0, 1.0 to
    32767 and -1.0 to -32768. *)
Theorem quantization_rule :
  (forall q, quantize (Fin q) = quantize_spec q) /\
  (forall s, (-32768 <= quantize s <= 32767)%Z) /\
  (forall q, q == 0 -> quantize (Fin q) = 0%Z) /\
  (forall q, q == 1 -> quantize (Fin q) = 32767%Z) /\
  (forall q, q == inject_Z (-1) -> quantize (Fin q) = (-32768)%Z).
Proof.
  split; [exact quantize_refines|]. split; [exact quantize_range|].
  split; [exact quantize_zero|]. split; [exact quantize_one|].
  exact quantize_minus_one.
Qed.

Lemma quantization_rule_witness :
  quantize (Fin (0 # 5)) = 0%Z /\ quantize (Fin (2 # 2)) = 32767%Z /\
  quantize (Fin (-3 # 3)) = (-32768)%Z.
Proof.
  destruct quantization_rule as (_ & _ & H0 & H1 & Hm).
  split; [apply H0; reflexivity|].
  split; [apply H1; reflexivity|apply Hm; reflexivity].
Defined.

Section Base64.
Local Open Scope N_scope.

Ltac split_leb :=
  repeat match goal with
  | |- context [N.leb ?a ?b] => destruct (N.leb_spec a b); try lia
  | |- context [N.ltb ?a ?b] => destruct (N.ltb_spec a b); try lia
  | |- context [N.eqb ?a ?b] => destruct (N.eqb_spec a b); try lia
  end.

Lemma b64val_b64char n : n < 64 -> b64val (b64char n) = Some n.
Proof.
  intros H. unfold b64char.
  destruct (N.ltb_spec n 26); [|destruct (N.ltb_spec n 52); [|destruct (N.ltb_spec n 62)]].
  - unfold b64val. rewrite N_ascii_embedding by lia. split_leb; cbn [andb]; f_equal; lia.
  - unfold b64val. rewrite N_ascii_embedding by lia. split_leb; cbn [andb]; f_equal; lia.
  - unfold b64val. rewrite N_ascii_embedding by lia. split_leb; cbn [andb]; f_equal; lia.
  - destruct (N.eqb_spec n 62) as [->|Hn]; [reflexivity|].
    assert (n = 63) as -> by lia. reflexivity.
Qed.

Lemma b64char_not_pad n : n < 64 -> is_pad (b64char n) = false.
Proof.
  intros H. unfold is_pad. apply Ascii.eqb_neq. intros E.
  pose proof (b64val_b64char n H) as V. rewrite E in V. discriminate V.
Qed.

Lemma atob_quad c1 c2 c3 c4 rest :
  atob (String c1 (String c2 (String c3 (String c4 rest)))) =
  match b64val c1, b64val c2 with
  | Some v1, Some v2 =>
      let b1 := ascii_of_N (v1 * 4 + v2 / 16) in
      if is_pad c3 then
        if is_pad c4 then
          match rest with
          | EmptyString => Some (String b1 EmptyString)
          | _ => None
          end
        else None
      else
        match b64val c3 with
        | Some v3 =>
            let b2 := ascii_of_N ((v2 mod 16) * 16 + v3 / 4) in
            if is_pad c4 then
              match rest with
              | EmptyString => Some (String b1 (String b2 EmptyString))
              | _ => None
              end
            else
              match b64val c4 with
              | Some v4 =>
                  let b3 := ascii_of_N ((v3 mod 4) * 64 + v4) in
                  match atob rest with
                  | Some t => Some (String b1 (String b2 (String b3 t)))
                  | None => None
                  end
              | None => None
              end
        | None => None
        end
  | _, _ => None
  end.
Proof. reflexivity. Qed.

Lemma pad_is_pad : is_pad pad = true.
Proof. reflexivity. Qed.

Lemma ascii_of_N_eq a n : n = N_of_ascii a -> ascii_of_N n = a.
Proof. intros ->. apply ascii_N_embedding. Qed.

Lemma atob_btoa_bounded n : forall s, (String.length s <= n)%nat -> atob (btoa s) = Some s.
Proof.
  induction n as [n IH] using lt_wf_ind. intros s Hs.
  destruct s as [|a [|b [|c rest]]].
  - reflexivity.
  - pose proof (N_ascii_bounded a).
    cbn [btoa]. cbv zeta. rewrite atob_quad.
    rewrite !b64val_b64char by div_lia. cbv zeta.
    rewrite pad_is_pad. f_equal. f_equal. apply ascii_of_N_eq. div_lia.
  - pose proof (N_ascii_bounded a). pose proof (N_ascii_bounded b).
    cbn [btoa]. cbv zeta. rewrite atob_quad.
    rewrite !b64val_b64char by div_lia. cbv zeta.
    rewrite b64char_not_pad by div_lia. rewrite pad_is_pad.
    f_equal. f_equal; [|f_equal]; apply ascii_of_N_eq; div_lia.
  - pose proof (N_ascii_bounded a). pose proof (N_ascii_bounded b).
    pose proof (N_ascii_bounded c).
    cbn [btoa]. cbv zeta. rewrite atob_quad.
    rewrite !b64val_b64char by div_lia. cbv zeta.
    rewrite !b64char_not_pad by div_lia.
    rewrite (IH (String.length rest)); [| simpl in Hs; lia | lia].
    f_equal. f_equal; [|f_equal; [|f_equal]]; apply ascii_of_N_eq; div_lia.
Qed.

Lemma atob_btoa s : atob (btoa s) = Some s.
Proof. apply (atob_btoa_bounded (String.length s)). lia. Qed.

End Base64.

Lemma append_empty_r s : String.append s EmptyString = s.
Proof. induction s; simpl; congruence. Qed.

Lemma append_assoc s1 s2 s3 :
  String.append (String.append s1 s2) s3 = String.append s1 (String.append s2 s3).
Proof. induction s1; simpl; congruence. Qed.

Lemma fromCharCode_apply_app l1 l2 :
  fromCharCode_apply (l1 ++ l2) =
  String.append (fromCharCode_apply l1) (fromCharCode_apply l2).
Proof.
  unfold fromCharCode_apply. induction l1; simpl; congruence.
Qed.

Lemma subarray_window {A} (l : list A) i w :
  subarray l i (Nat.min (i + w) (List.length l)) = firstn w (skipn i l).
Proof.
  unfold subarray.
  destruct (Nat.le_gt_cases (i + w) (List.length l)) as [H|H].
  - rewrite Nat.min_l by exact H. f_equal. lia.
  - rewrite Nat.min_r by lia.
    rewrite !firstn_all2; try reflexivity; rewrite length_skipn; lia.
Qed.

Lemma chunkSize_pos : (0 < chunkSize)%nat.
Proof. unfold chunkSize. lia. Qed.

Lemma binaryLoop_returns bytes :
  forall fuel i binary,
    (List.length bytes - i <= fuel)%nat ->
    binaryLoop fuel bytes i binary =
    Some (String.append binary (fromCharCode_apply (skipn i bytes))).
Proof.
  pose proof chunkSize_pos as Hw.
  induction fuel as [|fuel IH]; intros i binary Hf.
  - simpl. destruct (Nat.ltb_spec i (List.length bytes)); [lia|].
    rewrite skipn_all2 by lia. cbn. now rewrite append_empty_r.
  - cbn [binaryLoop]. destruct (Nat.ltb_spec i (List.length bytes)).
    + cbv zeta. rewrite IH by lia. rewrite subarray_window, append_assoc.
      rewrite <- fromCharCode_apply_app.
      rewrite <- (Nat.add_comm chunkSize i), <- skipn_skipn, firstn_skipn.
      reflexivity.
    + rewrite skipn_all2 by lia. cbn. now rewrite append_empty_r.
Qed.

Lemma encode_whole bytes :
  encode bytes = Some (btoa (fromCharCode_apply bytes)).
Proof.
  unfold encode. rewrite (binaryLoop_returns bytes) by lia.
  reflexivity.
Qed.

Lemma bytes_of_binary bytes :
  map byte_of_ascii (list_ascii_of_string (fromCharCode_apply bytes)) = bytes.
Proof.
  unfold fromCharCode_apply. rewrite list_ascii_of_string_of_list_ascii.
  rewrite map_map. unfold fromCharCode.
  induction bytes as [|b l IH]; simpl; [reflexivity|].
  now rewrite byte_of_ascii_of_byte, IH.
Qed.

Lemma encode_then_decode (B : list byte) :
  encode B = Some (btoa (fromCharCode_apply B)) /\
  decode (btoa (fromCharCode_apply B)) = Some B.
Proof.
  split.
  - apply encode_whole.
  - unfold decode. rewrite atob_btoa. now rewrite bytes_of_binary.
Qed.

(** C3. For every byte sequence B, the windowed loop (8192 bytes per
    window) followed by [btoa] returns a text, and decoding that text gives
    B back, whatever the length of B is with respect to the window. *)
Theorem base64_round_trip (B : list byte) :
  exists text, encode B = Some text /\ decode text = Some B.
Proof.
  exists (btoa (fromCharCode_apply B)). apply encode_then_decode.
Qed.

End EncoderFacts.

(* ===================================================================== *)
(** * Properties of the chunker *)
(* ===================================================================== *)

Section ChunkerFacts.
Import JS Encoder Common Recorder.
Local Open Scope nat_scope.

Lemma to_N_byte_of_ascii a : Byte.to_N (byte_of_ascii a) = N_of_ascii a.
Proof.
  pose proof (ascii_of_byte_via_N (byte_of_ascii a)) as H.
  rewrite ascii_of_byte_of_ascii in H.
  rewrite H at 2. rewrite N_ascii_embedding; [reflexivity|].
  pose proof (Byte.to_N_bounded (byte_of_ascii a)). lia.
Qed.

Lemma Z_of_byte_of_Z z : Z_of_byte (byte_of_Z z) = (z mod 256)%Z.
Proof.
  unfold Z_of_byte, byte_of_Z. rewrite to_N_byte_of_ascii.
  rewrite N_ascii_embedding; [|div_lia]. div_lia.
Qed.

Lemma Int16_bytes_round_trip a :
  Forall (fun v => (-32768 <= v <= 32767)%Z) a ->
  Int16_of_Uint8Array (Uint8Array_of_Int16 a) = a.
Proof.
  induction 1 as [|v l Hv Hl IH]; [reflexivity|].
  cbn [Uint8Array_of_Int16 flat_map app Int16_of_Uint8Array].
  fold (Uint8Array_of_Int16 l). rewrite IH. f_equal.
  rewrite !Z_of_byte_of_Z. unfold wrap16. div_lia.
Qed.

Lemma Uint8Array_of_Int16_length a :
  List.length (Uint8Array_of_Int16 a) = 2 * List.length a.
Proof.
  induction a as [|v l IH]; [reflexivity|].
  cbn [Uint8Array_of_Int16 flat_map app List.length].
  fold (Uint8Array_of_Int16 l). lia.
Qed.

Lemma int16Array_in_range combined :
  Forall (fun v => (-32768 <= v <= 32767)%Z) (int16Array combined).
Proof.
  unfold int16Array. apply Forall_map, Forall_forall. intros s _.
  apply quantize_range.
Qed.

Lemma decode_encodeSamples combined :
  exists text, encodeSamples combined = Some text /\
               decodeSamples text = Some (int16Array combined).
Proof.
  unfold encodeSamples.
  destruct (encode_then_decode (Uint8Array_of_Int16 (int16Array combined)))
    as (He & Hd).
  eexists. split; [exact He|].
  unfold decodeSamples. rewrite Hd.
  now rewrite Int16_bytes_round_trip by apply int16Array_in_range.
Qed.

Lemma totalSamples_from (ab : list (list number)) : forall n,
  fold_left (fun sum arr => sum + List.length arr) ab n
  = n + List.length (List.concat ab).
Proof.
  induction ab as [|a ab IH]; intros n; simpl; [lia|].
  rewrite IH, length_app. lia.
Qed.

Lemma totalSamples_concat ab : totalSamples ab = List.length (List.concat ab).
Proof. unfold totalSamples. now rewrite totalSamples_from. Qed.

Lemma skipn_repeat {A} (x : A) k n : skipn k (repeat x n) = repeat x (n - k).
Proof.
  revert n. induction k as [|k IH]; intros n.
  - now rewrite Nat.sub_0_r.
  - destruct n; simpl; [reflexivity|apply IH].
Qed.

Lemma set_at_fresh done buf z rem :
  List.length buf <= rem ->
  set_at (done ++ repeat z rem) buf (List.length done)
  = (done ++ buf) ++ repeat z (rem - List.length buf).
Proof.
  intros H. unfold set_at.
  rewrite firstn_app, firstn_all, Nat.sub_diag. simpl. rewrite app_nil_r.
  rewrite skipn_app, skipn_all2 by lia. simpl.
  replace (List.length done + List.length buf - List.length done)
    with (List.length buf) by lia.
  now rewrite skipn_repeat, <- app_assoc.
Qed.

Lemma combine_fold z bufs : forall done rem,
  List.length (List.concat bufs) <= rem ->
  fst (fold_left
         (fun (acc : list number * nat) buf =>
            (set_at (fst acc) buf (snd acc), snd acc + List.length buf))
         bufs (done ++ repeat z rem, List.length done))
  = done ++ List.concat bufs ++ repeat z (rem - List.length (List.concat bufs)).
Proof.
  induction bufs as [|b bufs IH]; intros done rem H.
  - simpl. now rewrite Nat.sub_0_r.
  - simpl in H. rewrite length_app in H.
    cbn [fold_left fst snd]. rewrite set_at_fresh by lia.
    rewrite <- length_app. rewrite IH by lia.
    simpl. rewrite length_app, <- !app_assoc.
    now rewrite Nat.sub_add_distr.
Qed.

Lemma combine_concat ab : combine ab (totalSamples ab) = List.concat ab.
Proof.
  unfold combine. rewrite totalSamples_concat.
  pose proof (combine_fold (Fin 0%Q) ab [] _ (Nat.le_refl _)) as H.
  simpl in H. rewrite H, Nat.sub_diag. simpl. now rewrite app_nil_r.
Qed.

Lemma emitted_chunks_app e1 e2 :
  emitted_chunks (e1 ++ e2) = emitted_chunks e1 ++ emitted_chunks e2.
Proof.
  induction e1 as [|e l IH]; [reflexivity|].
  destruct e; simpl; rewrite IH; reflexivity.
Qed.

Lemma emitted_samples_app e1 e2 :
  emitted_samples (e1 ++ e2) = emitted_samples e1 ++ emitted_samples e2.
Proof. unfold emitted_samples. now rewrite emitted_chunks_app, flat_map_app. Qed.

Lemma emitted_sample_count_length effs :
  emitted_sample_count effs = List.length (emitted_samples effs).
Proof.
  unfold emitted_sample_count, emitted_samples.
  induction (emitted_chunks effs) as [|c l IH]; [reflexivity|].
  simpl. rewrite length_app, IH. destruct c; reflexivity.
Qed.

Lemma int16Array_length l : List.length (int16Array l) = List.length l.
Proof. apply length_map. Qed.

Lemma int16Array_app l1 l2 : int16Array (l1 ++ l2) = int16Array l1 ++ int16Array l2.
Proof. apply map_app. Qed.

(** One frame, socket connected. *)
Lemma onaudioprocess_connected f c :
  let T := samplesPerChunk (sampleRate c) in
  let all := List.concat (audioBuffer c) ++ f in
  let (c', effs) := onaudioprocess true f c in
  sampleRate c' = sampleRate c /\
  ((T <= Z.of_nat (List.length all))%Z /\ audioBuffer c' = [] /\
   emitted_chunks effs = [Some (int16Array all)]
   \/
   (Z.of_nat (List.length all) < T)%Z /\ List.concat (audioBuffer c') = all /\
   emitted_chunks effs = []).
Proof.
  intros T all. unfold onaudioprocess.
  assert (Hall : List.concat (audioBuffer c ++ [f]) = all).
  { rewrite concat_app. simpl. now rewrite app_nil_r. }
  rewrite totalSamples_concat, Hall.
  fold T. destruct (Z.leb_spec T (Z.of_nat (List.length all))) as [H|H].
  - rewrite <- Hall at 2. rewrite <- totalSamples_concat, combine_concat, Hall.
    destruct (decode_encodeSamples all) as (text & He & Hd). rewrite He.
    split; [reflexivity|]. left. split; [exact H|]. split; [reflexivity|].
    simpl. now rewrite Hd.
  - split; [reflexivity|]. right. split; [exact H|]. split; [exact Hall|reflexivity].
Qed.

Lemma frame_step sr f s :
  streaming sr s ->
  let T := samplesPerChunk sr in
  let all := buffered s ++ f in
  let (s', effs) := step (frame f) s in
  mode s' = mode s /\ socket_connected s' = true /\
  (exists c', audioProcessor s' = Some c' /\ sampleRate c' = sr) /\
  ((T <= Z.of_nat (List.length all))%Z /\ buffered s' = [] /\
   emitted_chunks effs = [Some (int16Array all)]
   \/
   (Z.of_nat (List.length all) < T)%Z /\ buffered s' = all /\
   emitted_chunks effs = []).
Proof.
  intros (Hc & (c & Hp & Hsr) & Hb) T all.
  unfold step, audioprocess_event. rewrite Hp, Hc.
  pose proof (onaudioprocess_connected f c) as H. cbv zeta in H.
  destruct (onaudioprocess true f c) as [c' effs]. destruct H as (Hsr' & H).
  rewrite Hsr in *. fold T in H.
  assert (Hall : List.concat (audioBuffer c) ++ f = all).
  { unfold all, buffered. now rewrite Hp. }
  rewrite Hall in H. unfold buffered. cbn [audioProcessor mode socket_connected].
  split; [reflexivity|]. split; [reflexivity|]. split; [now exists c'|].
  destruct H as [(H1 & H2 & H3)|(H1 & H2 & H3)].
  - left. rewrite H2. auto.
  - right. auto.
Qed.

Lemma frames_run sr F frames : forall s,
  (0 < samplesPerChunk sr)%Z ->
  Forall (fun f : list number => List.length f = F) frames ->
  streaming sr s ->
  let T := samplesPerChunk sr in
  let (s', effs) := run (map frame frames) s in
  mode s' = mode s /\ streaming sr s' /\
  emitted_samples effs ++ int16Array (buffered s')
    = int16Array (buffered s ++ List.concat frames) /\
  Forall (fun ch => (T <= Z.of_nat (chunk_size ch) < T + Z.of_nat F)%Z)
         (emitted_chunks effs).
Proof.
  induction frames as [|f frames IH]; intros s HT HF Hs T.
  - simpl. rewrite app_nil_r. repeat split; auto; apply Hs.
  - inversion HF as [|? ? Hf HF']; subst.
    cbn [map run].
    pose proof (frame_step sr f s Hs) as H1. cbv zeta in H1.
    destruct (step (frame f) s) as [s1 effs1].
    destruct H1 as (Hm1 & Hc1 & Hp1 & Hcase).
    assert (Hs1 : streaming sr s1).
    { split; [exact Hc1|]. split; [exact Hp1|].
      destruct Hcase as [(_ & -> & _)|(Hlt & -> & _)]; [simpl; lia|exact Hlt]. }
    specialize (IH s1 HT HF' Hs1). cbv zeta in IH.
    destruct (run (map frame frames) s1) as [s2 effs2].
    destruct IH as (Hm2 & Hs2 & Hsamples & Hsizes).
    split; [congruence|]. split; [exact Hs2|].
    rewrite emitted_samples_app, emitted_chunks_app.
    destruct Hs as (_ & _ & Hb).
    destruct Hcase as [(Hge & Hb1 & He1)|(Hlt & Hb1 & He1)].
    + split.
      * rewrite <- app_assoc, Hsamples, Hb1. unfold emitted_samples. rewrite He1.
        simpl. rewrite app_nil_r. cbn [List.concat].
        now rewrite <- int16Array_app, <- app_assoc.
      * apply Forall_app. split; [|exact Hsizes].
        rewrite He1. constructor; [|constructor].
        cbn [chunk_size]. rewrite int16Array_length.
        rewrite length_app in *. fold T in Hb. lia.
    + split.
      * rewrite <- app_assoc, Hsamples, Hb1. unfold emitted_samples. rewrite He1.
        simpl. now rewrite <- app_assoc.
      * apply Forall_app. split; [|exact Hsizes]. rewrite He1. constructor.
Qed.

Lemma concat_equal_frames {A} F (frames : list (list A)) :
  Forall (fun f => List.length f = F) frames ->
  List.length (List.concat frames) = List.length frames * F.
Proof.
  induction 1 as [|f l Hf Hl IH]; [reflexivity|].
  simpl. rewrite length_app, IH, Hf. reflexivity.
Qed.

(** C1, as the code has it.  In a streaming session whose socket stays
    connected and whose N frames have F samples each, with a positive
    threshold T = floor(2.0 * sampleRate): the samples of the emitted
    chunks followed by the samples left in the accumulation buffer when the
    session is stopped are the captured samples, quantized, in order, so
    the emitted count plus the count left in the buffer is N * F; every
    emitted chunk has at least T and fewer than T + F samples; fewer than T
    samples are left; stopping sends [stop_translation] only, no chunk,
    and drops the processor with its buffer. *)
Theorem chunk_accounting p sr F frames s :
  mode s = realtime -> socket_connected s = true ->
  (0 < samplesPerChunk sr)%Z ->
  Forall (fun f : list number => List.length f = F) frames ->
  let T := samplesPerChunk sr in
  let r := session p (mic_resolves sr) (map frame frames) s in
  emitted_sample_count (session_effects r) + List.length (buffered (before_stop r))
    = List.length frames * F /\
  emitted_samples (session_effects r) ++ int16Array (buffered (before_stop r))
    = int16Array (List.concat frames) /\
  Forall (fun ch => (T <= Z.of_nat (chunk_size ch) < T + Z.of_nat F)%Z)
         (emitted_chunks (session_effects r)) /\
  (Z.of_nat (List.length (buffered (before_stop r))) < T)%Z /\
  stop_effects r = [emit_stop_translation] /\
  audioProcessor (after_stop r) = None.
Proof.
  intros Hm Hc HT HF T r.
  unfold r, session. unfold startRecording. rewrite Hm, Hc.
  match goal with |- context [run _ ?s1] => set (s1' := s1) end.
  assert (Hs1 : streaming sr s1').
  { split; [reflexivity|]. split; [eexists; split; reflexivity|]. simpl. exact HT. }
  pose proof (frames_run sr F frames s1' HT HF Hs1) as H. cbv zeta in H.
  destruct (run (map frame frames) s1') as [s2 effs2].
  destruct H as (Hm2 & Hs2 & Hsamples & Hsizes).
  assert (Hstop : snd (stopRecording s2) = [emit_stop_translation]).
  { unfold stopRecording. cbn [snd]. destruct Hs2 as (-> & _).
    rewrite Hm2. reflexivity. }
  destruct (stopRecording s2) as [s3 effs3] eqn:E3. cbn [snd] in Hstop. subst effs3.
  unfold session_effects.
  cbn [before_stop after_stop start_effects recording_effects stop_effects].
  assert (Hsamples' :
    emitted_samples ([getUserMedia; console_log "Starting real-time translation...";
                      emit_start_translation (sourceLang p) (targetLang p)]
                     ++ effs2 ++ [emit_stop_translation])
    = emitted_samples effs2).
  { rewrite !emitted_samples_app. unfold emitted_samples at 1 3. simpl.
    now rewrite app_nil_r. }
  assert (Hchunks :
    emitted_chunks ([getUserMedia; console_log "Starting real-time translation...";
                     emit_start_translation (sourceLang p) (targetLang p)]
                    ++ effs2 ++ [emit_stop_translation])
    = emitted_chunks effs2).
  { rewrite !emitted_chunks_app. simpl. now rewrite app_nil_r. }
  assert (Hb0 : buffered s1' = []) by reflexivity.
  rewrite Hb0 in Hsamples. cbn [app] in Hsamples.
  split; [|split; [|split; [|split; [|split]]]].
  - rewrite emitted_sample_count_length, Hsamples'.
    rewrite <- (int16Array_length (buffered s2)), <- length_app, Hsamples.
    rewrite int16Array_length. now apply concat_equal_frames.
  - now rewrite Hsamples'.
  - now rewrite Hchunks.
  - apply Hs2.
  - reflexivity.
  - unfold stopRecording in E3. injection E3 as <- _. reflexivity.
Qed.

Import Examples.

Lemma chunk_accounting_witness :
  let frames := repeat silence_frame 2 in
  let r := session a_props (mic_resolves 16000%Q) (map frame frames) connected_idle in
  emitted_sample_count (session_effects r) + List.length (buffered (before_stop r))
  = List.length frames * bufferSize.
Proof.
  intros frames r.
  refine (proj1 (chunk_accounting a_props 16000%Q bufferSize frames connected_idle
                   eq_refl eq_refl eq_refl _)).
  repeat constructor.
Defined.

Lemma captured_samples_can_be_lost :
  (* nine frames at 16 kHz: one chunk of eight frames is sent, the ninth
     frame is still in the buffer when the session is stopped *)
  (let frames := repeat silence_frame 9 in
   let r := session a_props (mic_resolves 16000%Q) (map frame frames) connected_idle in
   Forall (fun f : list number => List.length f = bufferSize) frames /\
   samplesPerChunk 16000%Q = 32000%Z /\
   emitted_sample_count (session_effects r) <> List.length frames * bufferSize /\
   Z.of_nat (emitted_sample_count (session_effects r)) = 32768%Z /\
   Z.of_nat (List.length frames * bufferSize) = 36864%Z /\
   Z.of_nat (List.length (buffered (before_stop r))) = 4096%Z /\
   emitted_chunks (stop_effects r) = []) /\
  (* eight frames, the socket drops before the eighth: the chunk is
     skipped and the buffer cleared *)
  (let es := map frame (repeat silence_frame 7) ++ [socket false; frame silence_frame] in
   let r := session a_props (mic_resolves 16000%Q) es connected_idle in
   emitted_chunks (session_effects r) = [] /\
   buffered (before_stop r) = [] /\
   errors_and_warnings (recording_effects r)
   = ["Socket not connected, skipping chunk"%string]).
Proof.
  split.
  - intros frames r.
    assert (Hsent : Z.of_nat (emitted_sample_count (session_effects r)) = 32768%Z)
      by (vm_compute; reflexivity).
    assert (Hall : Z.of_nat (List.length frames * bufferSize) = 36864%Z)
      by (vm_compute; reflexivity).
    split; [repeat constructor|]. split; [reflexivity|].
    split; [intros E; rewrite E, Hall in Hsent; discriminate Hsent|].
    split; [exact Hsent|]. split; [exact Hall|].
    split; vm_compute; reflexivity.
  - vm_compute. repeat split.
Qed.

End ChunkerFacts.

(* ===================================================================== *)
(** * Properties of the batch request, the microphone request and the
      health probe *)
(* ===================================================================== *)

Section RequestFacts.
Import JS Encoder Common Design.

Lemma or_else_cases a d :
  or_else a d = match a with Some EmptyString | None => d | Some m => m end.
Proof. destruct a as [[|c s]|]; reflexivity. Qed.

Lemma catch_message e :
  (if instanceof_Error e then message_of e else "Failed to translate audio"%string)
  = match e with
    | DOMException _ m | Error m => m
    | NotAnError => "Failed to translate audio"%string
    end.
Proof. destruct e; reflexivity. Qed.

Lemma reported_call_onError p m :
  reported (call_onError p m) = if has_onError p then [m] else [].
Proof. unfold call_onError. destruct (has_onError p); reflexivity. Qed.

Lemma views_call_onError p m :
  requests (call_onError p m) = [] /\ delivered (call_onError p m) = [] /\
  errors_logged (call_onError p m) = [] /\ socket_messages (call_onError p m) = [].
Proof. unfold call_onError. destruct (has_onError p); repeat split. Qed.

Lemma send_failure p now blob net e :
  send_try p now blob net = ([fetch_translate blob (sourceLang p) (targetLang p)], Some e) ->
  let effs := sendAudioToBackend_effects p now blob net in
  requests effs = [(blob, sourceLang p, targetLang p)] /\
  delivered effs = [] /\
  errors_logged effs = ["Error sending audio:"%string] /\
  reported effs =
    if has_onError p
    then [if instanceof_Error e then message_of e else "Failed to translate audio"%string]
    else [].
Proof.
  intros H effs. unfold effs, sendAudioToBackend_effects. rewrite H.
  unfold send_catch. cbn [app requests delivered errors_logged reported].
  destruct (views_call_onError p
    (if instanceof_Error e then message_of e else "Failed to translate audio"%string))
    as (-> & -> & -> & _).
  rewrite reported_call_onError. repeat split.
Qed.

Lemma translation_delivered p now blob net result :
  translation_of now net = Some result ->
  let effs := sendAudioToBackend_effects p now blob net in
  requests effs = [(blob, sourceLang p, targetLang p)] /\
  is_final result = Some true /\ delivered effs = [result] /\
  reported effs = [] /\ errors_logged effs = [].
Proof.
  unfold translation_of.
  destruct net as [e|status [d|e]]; try discriminate.
  destruct d as [o t a r l c|err|err m|m]; try discriminate.
  destruct (response_ok status) eqn:Hok; [|discriminate].
  intros [= <-]. unfold sendAudioToBackend_effects, send_try.
  rewrite Hok. simpl. repeat split.
Qed.

Lemma send_try_of_failure p now blob net :
  translation_of now net = None ->
  exists e,
    send_try p now blob net
      = ([fetch_translate blob (sourceLang p) (targetLang p)], Some e) /\
    failure_message net
      = (if instanceof_Error e then message_of e
         else "Failed to translate audio"%string).
Proof.
  intros Ht. destruct net as [e|status [d|e]].
  - exists e. split; [reflexivity|]. simpl. now rewrite catch_message.
  - unfold send_try, failure_message.
    destruct (response_ok status) eqn:Hok; cbn [negb].
    + destruct d as [o t a r l c|err|err m|m].
      * unfold translation_of in Ht. rewrite Hok in Ht. discriminate.
      * eexists. split; [reflexivity|]. reflexivity.
      * eexists. split; [reflexivity|]. reflexivity.
      * eexists. split; [reflexivity|]. reflexivity.
    + destruct d as [o t a r l c|err|err m|m];
        (eexists; split; [reflexivity|]; reflexivity).
  - exists e. split.
    + unfold send_try. now destruct (response_ok status).
    + simpl. now rewrite catch_message.
Qed.

Lemma batch_request_effects_of_failure p now blob net :
  translation_of now net = None ->
  let effs := sendAudioToBackend_effects p now blob net in
  requests effs = [(blob, sourceLang p, targetLang p)] /\
  delivered effs = [] /\
  errors_logged effs = ["Error sending audio:"%string] /\
  reported effs = (if has_onError p then [failure_message net] else []).
Proof.
  intros Ht effs.
  destruct (send_try_of_failure p now blob net Ht) as (e & He & Hm).
  rewrite Hm. exact (send_failure p now blob net e He).
Qed.

Lemma or_else_from_the_response net :
  from_the_response net (or_else (response_error net) "Translation failed")
  = true.
Proof.
  unfold from_the_response.
  destruct (response_error net) as [[|c m]|]; try reflexivity.
  cbn [or_else]. rewrite String.eqb_refl. reflexivity.
Qed.

Lemma read_message_from_the_response net :
  response_read net = true ->
  from_the_response net (failure_message net) = true.
Proof.
  intros Hr.
  destruct net as [e|status [d|e]]; try discriminate Hr.
  destruct d as [o t a r l c|err|err m|m].
  - exact (or_else_from_the_response
             (fetch_resolves status (json_ok (body_success o t a r l c)))).
  - exact (or_else_from_the_response
             (fetch_resolves status (json_ok (body_failure err)))).
  - cbn [response_read] in Hr. cbn [failure_message].
    destruct (response_ok status); [discriminate Hr|].
    exact (or_else_from_the_response
             (fetch_resolves status (json_ok (body_without_metrics err m)))).
  - discriminate Hr.
Qed.

(** C7. One call of [sendAudioToBackend] issues exactly one request, which
    carries the audio and the two languages.  On a success response it
    delivers exactly one result, with [is_final] set, and reports nothing.
    Otherwise it delivers nothing, logs the error and passes one message to
    the error callback of the caller, when the caller gave one.  That
    message is the [error] text of the response or a generic text whenever
    the code read the response to its end; when the request was rejected,
    the body did not parse or reading it threw, it is the message of what
    was thrown, whatever that text is.  In every case [isProcessing] is
    false afterwards, nothing else of the state has changed, and the
    effects do not depend on the state. *)
Theorem batch_request_outcomes (p : props) (now : Timestamp) (audioBlob : Blob)
        (net : fetch_outcome translate_body) :
  let effs := sendAudioToBackend_effects p now audioBlob net in
  requests effs = [(audioBlob, sourceLang p, targetLang p)] /\
  match translation_of now net with
  | Some result =>
      is_final result = Some true /\ delivered effs = [result] /\
      reported effs = [] /\ errors_logged effs = []
  | None =>
      delivered effs = [] /\
      errors_logged effs = ["Error sending audio:"%string] /\
      reported effs = (if has_onError p then [failure_message net] else []) /\
      (response_read net = true ->
       from_the_response net (failure_message net) = true)
  end /\
  (forall s : Recorder.state,
      Recorder.sendAudioToBackend p now audioBlob net s
      = ({| Recorder.isRecording := Recorder.isRecording s;
            Recorder.isConnected := Recorder.isConnected s;
            Recorder.isProcessing := false;
            Recorder.mode := Recorder.mode s;
            Recorder.socket_connected := Recorder.socket_connected s;
            Recorder.audioChunksRef := Recorder.audioChunksRef s;
            Recorder.stream_live := Recorder.stream_live s;
            Recorder.audioProcessor := Recorder.audioProcessor s;
            Recorder.recorder_active := Recorder.recorder_active s;
            Recorder.batch_handlers := Recorder.batch_handlers s |}, effs)) /\
  (forall s : BatchRecorder.state,
      BatchRecorder.sendAudioToBackend p now audioBlob net s
      = ({| BatchRecorder.isRecording := BatchRecorder.isRecording s;
            BatchRecorder.isConnected := BatchRecorder.isConnected s;
            BatchRecorder.isProcessing := false;
            BatchRecorder.audioChunksRef := BatchRecorder.audioChunksRef s;
            BatchRecorder.recorder_active := BatchRecorder.recorder_active s;
            BatchRecorder.stream_live := BatchRecorder.stream_live s |}, effs)).
Proof.
  intros effs.
  refine ((fun H => conj (proj1 H) (conj (proj2 H) (conj _ _))) _);
    [reflexivity|reflexivity|].
  destruct (translation_of now net) as [result|] eqn:Ht.
  - destruct (translation_delivered p now audioBlob net result Ht)
      as (H1 & H2 & H3 & H4 & H5).
    fold effs in H1, H3, H4, H5. auto.
  - destruct (batch_request_effects_of_failure p now audioBlob net Ht)
      as (H1 & H2 & H3 & H4).
    fold effs in H1, H2, H3, H4.
    repeat split; try assumption.
    apply read_message_from_the_response.
Qed.

Lemma batch_request_outcomes_witness :
  response_read Samples.refused = true /\
  reported (sendAudioToBackend_effects Examples.a_props (TsNumber 0)
              Samples.piece1 Samples.refused) = ["Model not loaded"%string] /\
  from_the_response Samples.refused "Model not loaded" = true.
Proof.
  pose proof (batch_request_outcomes Examples.a_props (TsNumber 0)
                Samples.piece1 Samples.refused) as H.
  cbv zeta in H. destruct H as (_ & (_ & _ & Hr & Hm) & _).
  split; [reflexivity|]. split; [exact Hr|exact (Hm eq_refl)].
Defined.

(** The message need not come from the failure response.  When a proxy
    answers 502 with a page that is not JSON, the text reported is the
    parser's, which is neither a text of the response nor a generic
    fallback; and a rejected request whose error has no message reports
    the empty string. *)
Lemma thrown_text_is_reported :
  reported (sendAudioToBackend_effects Examples.a_props (TsNumber 0)
              Samples.piece1 Samples.bad_gateway)
    = ["Unexpected token < in JSON at position 0"%string] /\
  from_the_response Samples.bad_gateway
    "Unexpected token < in JSON at position 0" = false /\
  reported (sendAudioToBackend_effects Examples.a_props (TsNumber 0)
              Samples.piece1 Samples.aborted_silently) = [EmptyString] /\
  from_the_response Samples.aborted_silently EmptyString = false.
Proof. repeat split. Qed.

Section Microphone.
Import Recorder.

Lemma start_message_of_cause mic c :
  cause_of mic = Some c ->
  match mic with
  | mic_unavailable => start_error_message (Error mic_unavailable_message)
  | mic_rejects e => start_error_message e
  | mic_resolves _ => EmptyString
  end = cause_message mic c.
Proof.
  destruct mic as [|e|sr]; simpl.
  - intros [= <-]. reflexivity.
  - destruct e as [name m|m|]; try discriminate.
    unfold start_error_message, cause_of.
    repeat match goal with
    | |- context [String.eqb name ?k] => destruct (String.eqb name k)
    end; intros [= <-]; reflexivity.
  - discriminate.
Qed.

Lemma cause_message_injective mic1 c1 mic2 c2 :
  cause_message mic1 c1 = cause_message mic2 c2 -> c1 = c2.
Proof.
  destruct c1, c2; try reflexivity; destruct mic1, mic2; simpl; discriminate.
Qed.

(** C8. When the microphone request of [startRecording] fails for one of
    the causes permission denied, device absent, device busy, constraint
    unsatisfiable or insecure context, the error is logged and the text of
    that cause goes to the error callback of the caller, when the caller
    gave one; texts of different causes differ; recording does not begin
    (no state but the chunk list is written) and neither a request nor a
    socket message is sent, in either mode. *)
Theorem microphone_failure_is_classified (p : props) (mic : mic_outcome)
        (s : state) (c : mic_cause) :
  cause_of mic = Some c ->
  let (s', effs) := startRecording p mic s in
  reported effs = (if has_onError p then [cause_message mic c] else []) /\
  errors_logged effs = ["Error starting recording:"%string] /\
  (forall mic2 c2, cause_message mic c = cause_message mic2 c2 -> c = c2) /\
  isRecording s' = isRecording s /\
  stream_live s' = stream_live s /\
  audioProcessor s' = audioProcessor s /\
  recorder_active s' = recorder_active s /\
  isProcessing s' = isProcessing s /\
  requests effs = [] /\ socket_messages effs = [] /\ delivered effs = [].
Proof.
  intros Hc. pose proof (start_message_of_cause mic c Hc) as Hm.
  assert (Hinj : forall mic2 c2,
             cause_message mic c = cause_message mic2 c2 -> c = c2).
  { intros mic2 c2. apply cause_message_injective. }
  destruct mic as [|e|sr]; [| |discriminate Hc]; cbn [startRecording];
    unfold start_catch;
    cbn [reported errors_logged requests socket_messages delivered
         isRecording stream_live audioProcessor recorder_active isProcessing];
    rewrite Hm.
  - destruct (views_call_onError p (cause_message mic_unavailable c))
      as (-> & -> & -> & ->).
    rewrite reported_call_onError. repeat split. exact Hinj.
  - destruct (views_call_onError p (cause_message (mic_rejects e) c))
      as (-> & -> & -> & ->).
    rewrite reported_call_onError. repeat split. exact Hinj.
Qed.

Lemma microphone_failure_is_classified_witness :
  let mic := mic_rejects (DOMException "NotAllowedError" "Permission denied") in
  let s := {| isRecording := false; isConnected := true; isProcessing := false;
              mode := batch; socket_connected := true; audioChunksRef := [];
              stream_live := false; audioProcessor := None;
              recorder_active := false; batch_handlers := false |} in
  reported (snd (startRecording Examples.a_props mic s))
  = ["Microphone permission denied. Please allow microphone access."%string] /\
  isRecording (fst (startRecording Examples.a_props mic s)) = false /\
  requests (snd (startRecording Examples.a_props mic s)) = [].
Proof.
  intros mic s.
  pose proof (microphone_failure_is_classified Examples.a_props mic s
                permission_denied eq_refl) as H.
  destruct (startRecording Examples.a_props mic s) as [s' effs].
  destruct H as (H1 & _ & _ & H4 & _ & _ & _ & _ & H9 & _).
  split; [exact H1|]. split; [exact H4|exact H9].
Defined.

End Microphone.

Section Health.
Import BatchRecorder.

Lemma checkHealth_flag n s :
  isConnected (fst (checkHealth n s)) = probe_succeeds n.
Proof.
  destruct n as [e| |status [d|e]]; simpl; try reflexivity;
    unfold checkHealth; simpl; destruct (response_ok status); reflexivity.
Qed.

Lemma probes_last ns : forall n s,
  isConnected (probes (ns ++ [n]) s) = probe_succeeds n.
Proof.
  induction ns as [|m ns IH]; intros n s; simpl.
  - apply checkHealth_flag.
  - apply IH.
Qed.

(** C9, as the code has it.  A health probe sets the "backend reachable"
    flag to true if and only if the response has a success status (200 to
    299) and a body that parses as JSON; any other status, an unparseable
    body, a network failure or the 3-second timeout sets it to false.  The
    flag is that of the latest probe of the 5-second cycle, and while it is
    false a click on the record button does nothing. *)
Theorem health_probe_gates_recording :
  (forall n s,
      isConnected (fst (checkHealth n s)) = true <->
      exists status data,
        n = probe_answers status (json_ok data) /\ (200 <= status <= 299)%Z) /\
  (forall ns n s,
      isConnected (probes (ns ++ [n]) s) = isConnected (fst (checkHealth n s))) /\
  (forall p mic s, isConnected s = false -> click_record p mic s = (s, [])) /\
  health_timeout_ms = 3000%Z /\ health_interval_ms = 5000%Z.
Proof.
  split; [|split; [|split; [|split; reflexivity]]].
  - intros n s. rewrite checkHealth_flag. split.
    + destruct n as [e| |status [d|e]]; simpl; try discriminate.
      intros H. exists status, d. split; [reflexivity|].
      unfold response_ok in H. lia.
    + intros (status & d & -> & H). simpl. unfold response_ok. lia.
  - intros. now rewrite probes_last, checkHealth_flag.
  - intros p mic s H. unfold click_record, button_disabled. now rewrite H.
Qed.

Lemma health_probe_gates_recording_witness :
  isConnected (fst (checkHealth (probe_answers 200 (json_ok tt)) initial)) = true /\
  click_record Examples.a_props (mic_resolves 48000%Q) initial = (initial, []).
Proof.
  destruct health_probe_gates_recording as (H1 & _ & H3 & _).
  split.
  - apply H1. exists 200%Z, tt. split; [reflexivity|lia].
  - apply H3. reflexivity.
Defined.

Lemma health_flag_is_not_status_200 :
  let created := probe_answers 201 (json_ok tt) in
  let garbled := probe_answers 200 (json_throws (Error "Unexpected end of JSON input")) in
  (probe_status created = Some 201%Z /\
   isConnected (fst (checkHealth created initial)) = true) /\
  (probe_status garbled = Some 200%Z /\
   isConnected (fst (checkHealth garbled initial)) = false).
Proof. repeat split. Qed.

End Health.

End RequestFacts.

(* ===================================================================== *)
(** * Properties of the playback queue *)
(* ===================================================================== *)

Section PlaybackFacts.
Import Common Playback.
Local Open Scope nat_scope.

(** ** Audio objects *)

Lemma silence_length id : forall l, List.length (silence id l) = List.length l.
Proof.
  induction id as [|id IH]; intros [|a l]; simpl; auto.
Qed.

Lemma silence_same id : forall l,
  nth_error (silence id l) id =
  match nth_error l id with
  | Some a => Some {| src := src a; playing := false; installed := installed a |}
  | None => None
  end.
Proof.
  induction id as [|id IH]; intros [|a l]; simpl; auto.
Qed.

Lemma silence_other id : forall l j, j <> id ->
  nth_error (silence id l) j = nth_error l j.
Proof.
  induction id as [|id IH]; intros [|a l] [|j] H; simpl; auto; try congruence.
Qed.

Lemma silence_playing id l j a :
  nth_error (silence id l) j = Some a -> playing a = true ->
  j <> id /\ nth_error l j = Some a.
Proof.
  intros H Hp. destruct (Nat.eq_dec j id) as [->|Hne].
  - rewrite silence_same in H. destruct (nth_error l id); [|discriminate].
    injection H as <-. discriminate Hp.
  - rewrite silence_other in H by exact Hne. auto.
Qed.

Lemma silence_sources id : forall l,
  map src (filter is_queue_audio (silence id l)) = map src (filter is_queue_audio l).
Proof.
  induction id as [|id IH]; intros [|a l]; simpl; auto.
  - unfold is_queue_audio. simpl. destruct (installed a); reflexivity.
  - destruct (is_queue_audio a); simpl; now rewrite IH.
Qed.

Lemma silence_handlers id l :
  Forall (fun a => installed a = queue_handlers) l ->
  Forall (fun a => installed a = queue_handlers) (silence id l).
Proof.
  intros H. revert id. induction H as [|a l Ha Hl IH]; intros [|id]; simpl;
    constructor; auto.
Qed.

Lemma shifted_app l1 l2 : shifted (l1 ++ l2) = shifted l1 ++ shifted l2.
Proof.
  induction l1 as [|a l IH]; [reflexivity|].
  destruct a; simpl; now rewrite IH.
Qed.

Lemma entries_from_app rs1 rs2 : forall k,
  entries_from k (rs1 ++ rs2)
  = entries_from k rs1 ++ entries_from (k + List.length rs1) rs2.
Proof.
  induction rs1 as [|r rs IH]; intros k; simpl.
  - now rewrite Nat.add_0_r.
  - rewrite IH. now rewrite Nat.add_succ_r.
Qed.

(** No object is playing. *)
Lemma is_playing_spec j s :
  is_playing j s = true <-> exists a, nth_error (audios s) j = Some a /\ playing a = true.
Proof.
  unfold is_playing. destruct (nth_error (audios s) j) as [a|].
  - split; [eauto|]. now intros (a' & [= <-] & H).
  - split; [discriminate|]. now intros (a' & [=] & _).
Qed.

Lemma only_current_gives_at_most_one s :
  only_current_playing s -> at_most_one_playing s.
Proof.
  intros H i j Hi Hj. apply H in Hi, Hj. congruence.
Qed.

Section Queue.
Variable Audio_throws : string -> bool.

Lemma playable_app l1 l2 :
  playable Audio_throws (l1 ++ l2)
  = playable Audio_throws l1 ++ playable Audio_throws l2.
Proof. unfold playable. now rewrite map_app, filter_app, map_app. Qed.

Lemma all_silent_only_current s : all_silent s -> only_current_playing s.
Proof. intros H id Hp. rewrite H in Hp. discriminate. Qed.

Lemma pause_current_silent s :
  only_current_playing s ->
  all_silent (match audioRef s with Some id => pause id s | None => s end).
Proof.
  intros H j. destruct (is_playing j _) eqn:E; [|reflexivity]. exfalso.
  destruct (audioRef s) as [id|] eqn:Ea.
  - apply is_playing_spec in E. destruct E as (a & Hn & Hp). simpl in Hn.
    destruct (silence_playing _ _ _ _ Hn Hp) as (Hne & Hn').
    assert (Hj : is_playing j s = true) by (apply is_playing_spec; eauto).
    apply H in Hj. congruence.
  - apply H in E. congruence.
Qed.

Lemma start_playing h a i s j :
  all_silent s ->
  is_playing j (start h a i s) = true -> j = List.length (audios s).
Proof.
  intros Hs Hp. apply is_playing_spec in Hp. destruct Hp as (x & Hn & Hp).
  simpl in Hn. destruct (Nat.lt_ge_cases j (List.length (audios s))) as [Hlt|Hge].
  - rewrite nth_error_app1 in Hn by exact Hlt.
    assert (Hj : is_playing j s = true) by (apply is_playing_spec; eauto).
    rewrite Hs in Hj. discriminate.
  - destruct (Nat.eq_dec j (List.length (audios s))) as [->|Hne]; [reflexivity|].
    rewrite nth_error_app2 in Hn by exact Hge.
    destruct (j - List.length (audios s)) as [|[|k]] eqn:Ek; simpl in Hn;
      try discriminate. lia.
Qed.

Lemma start_is_playing h a i s :
  is_playing (List.length (audios s)) (start h a i s) = true.
Proof.
  unfold is_playing. simpl. rewrite nth_error_app2 by lia.
  now rewrite Nat.sub_diag.
Qed.

(** The state in which [playNextInQueue] creates the next object. *)
Lemma shift_state_facts e rest s :
  only_current_playing s ->
  let s2 := shift_state e rest s in
  all_silent s2 /\ dequeued s2 = dequeued s ++ [e] /\
  audioQueueRef s2 = rest /\ isPlayingQueueRef s2 = true /\
  results s2 = results s /\ queue_started s2 = queue_started s /\
  List.length (audios s2) = List.length (audios s) /\
  (Forall (fun a => installed a = queue_handlers) (audios s) ->
   Forall (fun a => installed a = queue_handlers) (audios s2)).
Proof.
  intros H s2. unfold s2, shift_state. split.
  - apply pause_current_silent. exact H.
  - simpl. destruct (audioRef s) as [id|]; unfold dequeued, queue_started; simpl;
      rewrite ?shifted_app, ?app_nil_r, ?silence_sources, ?silence_length;
      repeat split; auto using silence_handlers.
Qed.

Lemma playNextInQueue_from_consistent : forall queue s,
  audioQueueRef s = queue -> ready Audio_throws s ->
  consistent Audio_throws (playNextInQueue_from Audio_throws queue s).
Proof.
  induction queue as [|[a i] rest IH]; intros s Hq (Hcur & Hord & Hst & Hh).
  - simpl. split; [|split].
    + repeat split; assumption.
    + intros _. exact Hq.
    + simpl. discriminate.
  - cbn [playNextInQueue_from]. fold (shift_state (a, i) rest s).
    destruct (shift_state_facts (a, i) rest s Hcur)
      as (Hsil & Hdq & Hqu & Hfl & Hres & Hqs & Hlen & Hhs).
    set (s2 := shift_state (a, i) rest s) in *.
    assert (Hord2 : dequeued s2 ++ rest = submitted s2).
    { rewrite Hdq, <- app_assoc. simpl. unfold submitted. rewrite Hres.
      rewrite <- Hq. exact Hord. }
    destruct (Audio_throws a) eqn:Hthrow.
    + apply IH; [exact Hqu|]. repeat split.
      * apply all_silent_only_current. exact Hsil.
      * unfold dequeued. simpl. rewrite shifted_app, app_nil_r.
        fold (dequeued s2). rewrite Hqu. exact Hord2.
      * unfold queue_started, dequeued. simpl. rewrite shifted_app, app_nil_r.
        fold (dequeued s2) (queue_started s2). rewrite Hqs, Hst, Hdq, playable_app.
        unfold playable at 3. simpl. rewrite Hthrow. simpl. now rewrite app_nil_r.
      * simpl. apply Hhs, Hh.
    + split; [|split].
      * repeat split.
        -- intros j Hj. apply start_playing in Hj; [|exact Hsil]. subst j. reflexivity.
        -- unfold dequeued. simpl. rewrite shifted_app, app_nil_r.
           fold (dequeued s2). rewrite Hqu. exact Hord2.
        -- unfold queue_started, dequeued. simpl.
           rewrite shifted_app, app_nil_r, filter_app, map_app.
           fold (dequeued s2) (queue_started s2). rewrite Hqs, Hst, Hdq, playable_app.
           unfold playable at 3. simpl. rewrite Hthrow. reflexivity.
        -- simpl. apply Forall_app. split; [apply Hhs, Hh|]. now constructor.
      * simpl. rewrite Hfl. discriminate.
      * intros _. exists (List.length (audios s2)). split; [reflexivity|].
        apply start_is_playing.
Qed.
End Queue.

Section QueueRuns.
Variable Audio_throws : string -> bool.

Lemma playNextInQueue_consistent s :
  ready Audio_throws s -> consistent Audio_throws (playNextInQueue Audio_throws s).
Proof. intros H. now apply playNextInQueue_from_consistent. Qed.

(** Stopping an object and logging keep a state ready for the consumer. *)
Lemma ready_silence id s :
  ready Audio_throws s -> ready Audio_throws (set_audios (silence id (audios s)) s).
Proof.
  intros (Hcur & Hord & Hst & Hh). repeat split.
  - intros j Hj. apply is_playing_spec in Hj. destruct Hj as (a & Hn & Hp).
    simpl in Hn. destruct (silence_playing _ _ _ _ Hn Hp) as (_ & Hn').
    apply Hcur. apply is_playing_spec. eauto.
  - exact Hord.
  - unfold queue_started. simpl. rewrite silence_sources. exact Hst.
  - simpl. apply silence_handlers, Hh.
Qed.

Lemma ready_error what s :
  ready Audio_throws s -> ready Audio_throws (record (act_error what) s).
Proof.
  intros (Hcur & Hord & Hst & Hh). repeat split; try assumption.
  - unfold dequeued. simpl. rewrite shifted_app, app_nil_r. exact Hord.
  - unfold dequeued. simpl. rewrite shifted_app, app_nil_r. exact Hst.
Qed.

Lemma handlers_of_ready s id a :
  ready Audio_throws s -> nth_error (audios s) id = Some a ->
  installed a = queue_handlers.
Proof.
  intros (_ & _ & _ & Hh) Hn. rewrite Forall_forall in Hh.
  apply Hh. eapply nth_error_In. exact Hn.
Qed.

Lemma submitted_push r s :
  submitted (set_results (results s ++ [r]) s)
  = submitted s ++ [(audio_base64 r, List.length (results s))].
Proof. unfold submitted. simpl. now rewrite entries_from_app. Qed.

Lemma autoplay_effect_push r s :
  autoplay_effect Audio_throws (set_results (results s ++ [r]) s)
  = let s1 := set_audioQueueRef
                (audioQueueRef s ++ [(audio_base64 r, List.length (results s))])
                (set_results (results s ++ [r]) s) in
    if negb (isPlayingQueueRef s) then playNextInQueue Audio_throws s1 else s1.
Proof.
  unfold autoplay_effect. cbn [results set_results].
  rewrite length_app. simpl. rewrite Nat.add_1_r.
  rewrite nth_error_app2 by lia. rewrite Nat.sub_diag. reflexivity.
Qed.

Lemma step_consistent e s :
  queue_event e = true ->
  consistent Audio_throws s -> consistent Audio_throws (step Audio_throws e s).
Proof.
  intros He Hc. pose proof Hc as (Hr & Hidle & Hbusy).
  destruct e as [r|rs|id|id|id|i|]; try discriminate He; cbn [step].
  - rewrite autoplay_effect_push. cbv zeta.
    assert (Hr1 : ready Audio_throws
              (set_audioQueueRef
                 (audioQueueRef s ++ [(audio_base64 r, List.length (results s))])
                 (set_results (results s ++ [r]) s))).
    { destruct Hr as (Hcur & Hord & Hst & Hh). repeat split; try assumption.
      change (dequeued s ++ audioQueueRef s ++ [(audio_base64 r, List.length (results s))]
              = submitted (set_results (results s ++ [r]) s)).
      now rewrite submitted_push, app_assoc, Hord. }
    destruct (isPlayingQueueRef s) eqn:Hf; cbn [negb].
    + split; [exact Hr1|]. split.
      * simpl. rewrite Hf. discriminate.
      * intros _. apply Hbusy. reflexivity.
    + apply playNextInQueue_consistent. exact Hr1.
  - destruct (nth_error (audios s) id) as [a|] eqn:Hn; [|exact Hc].
    destruct (playing a) eqn:Hp; [|exact Hc].
    rewrite (handlers_of_ready s id a Hr Hn). cbn [onended].
    apply playNextInQueue_consistent, ready_silence, Hr.
  - destruct (nth_error (audios s) id) as [a|] eqn:Hn; [|exact Hc].
    rewrite (handlers_of_ready s id a Hr Hn). cbn [onerror].
    apply playNextInQueue_consistent, ready_error, ready_silence, Hr.
  - destruct (nth_error (audios s) id) as [a|] eqn:Hn; [|exact Hc].
    rewrite (handlers_of_ready s id a Hr Hn). cbn [onrejected].
    apply playNextInQueue_consistent, ready_error, ready_silence, Hr.
Qed.

Lemma initial_consistent : consistent Audio_throws initial.
Proof.
  repeat split; try reflexivity.
  - intros id H. unfold is_playing in H. simpl in H.
    destruct id; discriminate H.
  - constructor.
  - discriminate.
Qed.

Lemma run_consistent es : forall s,
  forallb queue_event es = true ->
  consistent Audio_throws s -> consistent Audio_throws (run Audio_throws es s).
Proof.
  induction es as [|e es IH]; intros s He Hc; [exact Hc|].
  simpl in He. apply andb_prop in He. destruct He as [He Hes].
  simpl. apply IH; [exact Hes|]. now apply step_consistent.
Qed.

End QueueRuns.

Section Consumer.
Variable Audio_throws : string -> bool.

(** What one call of the consumer does to the queue, the flag and the
    results. *)
Lemma playNextInQueue_from_progress : forall queue s,
  audioQueueRef s = queue ->
  let s' := playNextInQueue_from Audio_throws queue s in
  results s' = results s /\
  List.length (audioQueueRef s') <= pred (List.length queue) /\
  (queue = [] -> isPlayingQueueRef s' = false /\ playingIndex s' = None) /\
  (isPlayingQueueRef s' = false -> audioQueueRef s' = []) /\
  (exists more, log s' = log s ++ more).
Proof.
  induction queue as [|[a i] rest IH]; intros s Hq s'.
  - unfold s'. simpl. rewrite Hq. repeat split; auto.
    exists []. now rewrite app_nil_r.
  - unfold s'. cbn [playNextInQueue_from]. fold (shift_state (a, i) rest s).
    set (s2 := shift_state (a, i) rest s).
    assert (H2 : results s2 = results s /\ audioQueueRef s2 = rest /\
                 isPlayingQueueRef s2 = true /\
                 exists more, log s2 = log s ++ more).
    { unfold s2, shift_state. simpl. destruct (audioRef s); simpl.
      - repeat split. eexists [act_shift (a, i); act_pause n _].
        now rewrite <- app_assoc.
      - repeat split. now exists [act_shift (a, i)]. }
    destruct H2 as (Hres & Hqu & Hfl & (more & Hlog)).
    destruct (Audio_throws a).
    + specialize (IH (record (act_error "Error playing audio:") s2) Hqu).
      cbv zeta in IH. destruct IH as (I1 & I2 & _ & I4 & (more' & I5)).
      split; [now rewrite I1|]. split; [simpl; lia|].
      split; [discriminate|]. split; [exact I4|].
      exists (more ++ act_error "Error playing audio:" :: more').
      rewrite I5. simpl. rewrite Hlog, <- !app_assoc. reflexivity.
    + simpl. rewrite Hres, Hqu, Hfl. repeat split; auto; try discriminate.
      exists (more ++ [act_play (List.length (audios s2))]).
      now rewrite Hlog, <- app_assoc.
Qed.

Lemma drain_settles : forall n s,
  consistent Audio_throws s ->
  List.length (audioQueueRef s) < n ->
  let s' := drain Audio_throws n s in
  consistent Audio_throws s' /\ isPlayingQueueRef s' = false /\
  results s' = results s.
Proof.
  induction n as [|n IH]; intros s Hc Hn; [lia|].
  cbn [drain]. destruct (isPlayingQueueRef s) eqn:Hf; [|auto].
  destruct Hc as (Hr & Hidle & Hbusy).
  destruct (Hbusy Hf) as (id & Ha & Hp). rewrite Ha.
  apply is_playing_spec in Hp. destruct Hp as (a & Hnth & Hpl).
  assert (Hstep : step Audio_throws (ended id) s
                  = playNextInQueue Audio_throws (set_audios (silence id (audios s)) s)).
  { cbn [step]. rewrite Hnth, Hpl.
    now rewrite (handlers_of_ready Audio_throws s id a Hr Hnth). }
  rewrite Hstep.
  set (s0 := set_audios (silence id (audios s)) s).
  assert (Hc1 : consistent Audio_throws (playNextInQueue Audio_throws s0)).
  { apply playNextInQueue_consistent, ready_silence, Hr. }
  destruct (playNextInQueue_from_progress (audioQueueRef s0) s0 eq_refl)
    as (Hres & Hlen & Hnil & _ & _).
  fold (playNextInQueue Audio_throws s0) in Hres, Hlen, Hnil.
  change (audioQueueRef s0) with (audioQueueRef s) in Hlen, Hnil.
  change (results s0) with (results s) in Hres.
  destruct (audioQueueRef s) as [|e q] eqn:Hq.
  - destruct (Hnil eq_refl) as (Hf1 & _).
    destruct n as [|n]; cbn [drain]; [|rewrite Hf1]; auto.
  - simpl in Hn, Hlen.
    destruct (IH (playNextInQueue Audio_throws s0) Hc1 ltac:(lia)) as (H1 & H2 & H3).
    split; [exact H1|]. split; [exact H2|]. now rewrite H3.
Qed.

End Consumer.


Section Calm.
Variable Audio_throws : string -> bool.

Lemma interrupted_app l1 l2 :
  interrupted (l1 ++ l2) = interrupted l1 ++ interrupted l2.
Proof.
  induction l1 as [|a l IH]; [reflexivity|].
  destruct a as [e|id|id [|]|w]; simpl; now rewrite IH.
Qed.

Lemma all_silent_silence id s :
  only_current_playing s -> audioRef s = Some id ->
  all_silent (set_audios (silence id (audios s)) s).
Proof.
  intros Hcur Ha j. destruct (is_playing j _) eqn:E; [|reflexivity]. exfalso.
  apply is_playing_spec in E. destruct E as (a & Hn & Hp). simpl in Hn.
  destruct (silence_playing _ _ _ _ Hn Hp) as (Hne & Hn').
  assert (Hj : is_playing j s = true) by (apply is_playing_spec; eauto).
  apply Hcur in Hj. congruence.
Qed.

Lemma shift_state_calm e rest s :
  all_silent s -> interrupted (log s) = [] ->
  all_silent (shift_state e rest s) /\
  interrupted (log (shift_state e rest s)) = [].
Proof.
  intros Hs Hi. unfold shift_state. simpl.
  destruct (audioRef s) as [id|].
  - split.
    + intros j. destruct (is_playing j _) eqn:E; [|reflexivity]. exfalso.
      apply is_playing_spec in E. destruct E as (a & Hn & Hp). simpl in Hn.
      destruct (silence_playing _ _ _ _ Hn Hp) as (_ & Hn').
      assert (Hj : is_playing j s = true) by (apply is_playing_spec; eauto).
      rewrite Hs in Hj. discriminate.
    + simpl. rewrite !interrupted_app, Hi.
      change (is_playing id _) with (is_playing id s). now rewrite Hs.
  - split; [exact Hs|]. simpl. now rewrite interrupted_app, Hi.
Qed.

Lemma playNextInQueue_from_calm : forall queue s,
  all_silent s -> interrupted (log s) = [] ->
  let s' := playNextInQueue_from Audio_throws queue s in
  (isPlayingQueueRef s' = false -> all_silent s') /\
  interrupted (log s') = [].
Proof.
  induction queue as [|[a i] rest IH]; intros s Hs Hi s'.
  - unfold s'. simpl. split; [intros _; exact Hs|exact Hi].
  - unfold s'. cbn [playNextInQueue_from]. fold (shift_state (a, i) rest s).
    destruct (shift_state_calm (a, i) rest s Hs Hi) as (Hs2 & Hi2).
    destruct (Audio_throws a).
    + apply IH; [exact Hs2|]. simpl. now rewrite interrupted_app, Hi2.
    + split.
      * simpl. unfold shift_state. simpl. destruct (audioRef s); discriminate.
      * simpl. now rewrite interrupted_app, Hi2.
Qed.

Lemma step_calm e s :
  error_free e = true ->
  calm Audio_throws s -> calm Audio_throws (step Audio_throws e s).
Proof.
  intros He (Hc & Hsil & Hint).
  assert (Hq : queue_event e = true) by (destruct e; auto; discriminate He).
  split; [now apply step_consistent|].
  pose proof Hc as ((Hcur & _) & _ & _).
  destruct e as [r|rs|id|id|id|i|]; try discriminate He; cbn [step].
  - rewrite autoplay_effect_push. cbv zeta.
    destruct (isPlayingQueueRef s) eqn:Hf; cbn [negb].
    + split; [simpl; rewrite Hf; discriminate|exact Hint].
    + apply playNextInQueue_from_calm; [|exact Hint].
      exact (Hsil eq_refl).
  - destruct (nth_error (audios s) id) as [a|] eqn:Hn; [|auto].
    destruct (playing a) eqn:Hp; [|auto].
    assert (Ha : audioRef s = Some id).
    { apply Hcur. apply is_playing_spec. eauto. }
    destruct Hc as (Hr & _).
    rewrite (handlers_of_ready Audio_throws s id a Hr Hn). cbn [onended].
    apply playNextInQueue_from_calm; [|exact Hint].
    now apply all_silent_silence.
Qed.

Lemma initial_calm : calm Audio_throws initial.
Proof.
  split; [apply initial_consistent|]. split; [|reflexivity].
  intros _ j. unfold is_playing. simpl. now destruct j.
Qed.

Lemma run_calm es : forall s,
  forallb error_free es = true ->
  calm Audio_throws s -> calm Audio_throws (run Audio_throws es s).
Proof.
  induction es as [|e es IH]; intros s He Hc; [exact Hc|].
  simpl in He. apply andb_prop in He. destruct He as [He Hes].
  simpl. apply IH; [exact Hes|]. now apply step_calm.
Qed.

Lemma drain_calm : forall n s,
  calm Audio_throws s -> calm Audio_throws (drain Audio_throws n s).
Proof.
  induction n as [|n IH]; intros s Hc; [exact Hc|].
  cbn [drain]. destruct (isPlayingQueueRef s); [|exact Hc].
  destruct (audioRef s) as [id|]; [|exact Hc].
  apply IH. now apply step_calm.
Qed.

End Calm.

Section Ordering.
Variable Audio_throws : string -> bool.

(** The queue path, which is what the consumer was written for.  Along
    every run of the queue path (results submitted one by one,
    ends of media, load and decode failures, rejected [play()] promises,
    in any interleaving): at most one object is playing; the entries handed
    to playback so far, followed by the entries still queued, are the
    submitted results in submission order, so none is dropped, skipped or
    reordered; the objects started are those of the entries handed out, in
    that order; while entries wait the consumer is running and an object
    is playing; when the objects then play to their ends, every submitted
    result has been handed to playback in order and the consumer is idle
    over an empty queue; and in a run without failures no object is ever
    paused while it is playing. *)
Theorem playback_in_submission_order (es : list event) :
  forallb queue_event es = true ->
  let s := run Audio_throws es initial in
  let s' := drain Audio_throws (S (List.length (audioQueueRef s))) s in
  at_most_one_playing s /\
  dequeued s ++ audioQueueRef s = submitted s /\
  queue_started s = playable Audio_throws (dequeued s) /\
  (audioQueueRef s <> [] -> isPlayingQueueRef s = true) /\
  (isPlayingQueueRef s = true ->
   exists id, audioRef s = Some id /\ is_playing id s = true) /\
  (isPlayingQueueRef s' = false /\ audioQueueRef s' = [] /\
   dequeued s' = submitted s /\
   queue_started s' = playable Audio_throws (submitted s) /\
   at_most_one_playing s') /\
  (forallb error_free es = true ->
   interrupted (log s) = [] /\ interrupted (log s') = []).
Proof.
  intros He s s'.
  pose proof (run_consistent Audio_throws es initial He
                (initial_consistent Audio_throws)) as Hc.
  fold s in Hc. pose proof Hc as ((Hcur & Hord & Hst & _) & Hidle & Hbusy).
  split; [now apply only_current_gives_at_most_one|].
  split; [exact Hord|]. split; [exact Hst|].
  split; [|split; [exact Hbusy|split]].
  - intros Hne. destruct (isPlayingQueueRef s); [reflexivity|].
    exfalso. apply Hne, Hidle. reflexivity.
  - destruct (drain_settles Audio_throws _ s Hc (Nat.lt_succ_diag_r _))
      as (((Dcur & Dord & Dst & _) & Didle & _) & Df & Dres).
    fold s' in Dcur, Dord, Dst, Didle, Df, Dres.
    specialize (Didle Df). rewrite Didle, app_nil_r in Dord.
    assert (Hsub : submitted s' = submitted s) by (unfold submitted; now rewrite Dres).
    split; [exact Df|]. split; [exact Didle|].
    split; [congruence|]. split; [congruence|].
    now apply only_current_gives_at_most_one.
  - intros Hfree.
    pose proof (run_calm Audio_throws es initial Hfree
                  (initial_calm Audio_throws)) as Hcalm.
    fold s in Hcalm.
    pose proof (drain_calm Audio_throws (S (List.length (audioQueueRef s))) s Hcalm)
      as Hcalm'.
    fold s' in Hcalm'.
    destruct Hcalm as (_ & _ & H1). destruct Hcalm' as (_ & _ & H2). auto.
Qed.

End Ordering.

Lemma playback_in_submission_order_witness :
  let es := [submit Examples.r1; submit Examples.r2; ended 0; submit Examples.r3] in
  let s := run Examples.never_throws es initial in
  forallb queue_event es = true /\
  dequeued s ++ audioQueueRef s = submitted s /\
  at_most_one_playing s.
Proof.
  intros es s.
  destruct (playback_in_submission_order Examples.never_throws es eq_refl)
    as (H1 & H2 & _).
  split; [reflexivity|]. split; [exact H2|exact H1].
Defined.

(** A render with one more result is what [submit] is. *)
Lemma submit_is_rerender Audio_throws r s :
  step Audio_throws (submit r) s
  = step Audio_throws (rerender (results s ++ [r])) s.
Proof.
  cbn [step]. rewrite length_app. simpl.
  destruct (Nat.eqb_spec (List.length (results s) + 1) (List.length (results s)));
    [lia|reflexivity].
Qed.

(** Two results appended before one render: the effect runs once and
    enqueues the latest only. *)
Example batched_results_enqueue_the_latest :
  let s := run Examples.never_throws [rerender [Examples.r1; Examples.r2]] initial in
  dequeued s ++ audioQueueRef s = [(audio_base64 Examples.r2, 1)].
Proof. reflexivity. Qed.

(** ** Stopped objects stay stopped *)

Section Abandoned.
Variable Audio_throws : string -> bool.

Lemma no_resume_refl s : no_resume s s.
Proof. split; auto. Qed.

Lemma no_resume_trans s1 s2 s3 :
  no_resume s1 s2 -> no_resume s2 s3 -> no_resume s1 s3.
Proof.
  intros (L1 & H1) (L2 & H2). split; [lia|].
  intros id Hid Hp. apply H2; [lia|]. now apply H1.
Qed.

Lemma no_resume_same_audios s s' : audios s' = audios s -> no_resume s s'.
Proof.
  intros E. unfold no_resume, is_playing. rewrite E. auto.
Qed.

Lemma no_resume_silence id s : no_resume s (set_audios (silence id (audios s)) s).
Proof.
  split; [simpl; now rewrite silence_length|].
  intros j Hj Hp. unfold is_playing in *. simpl.
  destruct (Nat.eq_dec j id) as [->|Hne].
  - rewrite silence_same. now destruct (nth_error (audios s) id).
  - now rewrite silence_other.
Qed.

Lemma no_resume_pause id s : no_resume s (pause id s).
Proof.
  eapply no_resume_trans; [apply (no_resume_silence id)|].
  now apply no_resume_same_audios.
Qed.

Lemma no_resume_start h a i s : no_resume s (start h a i s).
Proof.
  split; [simpl; rewrite length_app; lia|].
  intros j Hj Hp. unfold is_playing in *. simpl. now rewrite nth_error_app1.
Qed.

Lemma no_resume_shift_state e rest s : no_resume s (shift_state e rest s).
Proof.
  unfold shift_state. simpl. destruct (audioRef s).
  - eapply no_resume_trans; [|apply no_resume_pause].
    now apply no_resume_same_audios.
  - now apply no_resume_same_audios.
Qed.

Lemma no_resume_playNextInQueue_from : forall queue s,
  no_resume s (playNextInQueue_from Audio_throws queue s).
Proof.
  induction queue as [|[a i] rest IH]; intros s.
  - now apply no_resume_same_audios.
  - cbn [playNextInQueue_from]. fold (shift_state (a, i) rest s).
    eapply no_resume_trans; [apply (no_resume_shift_state (a, i) rest)|].
    destruct (Audio_throws a).
    + eapply no_resume_trans; [|apply IH]. now apply no_resume_same_audios.
    + apply no_resume_start.
Qed.

Lemma no_resume_autoplay_effect s : no_resume s (autoplay_effect Audio_throws s).
Proof.
  unfold autoplay_effect.
  destruct (List.length (results s)) as [|k]; [apply no_resume_refl|].
  destruct (nth_error (results s) k) as [r|]; [|apply no_resume_refl].
  destruct (negb _).
  - eapply no_resume_trans; [|apply no_resume_playNextInQueue_from].
    now apply no_resume_same_audios.
  - now apply no_resume_same_audios.
Qed.

Lemma no_resume_playAudio a i s : no_resume s (playAudio Audio_throws a i s).
Proof.
  unfold playAudio.
  assert (H1 : no_resume s (match audioRef s with
                            | Some id => set_audioRef None (pause id s)
                            | None => s
                            end)).
  { destruct (audioRef s); [|apply no_resume_refl].
    eapply no_resume_trans; [apply no_resume_pause|].
    now apply no_resume_same_audios. }
  eapply no_resume_trans; [exact H1|].
  destruct (Audio_throws a); [now apply no_resume_same_audios|apply no_resume_start].
Qed.

Lemma no_resume_stopAudio s : no_resume s (stopAudio s).
Proof.
  unfold stopAudio. destruct (audioRef s); [|apply no_resume_refl].
  eapply no_resume_trans; [apply no_resume_pause|].
  now apply no_resume_same_audios.
Qed.

Lemma no_resume_handlers h s :
  no_resume s (onended Audio_throws h s) /\
  no_resume s (onerror Audio_throws h s) /\
  no_resume s (onrejected Audio_throws h s).
Proof.
  destruct h; simpl; repeat split;
    try (now apply no_resume_same_audios);
    try apply no_resume_playNextInQueue_from;
    try (eapply no_resume_trans; [|apply no_resume_playNextInQueue_from];
         now apply no_resume_same_audios).
Qed.

Lemma no_resume_step e s : no_resume s (step Audio_throws e s).
Proof.
  destruct e as [r|rs|id|id|id|i|]; cbn [step].
  - eapply no_resume_trans; [|apply no_resume_autoplay_effect].
    now apply no_resume_same_audios.
  - destruct (Nat.eqb _ _); [now apply no_resume_same_audios|].
    eapply no_resume_trans; [|apply no_resume_autoplay_effect].
    now apply no_resume_same_audios.
  - destruct (nth_error (audios s) id) as [a|]; [|apply no_resume_refl].
    destruct (playing a); [|apply no_resume_refl].
    eapply no_resume_trans; [apply (no_resume_silence id)|].
    apply no_resume_handlers.
  - destruct (nth_error (audios s) id) as [a|]; [|apply no_resume_refl].
    eapply no_resume_trans; [apply (no_resume_silence id)|].
    apply no_resume_handlers.
  - destruct (nth_error (audios s) id) as [a|]; [|apply no_resume_refl].
    eapply no_resume_trans; [apply (no_resume_silence id)|].
    apply no_resume_handlers.
  - destruct (nth_error (results s) i); [|apply no_resume_refl].
    destruct (shows_stop i s); [apply no_resume_refl|apply no_resume_playAudio].
  - destruct (stop_button s); [apply no_resume_stopAudio|apply no_resume_refl].
Qed.

Lemma no_resume_run es : forall s, no_resume s (run Audio_throws es s).
Proof.
  induction es as [|e es IH]; intros s; [apply no_resume_refl|].
  simpl. eapply no_resume_trans; [apply no_resume_step|apply IH].
Qed.

End Abandoned.

Section Replay.
Variable Audio_throws : string -> bool.

Lemma same_queue_refl s : same_queue s s.
Proof. repeat split. Qed.

Lemma same_queue_trans s1 s2 s3 :
  same_queue s1 s2 -> same_queue s2 s3 -> same_queue s1 s3.
Proof.
  intros (A1 & A2 & A3 & A4 & A5) (B1 & B2 & B3 & B4 & B5).
  repeat split; congruence.
Qed.

Lemma same_queue_pause id s : same_queue s (pause id s).
Proof.
  repeat split. - unfold dequeued. simpl. now rewrite shifted_app, app_nil_r.
  - unfold queue_started. simpl. apply silence_sources.
Qed.

Lemma same_queue_silence id s : same_queue s (set_audios (silence id (audios s)) s).
Proof. repeat split. unfold queue_started. simpl. apply silence_sources. Qed.

Lemma same_queue_error what s : same_queue s (record (act_error what) s).
Proof.
  repeat split. unfold dequeued. simpl. now rewrite shifted_app, app_nil_r.
Qed.

Lemma same_queue_set_audioRef v s : same_queue s (set_audioRef v s).
Proof. repeat split. Qed.

Lemma same_queue_setPlayingIndex v s : same_queue s (setPlayingIndex v s).
Proof. repeat split. Qed.

Lemma same_queue_start_manual a i s : same_queue s (start manual_handlers a i s).
Proof.
  repeat split.
  - unfold dequeued. simpl. now rewrite shifted_app, app_nil_r.
  - unfold queue_started. simpl. rewrite filter_app. simpl. now rewrite app_nil_r.
Qed.

Lemma playAudio_same_queue a i s : same_queue s (playAudio Audio_throws a i s).
Proof.
  unfold playAudio.
  set (s1 := match audioRef s with
             | Some id => set_audioRef None (pause id s)
             | None => s
             end).
  assert (H1 : same_queue s s1).
  { unfold s1. destruct (audioRef s).
    - eapply same_queue_trans; [apply same_queue_pause|apply same_queue_set_audioRef].
    - apply same_queue_refl. }
  destruct (Audio_throws a).
  - eapply same_queue_trans; [exact H1|].
    eapply same_queue_trans; [apply same_queue_error|apply same_queue_setPlayingIndex].
  - eapply same_queue_trans; [exact H1|apply same_queue_start_manual].
Qed.

Lemma stopAudio_same_queue s : same_queue s (stopAudio s).
Proof.
  unfold stopAudio. destruct (audioRef s); [|apply same_queue_refl].
  eapply same_queue_trans; [apply same_queue_pause|].
  eapply same_queue_trans; [apply same_queue_set_audioRef|apply same_queue_setPlayingIndex].
Qed.

Lemma manual_handlers_same_queue s :
  same_queue s (onended Audio_throws manual_handlers s) /\
  same_queue s (onerror Audio_throws manual_handlers s) /\
  same_queue s (onrejected Audio_throws manual_handlers s).
Proof.
  split; [|split].
  - repeat split.
  - simpl. eapply same_queue_trans; [apply same_queue_error|]. repeat split.
  - apply same_queue_refl.
Qed.

Lemma pause_not_playing id s : is_playing id (pause id s) = false.
Proof.
  unfold is_playing. simpl. rewrite silence_same.
  now destruct (nth_error (audios s) id).
Qed.

Lemma is_playing_set_audioRef j v s :
  is_playing j (set_audioRef v s) = is_playing j s.
Proof. reflexivity. Qed.

Lemma playAudio_paused s :
  only_current_playing s ->
  all_silent (match audioRef s with
              | Some id => set_audioRef None (pause id s)
              | None => s
              end).
Proof.
  intros H j. pose proof (pause_current_silent s H j) as P.
  destruct (audioRef s); [|exact P]. now rewrite is_playing_set_audioRef.
Qed.

Lemma playAudio_pauses_current a i s id x :
  audioRef s = Some id -> nth_error (audios s) id = Some x ->
  let s' := playAudio Audio_throws a i s in
  is_playing id s' = false /\
  In (act_pause id (is_playing id s)) (log s') /\
  audioRef s' <> Some id.
Proof.
  intros Ha Hn s'. unfold s', playAudio. rewrite Ha.
  assert (Hlt : id < List.length (audios s)).
  { apply nth_error_Some. congruence. }
  destruct (Audio_throws a).
  - split; [|split].
    + unfold is_playing. simpl. now rewrite silence_same, Hn.
    + simpl. apply in_or_app. left. apply in_or_app. right. now left.
    + simpl. discriminate.
  - split; [|split].
    + unfold is_playing. simpl. rewrite nth_error_app1.
      * now rewrite silence_same, Hn.
      * now rewrite silence_length.
    + simpl. apply in_or_app. left. apply in_or_app. right. now left.
    + simpl. rewrite silence_length. intros [= E]. lia.
Qed.

Lemma playAudio_starts a i s :
  Audio_throws a = false ->
  let s' := playAudio Audio_throws a i s in
  audioRef s' = Some (List.length (audios s)) /\
  playingIndex s' = Some i /\
  nth_error (audios s') (List.length (audios s))
  = Some {| src := data_url a; playing := true; installed := manual_handlers |}.
Proof.
  intros Ht s'. unfold s', playAudio. rewrite Ht.
  destruct (audioRef s) as [id|]; simpl; rewrite ?silence_length;
    (split; [reflexivity|split; [reflexivity|]]);
    rewrite nth_error_app2; rewrite ?silence_length; try lia;
    now rewrite Nat.sub_diag.
Qed.

Lemma playAudio_only_new_plays a i s :
  only_current_playing s ->
  let s' := playAudio Audio_throws a i s in
  forall j, is_playing j s' = true ->
    j = List.length (audios s) /\ audioRef s' = Some j /\ Audio_throws a = false.
Proof.
  intros Hcur s' j Hj. unfold s', playAudio in Hj |- *.
  pose proof (playAudio_paused s Hcur) as Hsil.
  set (s1 := match audioRef s with
             | Some id => set_audioRef None (pause id s)
             | None => s
             end) in *.
  assert (Hlen : List.length (audios s1) = List.length (audios s)).
  { unfold s1. destruct (audioRef s); simpl; now rewrite ?silence_length. }
  destruct (Audio_throws a).
  - exfalso. change (is_playing j s1 = true) in Hj. rewrite Hsil in Hj. discriminate.
  - apply start_playing in Hj; [|exact Hsil]. subst j.
    split; [exact Hlen|]. split; reflexivity.
Qed.

(** After a manual replay no object of the consumer is playing, and none
    plays later. *)
Lemma playAudio_silences_queue_audio a i s :
  only_current_playing s ->
  forall es id x,
    nth_error (audios (playAudio Audio_throws a i s)) id = Some x ->
    installed x = queue_handlers ->
    is_playing id (run Audio_throws es (playAudio Audio_throws a i s)) = false.
Proof.
  intros Hcur es id x Hn Hk.
  apply (no_resume_run Audio_throws es).
  - apply nth_error_Some. congruence.
  - destruct (is_playing id (playAudio Audio_throws a i s)) eqn:E; [|reflexivity].
    exfalso.
    destruct (playAudio_only_new_plays a i s Hcur id E) as (-> & _ & Ht).
    destruct (playAudio_starts a i s Ht) as (_ & _ & Hnew).
    rewrite Hnew in Hn. injection Hn as <-. discriminate Hk.
Qed.

(** What [playAudio] does to the object that [audioRef] names and to the
    queue.  [playAudio] pauses the current audio object and lets go of it,
    starts the requested payload as the current object, and leaves the
    auto-play queue as it was: same entries in the same order, same flag,
    nothing handed out, so the displaced item is not put back; whatever
    happens next, the displaced object does not play again.  When only
    the current object could be playing before, only the new one is
    playing afterwards. *)
Theorem manual_replay_leaves_queue (audioBase64 : string) (index : nat) (s : state) :
  let s' := playAudio Audio_throws audioBase64 index s in
  audioQueueRef s' = audioQueueRef s /\
  isPlayingQueueRef s' = isPlayingQueueRef s /\
  dequeued s' = dequeued s /\
  (forall id a, audioRef s = Some id -> nth_error (audios s) id = Some a ->
     is_playing id s' = false /\ In (act_pause id (is_playing id s)) (log s') /\
     audioRef s' <> Some id /\
     forall es, is_playing id (run Audio_throws es s') = false) /\
  (Audio_throws audioBase64 = false ->
     audioRef s' = Some (List.length (audios s)) /\
     playingIndex s' = Some index /\
     nth_error (audios s') (List.length (audios s))
       = Some {| src := data_url audioBase64; playing := true;
                 installed := manual_handlers |}) /\
  (only_current_playing s ->
   forall j, is_playing j s' = true ->
     j = List.length (audios s) /\ audioRef s' = Some j).
Proof.
  intros s'. destruct (playAudio_same_queue audioBase64 index s) as (H1 & H2 & H3 & _).
  fold s' in H1, H2, H3.
  split; [exact H1|]. split; [exact H2|]. split; [exact H3|].
  split; [|split].
  - intros id a Ha Hn.
    destruct (playAudio_pauses_current audioBase64 index s id a Ha Hn) as (P1 & P2 & P3).
    fold s' in P1, P2, P3.
    split; [exact P1|]. split; [exact P2|]. split; [exact P3|].
    intros es. apply (no_resume_run Audio_throws es); [|exact P1].
    destruct (no_resume_playAudio Audio_throws audioBase64 index s) as (Hlen & _).
    fold s' in Hlen.
    assert (id < List.length (audios s)) by (apply nth_error_Some; congruence).
    lia.
  - intros Ht. exact (playAudio_starts audioBase64 index s Ht).
  - intros Hcur j Hj.
    destruct (playAudio_only_new_plays audioBase64 index s Hcur j Hj) as (A & B & _).
    auto.
Qed.

End Replay.

Lemma manual_replay_leaves_queue_witness :
  let s := run Examples.never_throws [submit Examples.r1; submit Examples.r2] initial in
  let s' := playAudio Examples.never_throws (audio_base64 Examples.r2) 1 s in
  shows_stop 1 s = false /\
  audioRef s = Some 0 /\ is_playing 0 s = true /\
  is_playing 0 s' = false /\ audioQueueRef s' = audioQueueRef s /\
  audioRef s' = Some 1.
Proof.
  intros s s'.
  destruct (manual_replay_leaves_queue Examples.never_throws
              (audio_base64 Examples.r2) 1 s) as (H1 & _ & _ & H4 & H5 & _).
  destruct (H4 0 {| src := data_url (audio_base64 Examples.r1); playing := true;
                    installed := queue_handlers |} eq_refl eq_refl) as (P & _).
  destruct (H5 eq_refl) as (R & _).
  split; [reflexivity|]. split; [reflexivity|]. split; [reflexivity|].
  split; [exact P|]. split; [exact H1|exact R].
Defined.

(** C4. Where the code departs from the claim.  A payload that cannot be
    played fires the [error] event of its object and rejects its [play()]
    promise, and each of the two handlers runs the consumer.  With three
    results submitted and the first one failing so, the entries are handed
    out in order, but the second run of the consumer pauses the object that
    the first run has just started: the second result is cut off at once
    and never plays again, whatever happens later.  And since the [error]
    handler of a manual replay lets go of the current object whichever
    object failed, a late [error] event of a replaced manual object leaves
    the consumer's object playing without a name, and the next click on
    Play starts a second object beside it: two payloads play at once. *)
Theorem playback_order_is_broken_by_failures :
  (let s := run Examples.never_throws
              [submit Examples.r1; submit Examples.r2; submit Examples.r3;
               errored 0; play_rejected 0] initial in
   dequeued s = submitted s /\ audioQueueRef s = [] /\
   queue_started s = map data_url [audio_base64 Examples.r1;
                                   audio_base64 Examples.r2;
                                   audio_base64 Examples.r3] /\
   interrupted (log s) = [1] /\ is_playing 2 s = true /\
   forall es, is_playing 1 (run Examples.never_throws es s) = false) /\
  (let s := run Examples.never_throws
              [submit Examples.r1; ended 0; click_play 0; submit Examples.r2;
               errored 1; click_play 0] initial in
   is_playing 2 s = true /\ is_playing 3 s = true /\
   ~ at_most_one_playing s).
Proof.
  split.
  - cbv zeta. do 5 (split; [vm_compute; reflexivity|]).
    intros es.
    apply (no_resume_run Examples.never_throws es);
      [vm_compute; lia|vm_compute; reflexivity].
  - cbv zeta. do 2 (split; [vm_compute; reflexivity|]).
    intros Hone.
    specialize (Hone 2 3 ltac:(vm_compute; reflexivity)
                         ltac:(vm_compute; reflexivity)).
    discriminate Hone.
Qed.

(** C5. Where the code departs from the claim.  [playAudio] pauses the
    object that [audioRef] names and no other.  Once a late [error] event
    of a replaced manual object has cleared [audioRef], the object that the
    consumer started is playing and has no name; every card shows Play,
    and [playAudio], called by a click on one of them, pauses nothing and
    starts its object beside the one that plays.  The queue is left as it
    was. *)
Theorem manual_replay_can_leave_audio_playing :
  let s := run Examples.never_throws
             [submit Examples.r1; ended 0; click_play 0; submit Examples.r2;
              errored 1] initial in
  let s' := playAudio Examples.never_throws (audio_base64 Examples.r1) 0 s in
  step Examples.never_throws (click_play 0) s = s' /\
  audioRef s = None /\ is_playing 2 s = true /\
  is_playing 2 s' = true /\ is_playing 3 s' = true /\
  interrupted (log s') = interrupted (log s) /\
  audioQueueRef s' = audioQueueRef s /\ dequeued s' = dequeued s.
Proof.
  cbv zeta. repeat (split; [vm_compute; reflexivity|]).
  vm_compute. reflexivity.
Qed.



Section Errors.
Variable Audio_throws : string -> bool.

(** While the consumer is running, the effect only appends. *)
Lemma autoplay_effect_busy s :
  isPlayingQueueRef s = true ->
  autoplay_effect Audio_throws s = s \/
  exists e, autoplay_effect Audio_throws s
            = set_audioQueueRef (audioQueueRef s ++ [e]) s.
Proof.
  intros Hf. unfold autoplay_effect.
  destruct (List.length (results s)) as [|k]; [now left|].
  destruct (nth_error (results s) k) as [r|]; [|now left].
  right. eexists. cbn [isPlayingQueueRef set_audioQueueRef]. rewrite Hf. reflexivity.
Qed.

Lemma playNextInQueue_starts x i rest s :
  audioQueueRef s = (x, i) :: rest -> Audio_throws x = false ->
  let s' := playNextInQueue Audio_throws s in
  audioQueueRef s' = rest /\ isPlayingQueueRef s' = true /\
  playingIndex s' = Some i /\ dequeued s' = dequeued s ++ [(x, i)] /\
  exists id, audioRef s' = Some id /\
             nth_error (audios s') id
             = Some {| src := data_url x; playing := true;
                       installed := queue_handlers |}.
Proof.
  intros Hq Ht s'. unfold s', playNextInQueue. rewrite Hq.
  cbn [playNextInQueue_from]. rewrite Ht.
  fold (shift_state (x, i) rest s). set (s2 := shift_state (x, i) rest s).
  assert (H2 : audioQueueRef s2 = rest /\ isPlayingQueueRef s2 = true /\
               dequeued s2 = dequeued s ++ [(x, i)]).
  { unfold s2, shift_state, dequeued. simpl.
    destruct (audioRef s); simpl; rewrite ?shifted_app, ?app_nil_r; auto. }
  destruct H2 as (A & B & C).
  split; [exact A|]. split; [exact B|]. split; [reflexivity|]. split.
  - unfold dequeued. simpl. rewrite shifted_app, app_nil_r. exact C.
  - exists (List.length (audios s2)). split; [reflexivity|].
    simpl. rewrite nth_error_app2 by lia. now rewrite Nat.sub_diag.
Qed.

(** The consumer's flag is cleared only over an empty queue, whatever
    happens. *)
Lemma idle_only_when_empty e s :
  isPlayingQueueRef s = true ->
  isPlayingQueueRef (step Audio_throws e s) = false ->
  audioQueueRef (step Audio_throws e s) = [].
Proof.
  intros Hf.
  assert (Hnext : forall s0,
    isPlayingQueueRef (playNextInQueue Audio_throws s0) = false ->
    audioQueueRef (playNextInQueue Audio_throws s0) = []).
  { intros s0. now destruct (playNextInQueue_from_progress Audio_throws
                               (audioQueueRef s0) s0 eq_refl) as (_ & _ & _ & H & _). }
  assert (Hsame : forall s', same_queue s s' ->
    isPlayingQueueRef s' = false -> audioQueueRef s' = []).
  { intros s' (_ & H & _) H'. congruence. }
  destruct e as [r|rs|id|id|id|i|]; cbn [step].
  - rewrite autoplay_effect_push. cbv zeta. rewrite Hf. simpl. congruence.
  - destruct (Nat.eqb (List.length rs) (List.length (results s))); [simpl; congruence|].
    destruct (autoplay_effect_busy (set_results rs s) Hf)
      as [-> | (x & ->)]; simpl; congruence.
  - destruct (nth_error (audios s) id) as [a|]; [|congruence].
    destruct (playing a); [|congruence].
    destruct (installed a); [apply Hnext|].
    apply Hsame. eapply same_queue_trans; [apply same_queue_silence|].
    apply manual_handlers_same_queue.
  - destruct (nth_error (audios s) id) as [a|]; [|congruence].
    destruct (installed a); [apply Hnext|].
    apply Hsame. eapply same_queue_trans; [apply same_queue_silence|].
    apply manual_handlers_same_queue.
  - destruct (nth_error (audios s) id) as [a|]; [|congruence].
    destruct (installed a); [apply Hnext|].
    apply Hsame. eapply same_queue_trans; [apply same_queue_silence|].
    apply manual_handlers_same_queue.
  - destruct (nth_error (results s) i); [|congruence].
    destruct (shows_stop i s); [congruence|].
    apply Hsame, playAudio_same_queue.
  - destruct (stop_button s); [|congruence].
    apply Hsame, stopAudio_same_queue.
Qed.

(** C6. When an object that [playNextInQueue] started fails (its [error]
    event fires or its [play()] promise rejects), the error is logged and
    the consumer runs at once: it hands out the head of the queue and
    starts it as the current object, the queue is at least one entry
    shorter, and with an empty queue the consumer goes idle.  The consumer
    is idle afterwards only with an empty queue, and no event at all
    clears the consumer's flag over a non-empty queue. *)
Theorem playback_error_advances (id : nat) (a : audio) (s : state) (e : event) :
  nth_error (audios s) id = Some a -> installed a = queue_handlers ->
  e = errored id \/ e = play_rejected id ->
  let s' := step Audio_throws e s in
  (exists what more, log s' = log s ++ act_error what :: more) /\
  (forall x i rest,
      audioQueueRef s = (x, i) :: rest -> Audio_throws x = false ->
      audioQueueRef s' = rest /\ isPlayingQueueRef s' = true /\
      playingIndex s' = Some i /\ dequeued s' = dequeued s ++ [(x, i)] /\
      exists id', audioRef s' = Some id' /\
                  nth_error (audios s') id'
                  = Some {| src := data_url x; playing := true;
                            installed := queue_handlers |}) /\
  List.length (audioQueueRef s') <= pred (List.length (audioQueueRef s)) /\
  (audioQueueRef s = [] -> isPlayingQueueRef s' = false /\ playingIndex s' = None) /\
  (isPlayingQueueRef s' = false -> audioQueueRef s' = []) /\
  (forall x i rest s0,
      audioQueueRef s0 = (x, i) :: rest -> Audio_throws x = true ->
      playNextInQueue Audio_throws s0
      = playNextInQueue Audio_throws
          (record (act_error "Error playing audio:") (shift_state (x, i) rest s0))) /\
  (forall e0 s0,
      isPlayingQueueRef s0 = true ->
      isPlayingQueueRef (step Audio_throws e0 s0) = false ->
      audioQueueRef (step Audio_throws e0 s0) = []).
Proof.
  intros Hn Hk He s'.
  assert (Hs' : exists what,
    s' = playNextInQueue Audio_throws
           (record (act_error what) (set_audios (silence id (audios s)) s))).
  { unfold s'. destruct He as [-> | ->]; cbn [step]; rewrite Hn, Hk; simpl; eauto. }
  destruct Hs' as (what & Hs'). set (s0 := record (act_error what) _) in Hs'.
  destruct (playNextInQueue_from_progress Audio_throws (audioQueueRef s0) s0 eq_refl)
    as (_ & Hlen & Hnil & Hidle & (more & Hlog)).
  fold (playNextInQueue Audio_throws s0) in Hlen, Hnil, Hidle, Hlog.
  rewrite <- Hs' in Hlen, Hnil, Hidle, Hlog.
  change (audioQueueRef s0) with (audioQueueRef s) in Hlen, Hnil.
  split; [|split; [|split; [|split; [|split; [|split]]]]].
  - exists what, more. rewrite Hlog. simpl. now rewrite <- app_assoc.
  - intros x i rest Hq Ht.
    destruct (playNextInQueue_starts x i rest s0 Hq Ht) as (A & B & C & D & E).
    rewrite <- Hs' in A, B, C, D, E.
    split; [exact A|]. split; [exact B|]. split; [exact C|]. split; [|exact E].
    rewrite D. unfold dequeued. simpl. now rewrite shifted_app, app_nil_r.
  - exact Hlen.
  - exact Hnil.
  - exact Hidle.
  - intros x i rest s1 Hq Ht. unfold playNextInQueue at 1. rewrite Hq.
    cbn [playNextInQueue_from]. rewrite Ht. fold (shift_state (x, i) rest s1).
    unfold playNextInQueue. f_equal.
    unfold shift_state. simpl. now destruct (audioRef s1).
  - intros e0 s1. apply idle_only_when_empty.
Qed.

End Errors.

Lemma playback_error_advances_witness :
  let s := run Examples.never_throws [submit Examples.r1; submit Examples.r2] initial in
  let s' := step Examples.never_throws (errored 0) s in
  audioQueueRef s = [(audio_base64 Examples.r2, 1)] /\
  audioQueueRef s' = [] /\ isPlayingQueueRef s' = true /\ playingIndex s' = Some 1.
Proof.
  intros s s'.
  destruct (playback_error_advances Examples.never_throws 0
              {| src := data_url (audio_base64 Examples.r1); playing := true;
                 installed := queue_handlers |} s (errored 0)
              eq_refl eq_refl (or_introl eq_refl)) as (_ & H2 & _).
  destruct (H2 (audio_base64 Examples.r2) 1 [] eq_refl eq_refl) as (A & B & C & _).
  split; [reflexivity|]. split; [exact A|]. split; [exact B|exact C].
Defined.


Section Stall.
Variable Audio_throws : string -> bool.

Lemma grown_of_same_queue s s' : same_queue s s' -> grown s s'.
Proof.
  intros (A & B & C & D & E). repeat split; auto.
  exists []. now rewrite app_nil_r.
Qed.

Lemma grown_trans s1 s2 s3 : grown s1 s2 -> grown s2 s3 -> grown s1 s3.
Proof.
  intros (A1 & A2 & A3 & (l1 & A4)) (B1 & B2 & B3 & (l2 & B4)).
  repeat split; try congruence.
  exists (l1 ++ l2). now rewrite B4, A4, app_assoc.
Qed.

Lemma quiet_step e s :
  isPlayingQueueRef s = true ->
  fires_queue_handler e s = false ->
  grown s (step Audio_throws e s).
Proof.
  intros Hf Hq. destruct e as [r|rs|id|id|id|i|]; cbn [step].
  - rewrite autoplay_effect_push. cbv zeta. rewrite Hf. cbn [negb].
    repeat split. eexists. reflexivity.
  - destruct (Nat.eqb (List.length rs) (List.length (results s))).
    + repeat split. exists []. simpl. now rewrite app_nil_r.
    + destruct (autoplay_effect_busy Audio_throws (set_results rs s) Hf)
        as [-> | (x & ->)]; repeat split.
      * exists []. simpl. now rewrite app_nil_r.
      * now exists [x].
  - simpl in Hq. destruct (nth_error (audios s) id) as [[sr pl k]|];
      [|apply grown_of_same_queue, same_queue_refl].
    cbn [playing installed]. destruct pl; [|apply grown_of_same_queue, same_queue_refl].
    destruct k; [discriminate Hq|].
    apply grown_of_same_queue.
    eapply same_queue_trans; [apply same_queue_silence|].
    apply manual_handlers_same_queue.
  - simpl in Hq. destruct (nth_error (audios s) id) as [[sr pl k]|];
      [|apply grown_of_same_queue, same_queue_refl].
    cbn [installed]. destruct k; [discriminate Hq|].
    apply grown_of_same_queue.
    eapply same_queue_trans; [apply same_queue_silence|].
    apply manual_handlers_same_queue.
  - simpl in Hq. destruct (nth_error (audios s) id) as [[sr pl k]|];
      [|apply grown_of_same_queue, same_queue_refl].
    cbn [installed]. destruct k; [discriminate Hq|].
    apply grown_of_same_queue.
    eapply same_queue_trans; [apply same_queue_silence|].
    apply manual_handlers_same_queue.
  - destruct (nth_error (results s) i);
      [|apply grown_of_same_queue, same_queue_refl].
    destruct (shows_stop i s); apply grown_of_same_queue;
      [apply same_queue_refl|apply playAudio_same_queue].
  - destruct (stop_button s); apply grown_of_same_queue;
      [apply stopAudio_same_queue|apply same_queue_refl].
Qed.

Lemma quiet_run es : forall s,
  isPlayingQueueRef s = true ->
  quiet Audio_throws es s = true ->
  grown s (run Audio_throws es s).
Proof.
  induction es as [|e es IH]; intros s Hf Hq.
  - apply grown_of_same_queue, same_queue_refl.
  - simpl in Hq. apply andb_prop in Hq. destruct Hq as [Hq1 Hq2].
    apply negb_true_iff in Hq1.
    pose proof (quiet_step e s Hf Hq1) as G.
    simpl. eapply grown_trans; [exact G|]. apply IH; [|exact Hq2].
    destruct G as (-> & _). exact Hf.
Qed.

(** C10. [playAudio] and the handlers it installs leave the queue, the
    consumer's flag and the entries handed out as they are.  So when a
    manual replay interrupts auto-play (the flag is true) and no handler of
    [playNextInQueue] fires afterwards, then through any further manual
    plays and stops, ends and failures of manually started objects, and new
    submissions, the flag stays true, no queued entry is handed out or
    started, and the queue is the old queue followed by the new entries.
    After the interruption no object of the consumer is playing, so none
    of them can reach its end and run the consumer. *)
Theorem queue_stalls_after_manual_replay
        (audioBase64 : string) (index : nat) (s : state) (es : list event) :
  isPlayingQueueRef s = true ->
  quiet Audio_throws es (playAudio Audio_throws audioBase64 index s) = true ->
  let s' := run Audio_throws es (playAudio Audio_throws audioBase64 index s) in
  isPlayingQueueRef s' = true /\
  dequeued s' = dequeued s /\
  queue_started s' = queue_started s /\
  (exists later, audioQueueRef s' = audioQueueRef s ++ later) /\
  (forall s0,
      same_queue s0 (playAudio Audio_throws audioBase64 index s0) /\
      same_queue s0 (onended Audio_throws manual_handlers s0) /\
      same_queue s0 (onerror Audio_throws manual_handlers s0) /\
      same_queue s0 (onrejected Audio_throws manual_handlers s0)) /\
  (only_current_playing s ->
   forall es' id a,
     nth_error (audios (playAudio Audio_throws audioBase64 index s)) id = Some a ->
     installed a = queue_handlers ->
     is_playing id (run Audio_throws es'
                      (playAudio Audio_throws audioBase64 index s)) = false).
Proof.
  intros Hf Hq s'.
  pose proof (playAudio_same_queue Audio_throws audioBase64 index s) as P.
  assert (Hf1 : isPlayingQueueRef (playAudio Audio_throws audioBase64 index s) = true).
  { destruct P as (_ & -> & _). exact Hf. }
  pose proof (grown_trans _ _ _ (grown_of_same_queue _ _ P)
                (quiet_run es _ Hf1 Hq)) as (A & B & C & D).
  fold s' in A, B, C, D.
  split; [congruence|]. split; [exact B|]. split; [exact C|]. split; [exact D|].
  split.
  - intros s0. split; [apply playAudio_same_queue|apply manual_handlers_same_queue].
  - intros Hcur es' id a. now apply playAudio_silences_queue_audio.
Qed.

End Stall.

Lemma queue_stalls_after_manual_replay_witness :
  let s := run Examples.never_throws [submit Examples.r1; submit Examples.r2] initial in
  let es := [ended 1; submit Examples.r3] in
  let s' := run Examples.never_throws es
              (playAudio Examples.never_throws (audio_base64 Examples.r2) 1 s) in
  step Examples.never_throws (click_play 1) s
    = playAudio Examples.never_throws (audio_base64 Examples.r2) 1 s /\
  isPlayingQueueRef s = true /\
  quiet Examples.never_throws es
        (playAudio Examples.never_throws (audio_base64 Examples.r2) 1 s) = true /\
  isPlayingQueueRef s' = true /\ dequeued s' = dequeued s /\
  forallb (fun a => negb (playing a)) (audios s') = true /\
  audioQueueRef s' = [(audio_base64 Examples.r2, 1); (audio_base64 Examples.r3, 2)].
Proof.
  intros s es s'.
  destruct (queue_stalls_after_manual_replay Examples.never_throws
              (audio_base64 Examples.r2) 1 s es eq_refl eq_refl) as (A & B & _).
  split; [reflexivity|]. split; [reflexivity|]. split; [reflexivity|].
  split; [exact A|]. split; [exact B|]. split; reflexivity.
Defined.

(** The entries that wait need not stay enqueued after a manual replay
    has interrupted auto-play.  The handlers of the interrupted object are
    those of [playNextInQueue].  When its [play()] promise rejects (as it
    does when [pause()] arrives before playback has begun), or when its
    [error] event fires after the manual playback has ended, the consumer
    runs: it hands out the entry that waited and starts it, and in the
    first case cuts the manual replay off. *)
Lemma interrupted_object_restarts_the_queue :
  let s := run Examples.never_throws [submit Examples.r1; submit Examples.r2] initial in
  let s1 := playAudio Examples.never_throws (audio_base64 Examples.r2) 1 s in
  let s2 := run Examples.never_throws [play_rejected 0] s1 in
  let s3 := run Examples.never_throws [ended 1; errored 0] s1 in
  (step Examples.never_throws (click_play 1) s = s1 /\
   isPlayingQueueRef s = true /\ interrupted (log s1) = [0] /\
   audioQueueRef s1 = [(audio_base64 Examples.r2, 1)]) /\
  (quiet Examples.never_throws [play_rejected 0] s1 = false /\
   audioQueueRef s2 = [] /\
   dequeued s2 = [(audio_base64 Examples.r1, 0); (audio_base64 Examples.r2, 1)] /\
   is_playing 2 s2 = true /\ interrupted (log s2) = [0; 1]) /\
  (all_silent (run Examples.never_throws [ended 1] s1) /\
   audioQueueRef s3 = [] /\ is_playing 2 s3 = true).
Proof.
  cbv zeta. split; [|split].
  - repeat (split; [vm_compute; reflexivity|]). vm_compute. reflexivity.
  - repeat (split; [vm_compute; reflexivity|]). vm_compute. reflexivity.
  - split; [|split; vm_compute; reflexivity].
    intros [|[|[|j]]]; vm_compute; reflexivity.
Qed.



End PlaybackFacts.

(* ===================================================================== *)
(** * More properties of the sample encoder *)
(* ===================================================================== *)

Section EncoderMore.
Import JS Encoder Design.

Lemma div_cross n1 d1 n2 d2 :
  (0 < d1 -> 0 < d2 -> n1 * d2 <= n2 * d1 -> n1 / d1 <= n2 / d2)%Z.
Proof.
  intros H1 H2 H.
  rewrite <- (Z.div_mul_cancel_r n1 d1 d2) by lia.
  rewrite <- (Z.div_mul_cancel_r n2 d2 d1) by lia.
  rewrite (Z.mul_comm d2 d1). apply Z.div_le_mono; lia.
Qed.

Lemma Qtrunc_monotone q1 q2 : q1 <= q2 -> (Qtrunc q1 <= Qtrunc q2)%Z.
Proof.
  destruct q1 as [n1 d1], q2 as [n2 d2]. unfold Qle, Qtrunc. simpl. intros H.
  pose proof (Pos2Z.is_pos d1) as P1. pose proof (Pos2Z.is_pos d2) as P2.
  destruct (Z.le_gt_cases 0 n1) as [A|A], (Z.le_gt_cases 0 n2) as [B|B].
  - rewrite !Z.quot_div_nonneg by lia. apply div_cross; lia.
  - exfalso. nia.
  - transitivity 0%Z.
    + rewrite <- (Z.opp_involutive n1), Z.quot_opp_l by lia.
      pose proof (Z.quot_pos (- n1) (Z.pos d1)). lia.
    + apply Z.quot_pos; lia.
  - rewrite <- (Z.opp_involutive n1), <- (Z.opp_involutive n2).
    rewrite (Z.quot_opp_l (- n1)), (Z.quot_opp_l (- n2)) by lia.
    rewrite !Z.quot_div_nonneg by lia.
    apply -> Z.opp_le_mono. apply div_cross; lia.
Qed.

Lemma clamp_monotone q1 q2 : q1 <= q2 -> clamp q1 <= clamp q2.
Proof.
  intros H. unfold clamp.
  apply Q.max_le_compat_l. apply Q.min_le_compat_l. exact H.
Qed.

Lemma scale_monotone c1 c2 : c1 <= c2 -> scale c1 <= scale c2.
Proof.
  intros H. unfold scale.
  destruct (Qlt_le_dec c1 0) as [L1|L1], (Qlt_le_dec c2 0) as [L2|L2].
  - apply Qmult_le_compat_r; [exact H|discriminate].
  - apply Qle_trans with 0.
    + setoid_replace 0 with (0 * inject_Z 32768) by reflexivity.
      apply Qmult_le_compat_r; [apply Qlt_le_weak; exact L1|discriminate].
    + apply Qmult_le_0_compat; [exact L2|discriminate].
  - exfalso. apply (Qlt_irrefl 0). apply Qle_lt_trans with c1; [exact L1|].
    apply Qle_lt_trans with c2; assumption.
  - apply Qmult_le_compat_r; [exact H|discriminate].
Qed.

Lemma clamp_high q : 1 <= q -> clamp q == 1.
Proof.
  intros H. unfold clamp. rewrite Q.min_l by exact H.
  apply Q.max_r. discriminate.
Qed.

Lemma clamp_low q : q <= inject_Z (-1) -> clamp q == inject_Z (-1).
Proof.
  intros H. unfold clamp.
  rewrite Q.min_r by (apply Qle_trans with (inject_Z (-1)); [exact H|discriminate]).
  apply Q.max_l. exact H.
Qed.

(** X1. The quantizer preserves the order of the samples and saturates: a
    sample of 1.0 or more, also an infinite one, becomes 32767, a sample of
    -1.0 or less becomes -32768, and NaN becomes 0; no input wraps
    around. *)
Theorem quantize_monotone_saturating :
  (forall q1 q2, q1 <= q2 -> (quantize (Fin q1) <= quantize (Fin q2))%Z) /\
  (forall q, 1 <= q -> quantize (Fin q) = 32767%Z) /\
  (forall q, q <= inject_Z (-1) -> quantize (Fin q) = (-32768)%Z) /\
  quantize PosInf = 32767%Z /\ quantize NegInf = (-32768)%Z /\
  quantize NaN = 0%Z.
Proof.
  split; [|split; [|split; [|repeat split]]].
  - intros q1 q2 H. rewrite !quantize_refines. unfold quantize_spec.
    apply Qtrunc_monotone, scale_monotone, clamp_monotone, H.
  - intros q H. apply Z.le_antisymm; [apply quantize_range|].
    rewrite <- (quantize_one 1) by reflexivity.
    rewrite !quantize_refines. unfold quantize_spec.
    apply Qtrunc_monotone, scale_monotone, clamp_monotone, H.
  - intros q H. apply Z.le_antisymm; [|apply quantize_range].
    rewrite <- (quantize_minus_one (inject_Z (-1))) by reflexivity.
    rewrite !quantize_refines. unfold quantize_spec.
    apply Qtrunc_monotone, scale_monotone, clamp_monotone, H.
Qed.

Lemma quantize_monotone_saturating_witness :
  (quantize (Fin (1 # 4)) <= quantize (Fin (1 # 2)))%Z /\
  quantize (Fin (3 # 2)) = 32767%Z /\
  quantize (Fin (-7 # 2)) = (-32768)%Z.
Proof.
  destruct quantize_monotone_saturating as (Hm & Hhi & Hlo & _).
  split; [apply Hm; discriminate|].
  split; [apply Hhi; discriminate|apply Hlo; discriminate].
Defined.


Import TextSafe.

Lemma base64_char_b64char n : (n < 64)%N -> base64_char (b64char n) = true.
Proof. intros H. unfold base64_char. now rewrite b64val_b64char. Qed.

Lemma btoa_shape n : forall s, (String.length s <= n)%nat ->
  String.length (btoa s) = (4 * ((String.length s + 2) / 3))%nat /\
  forallb base64_char (list_ascii_of_string (btoa s)) = true.
Proof.
  induction n as [n IH] using lt_wf_ind. intros s Hs.
  destruct s as [|a [|b [|c rest]]].
  - split; reflexivity.
  - pose proof (N_ascii_bounded a).
    cbn [btoa]. cbv zeta. split; [reflexivity|].
    cbn [list_ascii_of_string forallb].
    rewrite !base64_char_b64char by div_lia. reflexivity.
  - pose proof (N_ascii_bounded a). pose proof (N_ascii_bounded b).
    cbn [btoa]. cbv zeta. split; [reflexivity|].
    cbn [list_ascii_of_string forallb].
    rewrite !base64_char_b64char by div_lia. reflexivity.
  - pose proof (N_ascii_bounded a). pose proof (N_ascii_bounded b).
    pose proof (N_ascii_bounded c).
    destruct (IH (String.length rest)) with (s := rest) as (Hl & Ha);
      [simpl in Hs; lia|lia|].
    cbn [btoa]. cbv zeta. split.
    + cbn [String.length]. rewrite Hl.
      replace (S (S (S (String.length rest))) + 2)%nat
        with (String.length rest + 2 + 1 * 3)%nat by lia.
      rewrite Nat.div_add by lia. lia.
    + cbn [list_ascii_of_string forallb].
      rewrite !base64_char_b64char by div_lia. exact Ha.
Qed.

Lemma fromCharCode_apply_length bytes :
  String.length (fromCharCode_apply bytes) = List.length bytes.
Proof.
  unfold fromCharCode_apply. induction bytes as [|b l IH]; simpl; congruence.
Qed.

Lemma window_length (bytes : list byte) i :
  (List.length (subarray bytes i
                  (Nat.min (i + chunkSize) (List.length bytes)))
   <= chunkSize)%nat.
Proof. rewrite subarray_window. apply firstn_le_length. Qed.

Lemma limited_loop_returns limit bytes :
  (chunkSize <= limit)%nat ->
  forall fuel i binary,
    (List.length bytes - i <= fuel)%nat ->
    ArgumentLimit.binaryLoop limit fuel bytes i binary =
    ArgumentLimit.returns
      (String.append binary (fromCharCode_apply (skipn i bytes))).
Proof.
  intros Hl. pose proof chunkSize_pos as Hw.
  induction fuel as [|fuel IH]; intros i binary Hf.
  - simpl. destruct (Nat.ltb_spec i (List.length bytes)); [lia|].
    rewrite skipn_all2 by lia. cbn. now rewrite append_empty_r.
  - cbn [ArgumentLimit.binaryLoop].
    destruct (Nat.ltb_spec i (List.length bytes)).
    + cbv zeta. unfold ArgumentLimit.fromCharCode_apply.
      pose proof (window_length bytes i) as Hc.
      destruct (Nat.ltb_spec limit
                  (List.length (subarray bytes i
                     (Nat.min (i + chunkSize) (List.length bytes)))));
        [lia|].
      rewrite IH by lia. rewrite subarray_window, append_assoc.
      rewrite <- fromCharCode_apply_app.
      rewrite <- (Nat.add_comm chunkSize i), <- skipn_skipn, firstn_skipn.
      reflexivity.
    + rewrite skipn_all2 by lia. cbn. now rewrite append_empty_r.
Qed.

(** X2. The window is what keeps the encoder from throwing.  On an engine
    that accepts at least 8192 arguments in one call, the loop returns for
    every byte array, whatever its length, with the text of the whole
    array (so the encoder without the bound describes it); a single
    [String.fromCharCode.apply] on the whole array throws a [RangeError]
    as soon as the array is longer than the engine's bound. *)
Theorem windows_stay_within_the_argument_limit
        (limit : nat) (bytes : list byte) :
  (chunkSize <= limit)%nat ->
  ArgumentLimit.encode limit bytes
    = ArgumentLimit.returns (btoa (fromCharCode_apply bytes)) /\
  encode bytes = Some (btoa (fromCharCode_apply bytes)) /\
  ((limit < List.length bytes)%nat ->
   ArgumentLimit.fromCharCode_apply limit bytes = ArgumentLimit.RangeError).
Proof.
  intros Hl. split; [|split].
  - unfold ArgumentLimit.encode.
    rewrite (limited_loop_returns limit bytes Hl) by lia. reflexivity.
  - apply encode_whole.
  - intros Hlong. unfold ArgumentLimit.fromCharCode_apply.
    destruct (Nat.ltb_spec limit (List.length bytes)); [reflexivity|lia].
Qed.

Lemma windows_stay_within_the_argument_limit_witness :
  (chunkSize <= chunkSize)%nat /\
  ArgumentLimit.encode chunkSize
    ["001"%byte; "002"%byte; "003"%byte; "004"%byte]
  = ArgumentLimit.returns "AQIDBA==".
Proof.
  split; [apply le_n|].
  apply (windows_stay_within_the_argument_limit chunkSize
           ["001"%byte; "002"%byte; "003"%byte; "004"%byte]).
  apply le_n.
Defined.

(** X3. The text of n bytes has 4 * ceil(n / 3) characters, each a digit of
    the base64 alphabet or the padding character. *)
Theorem encoded_text_shape (bytes : list byte) (text : string) :
  encode bytes = Some text ->
  String.length text = (4 * ((List.length bytes + 2) / 3))%nat /\
  forallb base64_char (list_ascii_of_string text) = true.
Proof.
  intros H. destruct (encode_then_decode bytes) as (He & _).
  rewrite He in H. injection H as <-.
  rewrite <- (fromCharCode_apply_length bytes).
  apply (btoa_shape (String.length (fromCharCode_apply bytes))). lia.
Qed.

Lemma encoded_text_shape_witness :
  String.length "AQIDBA==" = 8%nat /\
  forallb base64_char (list_ascii_of_string "AQIDBA==") = true.
Proof.
  apply (encoded_text_shape ["001"%byte; "002"%byte; "003"%byte; "004"%byte]).
  reflexivity.
Defined.

End EncoderMore.

(* ===================================================================== *)
(** * More properties of the chunker *)
(* ===================================================================== *)

Section ChunkerMore.
Import JS Encoder Common Recorder RecorderComponent.
Local Open Scope nat_scope.

(** X4. The payload of an [audio_chunk] message built from k samples decodes
    to the k quantized samples, in order; it has 4 * ceil(2k / 3)
    characters. *)
Theorem sample_payload_round_trip (combined : list number) :
  exists text,
    encodeSamples combined = Some text /\
    decodeSamples text = Some (map quantize combined) /\
    String.length text = 4 * ((2 * List.length combined + 2) / 3).
Proof.
  destruct (decode_encodeSamples combined) as (text & He & Hd).
  exists text. split; [exact He|]. split; [exact Hd|].
  unfold encodeSamples in He.
  destruct (encode_then_decode (Uint8Array_of_Int16 (int16Array combined)))
    as (He' & _).
  rewrite He' in He. injection He as <-.
  destruct (btoa_shape _ (fromCharCode_apply
                            (Uint8Array_of_Int16 (int16Array combined)))
              (Nat.le_refl _)) as (-> & _).
  rewrite fromCharCode_apply_length, Uint8Array_of_Int16_length, int16Array_length.
  reflexivity.
Qed.

Lemma skipped_chunks_app e1 e2 :
  skipped_chunks (e1 ++ e2) = skipped_chunks e1 + skipped_chunks e2.
Proof.
  induction e1 as [|e l IH]; [reflexivity|].
  destruct e; simpl; rewrite IH; reflexivity.
Qed.

Lemma emitted_sample_count_app e1 e2 :
  emitted_sample_count (e1 ++ e2)
  = emitted_sample_count e1 + emitted_sample_count e2.
Proof.
  rewrite !emitted_sample_count_length, emitted_samples_app.
  apply length_app.
Qed.

(** One frame, whatever the socket does. *)
Lemma onaudioprocess_frame connected f c :
  let T := samplesPerChunk (sampleRate c) in
  let all := List.concat (audioBuffer c) ++ f in
  let (c', effs) := onaudioprocess connected f c in
  sampleRate c' = sampleRate c /\
  ((T <= Z.of_nat (List.length all))%Z /\ audioBuffer c' = [] /\
   emitted_sample_count effs = (if connected then List.length all else 0) /\
   skipped_chunks effs = (if connected then 0 else 1)
   \/
   (Z.of_nat (List.length all) < T)%Z /\ List.concat (audioBuffer c') = all /\
   emitted_sample_count effs = 0 /\ skipped_chunks effs = 0).
Proof.
  intros T all. unfold onaudioprocess.
  assert (Hall : List.concat (audioBuffer c ++ [f]) = all).
  { rewrite concat_app. simpl. now rewrite app_nil_r. }
  rewrite totalSamples_concat, Hall.
  fold T. destruct (Z.leb_spec T (Z.of_nat (List.length all))) as [H|H].
  - assert (Hcomb : combine (audioBuffer c ++ [f]) (List.length all) = all).
    { rewrite <- Hall at 1. now rewrite <- totalSamples_concat, combine_concat. }
    rewrite Hcomb.
    destruct (decode_encodeSamples all) as (text & He & Hd). rewrite He.
    split; [reflexivity|]. left. split; [exact H|]. split; [reflexivity|].
    destruct connected.
    + split; [|reflexivity].
      unfold emitted_sample_count. simpl. rewrite Hd. simpl.
      rewrite int16Array_length. lia.
    + split; reflexivity.
  - split; [reflexivity|]. right. split; [exact H|]. split; [exact Hall|].
    split; reflexivity.
Qed.

Lemma capture_run sr F : forall es s,
  (0 < samplesPerChunk sr)%Z ->
  Forall (fun f : list number => List.length f = F) (frames_of es) ->
  capturing sr s ->
  let T := samplesPerChunk sr in
  let (s', effs) := Recorder.run es s in
  mode s' = mode s /\ capturing sr s' /\
  exists lost : Z,
    (Z.of_nat (List.length (buffered s)) + Z.of_nat (List.length (frames_of es) * F)
     = Z.of_nat (emitted_sample_count effs)
       + Z.of_nat (List.length (buffered s')) + lost)%Z /\
    (Z.of_nat (skipped_chunks effs) * T <= lost)%Z /\
    (lost <= Z.of_nat (skipped_chunks effs) * (T + Z.of_nat F - 1))%Z.
Proof.
  induction es as [|e es IH]; intros s HT HF Hs T.
  - simpl. split; [reflexivity|]. split; [exact Hs|]. exists 0%Z.
    unfold emitted_sample_count. simpl. lia.
  - cbn [Recorder.run]. destruct e as [f|up].
    + cbn [frames_of] in HF. inversion HF as [|? ? Hf HF']; subst.
      destruct Hs as ((c & Hp & Hsr) & Hb).
      cbn [Recorder.step]. unfold audioprocess_event. rewrite Hp.
      pose proof (onaudioprocess_frame (socket_connected s) f c) as H1.
      cbv zeta in H1.
      destruct (onaudioprocess (socket_connected s) f c) as [c' effs1].
      destruct H1 as (Hsr' & Hcase). rewrite Hsr in *. fold T in Hcase.
      assert (Hbs : buffered s = List.concat (audioBuffer c)).
      { unfold buffered. now rewrite Hp. }
      match goal with |- context [Recorder.run es ?s1] => set (s1' := s1) end.
      assert (Hb1 : buffered s1' = List.concat (audioBuffer c')) by reflexivity.
      assert (Hs1 : capturing sr s1').
      { split; [exists c'; split; [reflexivity|congruence]|].
        rewrite Hb1.
        destruct Hcase as [(_ & -> & _)|(Hlt & -> & _)]; [simpl; lia|exact Hlt]. }
      specialize (IH s1' HT HF' Hs1). cbv zeta in IH.
      destruct (Recorder.run es s1') as [s2 effs2].
      destruct IH as (Hm2 & Hs2 & lost & Heq & Hlo & Hhi).
      split; [exact Hm2|]. split; [exact Hs2|].
      rewrite emitted_sample_count_app, skipped_chunks_app.
      cbn [frames_of List.length]. rewrite Hb1 in Heq. rewrite Hbs in *.
      fold T in Hb.
      destruct Hcase as [(Hge & Hb1' & He1 & Hw1)|(Hlt & Hb1' & He1 & Hw1)].
      * rewrite Hb1' in Heq. cbn [List.concat List.length] in Heq.
        rewrite He1, Hw1. rewrite length_app in *.
        destruct (socket_connected s).
        -- exists lost. lia.
        -- exists (lost + Z.of_nat (List.length (List.concat (audioBuffer c))
                                  + List.length f))%Z.
           nia.
      * rewrite Hb1' in Heq. rewrite He1, Hw1. rewrite length_app in *.
        exists lost. lia.
    + cbn [frames_of] in HF. cbn [Recorder.step]. unfold socket_event.
      match goal with |- context [Recorder.run es ?s1] => set (s1' := s1) end.
      assert (Hs1 : capturing sr s1') by exact Hs.
      specialize (IH s1' HT HF Hs1). cbv zeta in IH.
      destruct (Recorder.run es s1') as [s2 effs2].
      destruct IH as (Hm2 & Hs2 & lost & Heq & Hlo & Hhi).
      split; [exact Hm2|]. split; [exact Hs2|].
      exists lost. rewrite emitted_sample_count_app, skipped_chunks_app.
      cbn [frames_of]. change (buffered s1') with (buffered s) in Heq.
      unfold emitted_sample_count at 1. unfold skipped_chunks at 1.
      unfold skipped_chunks at 2. simpl. lia.
Qed.

(** X5. In a streaming session whose socket may drop and come back, with
    frames of F samples and a positive threshold T: the captured samples
    that are neither in an emitted chunk nor left in the buffer at the stop
    are those of the chunks skipped while the socket was down, at least T
    and fewer than T + F for each warning; without a warning nothing else
    is lost. *)
Theorem skipped_chunks_account_for_losses p sr F es s :
  mode s = realtime -> socket_connected s = true ->
  (0 < samplesPerChunk sr)%Z ->
  Forall (fun f : list number => List.length f = F) (frames_of es) ->
  let T := samplesPerChunk sr in
  let r := session p (mic_resolves sr) es s in
  let captured := Z.of_nat (List.length (frames_of es) * F) in
  let received := Z.of_nat (emitted_sample_count (session_effects r)) in
  let left := Z.of_nat (List.length (buffered (before_stop r))) in
  let w := Z.of_nat (skipped_chunks (session_effects r)) in
  (w * T <= captured - received - left <= w * (T + Z.of_nat F - 1))%Z /\
  (left < T)%Z.
Proof.
  intros Hm Hc HT HF T. cbv zeta.
  unfold session, startRecording. rewrite Hm, Hc.
  match goal with |- context [Recorder.run _ ?s1] => set (s1' := s1) end.
  assert (Hs1 : capturing sr s1').
  { split; [eexists; split; reflexivity|]. simpl. exact HT. }
  pose proof (capture_run sr F es s1' HT HF Hs1) as H. cbv zeta in H.
  destruct (Recorder.run es s1') as [s2 effs2].
  destruct H as (_ & Hs2 & lost & Heq & Hlo & Hhi).
  destruct (stopRecording s2) as [s3 effs3] eqn:E3.
  assert (Hstop : emitted_sample_count effs3 = 0 /\ skipped_chunks effs3 = 0).
  { unfold stopRecording in E3. injection E3 as _ <-.
    destruct (mode s2), (socket_connected s2); split; reflexivity. }
  destruct Hstop as (Hs3 & Hw3).
  unfold session_effects.
  cbn [before_stop after_stop start_effects recording_effects stop_effects].
  assert (Hb0 : buffered s1' = []) by reflexivity.
  rewrite Hb0 in Heq. cbn [List.length] in Heq.
  rewrite !emitted_sample_count_app, !skipped_chunks_app, Hs3, Hw3.
  change (emitted_sample_count
            [getUserMedia; console_log "Starting real-time translation...";
             emit_start_translation (sourceLang p) (targetLang p)]) with 0.
  change (skipped_chunks
            [getUserMedia; console_log "Starting real-time translation...";
             emit_start_translation (sourceLang p) (targetLang p)]) with 0.
  fold T in Hlo, Hhi. rewrite !Nat.add_0_r, !Nat.add_0_l.
  split; [lia|]. apply Hs2.
Qed.

Import Examples.

Lemma skipped_chunks_account_for_losses_witness :
  let es := map frame (repeat silence_frame 7) ++ [socket false; frame silence_frame] in
  let r := session a_props (mic_resolves 16000%Q) es connected_idle in
  let captured := Z.of_nat (List.length (frames_of es) * bufferSize) in
  let received := Z.of_nat (emitted_sample_count (session_effects r)) in
  let left := Z.of_nat (List.length (buffered (before_stop r))) in
  let w := Z.of_nat (skipped_chunks (session_effects r)) in
  (w * 32000 <= captured - received - left <= w * (32000 + Z.of_nat bufferSize - 1))%Z.
Proof.
  intros es r captured received left w.
  refine (proj1 (skipped_chunks_account_for_losses a_props 16000%Q bufferSize es
                   connected_idle eq_refl eq_refl eq_refl _)).
  repeat constructor.
Defined.

End ChunkerMore.

(* ===================================================================== *)
(** * Properties of the recorder as a component *)
(* ===================================================================== *)

Section RecorderComponentFacts.
Import JS Encoder Common Recorder RecorderComponent.
Local Open Scope nat_scope.

Lemma run_app p es1 : forall es2 s,
  run p (es1 ++ es2) s
  = let (s1, effs1) := run p es1 s in
    let (s2, effs2) := run p es2 s1 in
    (s2, effs1 ++ effs2).
Proof.
  induction es1 as [|e es1 IH]; intros es2 s.
  - simpl. destruct (run p es2 s). reflexivity.
  - cbn [app run]. destruct (step p e s) as [s1 effs1]. rewrite IH.
    destruct (run p es1 s1) as [s2 effs2].
    destruct (run p es2 s2) as [s3 effs3]. now rewrite app_assoc.
Qed.

Lemma run_capture p cs : forall s,
  run p (map capture cs) s = Recorder.run cs s.
Proof.
  induction cs as [|c cs IH]; intros s; [reflexivity|].
  cbn [map run Recorder.run step]. destruct (Recorder.step c s) as [s1 effs1].
  now rewrite IH.
Qed.

Lemma capture_step e s :
  let (s', effs) := Recorder.step e s in
  isRecording s' = isRecording s /\ isProcessing s' = isProcessing s /\
  mode s' = mode s /\ batch_handlers s' = batch_handlers s /\
  audioChunksRef s' = audioChunksRef s /\
  forallb capture_effect effs = true.
Proof.
  destruct e as [f|up]; cbn [Recorder.step].
  - unfold audioprocess_event. destruct (audioProcessor s) as [c|].
    + unfold onaudioprocess.
      destruct (samplesPerChunk (sampleRate c) <=? _)%Z.
      * destruct (socket_connected s); [destruct (encodeSamples _)|];
          repeat split.
      * repeat split.
    + repeat split.
  - repeat split.
Qed.

Lemma capture_steps cs : forall s,
  let (s', effs) := Recorder.run cs s in
  isRecording s' = isRecording s /\ isProcessing s' = isProcessing s /\
  mode s' = mode s /\ batch_handlers s' = batch_handlers s /\
  audioChunksRef s' = audioChunksRef s /\
  forallb capture_effect effs = true.
Proof.
  induction cs as [|c cs IH]; intros s; [repeat split|].
  cbn [Recorder.run]. pose proof (capture_step c s) as H1.
  destruct (Recorder.step c s) as [s1 effs1].
  specialize (IH s1). destruct (Recorder.run cs s1) as [s2 effs2].
  destruct H1 as (A1 & A2 & A3 & A4 & A5 & A6).
  destruct IH as (B1 & B2 & B3 & B4 & B5 & B6).
  repeat split; try congruence.
  rewrite forallb_app, A6, B6. reflexivity.
Qed.

Lemma capture_effect_not e effs :
  capture_effect e = false -> forallb capture_effect effs = true -> ~ In e effs.
Proof.
  intros He H Hin. rewrite forallb_forall in H. apply H in Hin. congruence.
Qed.




Import Examples.


Lemma batch_request_effects p now blob net :
  let effs := sendAudioToBackend_effects p now blob net in
  requests effs = [(blob, sourceLang p, targetLang p)] /\
  socket_messages effs = [].
Proof.
  unfold sendAudioToBackend_effects, send_try, send_catch, call_onError.
  destruct net as [e|status [d|e]].
  - destruct (has_onError p); split; reflexivity.
  - destruct (negb (response_ok status)); destruct d;
      destruct (has_onError p); split; reflexivity.
  - destruct (negb (response_ok status)); destruct (has_onError p);
      split; reflexivity.
Qed.

Lemma concat_has_data (ds : list Blob) :
  List.concat (filter has_data ds) = List.concat ds.
Proof.
  induction ds as [|d ds IH]; [reflexivity|].
  cbn [filter]. unfold has_data at 1.
  destruct (Nat.ltb_spec 0 (List.length d)).
  - simpl. now rewrite IH.
  - destruct d; [simpl; exact IH|simpl in *; lia].
Qed.

Lemma dataavailable_run p ds : forall s,
  batch_handlers s = true ->
  run p (map dataavailable ds) s
  = (set_audioChunksRef (audioChunksRef s ++ filter has_data ds) s, []).
Proof.
  induction ds as [|d ds IH]; intros s Hb.
  - simpl. rewrite app_nil_r. destruct s; reflexivity.
  - cbn [map run step]. unfold ondataavailable, batch_ondataavailable.
    rewrite Hb. cbn [filter].
    destruct (has_data d).
    + rewrite IH by exact Hb. f_equal.
      unfold set_audioChunksRef. cbn [audioChunksRef isRecording isConnected
        isProcessing mode socket_connected stream_live audioProcessor
        recorder_active batch_handlers].
      now rewrite <- app_assoc.
    + rewrite IH by exact Hb. reflexivity.
Qed.

(** X7. A batch recording, from the click that starts it to the end of the
    upload: whatever was in [audioChunksRef] before, one request is sent,
    with the recorded data in order and the languages of the props, or none
    at all, and nothing is reported, when no data was recorded; nothing is
    sent on the socket; afterwards [audioChunksRef] is empty and the button
    is enabled again. *)
Theorem batch_recording_uploads_once p sr mic ds1 ds2 now net s :
  mode s = batch -> isConnected s = true ->
  isProcessing s = false -> isRecording s = false ->
  let recorded := List.concat (ds1 ++ ds2) in
  let (s', effs) :=
    run p (click (mic_resolves sr) :: map dataavailable ds1
           ++ click mic :: map dataavailable ds2
           ++ [recorder_stopped now net]) s in
  requests effs
    = (if has_data recorded
       then [(recorded, sourceLang p, targetLang p)] else []) /\
  (has_data recorded = false -> delivered effs = [] /\ reported effs = []) /\
  socket_messages effs = [] /\
  audioChunksRef s' = [] /\ isRecording s' = false /\
  start_disabled s' = false.
Proof.
  intros Hm Hi Hp Hr recorded.
  cbn [run step]. unfold click_button at 1, start_disabled at 1.
  rewrite Hr, Hi, Hp. cbn [negb orb]. unfold startRecording. rewrite Hm.
  cbv beta iota.
  rewrite run_app, dataavailable_run by reflexivity.
  cbn [run step]. unfold click_button, stopRecording.
  cbn [isRecording set_audioChunksRef]. cbv beta iota.
  rewrite run_app, dataavailable_run by reflexivity.
  cbn [run step]. unfold onstop, batch_onstop, sendAudioToBackend, start_disabled.
  cbn -[has_data List.concat filter sendAudioToBackend_effects app].
  cbn [app]. rewrite <- filter_app, concat_has_data.
  change (List.concat (ds1 ++ ds2)) with recorded.
  pose proof (batch_request_effects p now recorded net) as (Hq & Hs).
  cbv zeta in Hq, Hs.
  destruct (has_data recorded) eqn:E.
  - cbn [app]. rewrite !app_nil_r. cbn [requests socket_messages].
    rewrite Hq, Hs, Hi. repeat split; discriminate.
  - cbn. rewrite Hi, Hp. repeat split.
Qed.

Lemma batch_recording_uploads_once_witness :
  let (s', effs) :=
    run a_props (click (mic_resolves 48000%Q) :: map dataavailable [[]]
                 ++ click mic_unavailable :: map dataavailable [Samples.piece1; Samples.piece2]
                 ++ [recorder_stopped (TsIso "t") Samples.offline])
        Samples.batch_idle in
  requests effs = [(Samples.piece1 ++ Samples.piece2, "en"%string, "es"%string)] /\
  audioChunksRef s' = [] /\ start_disabled s' = false.
Proof.
  pose proof (batch_recording_uploads_once a_props 48000%Q mic_unavailable [[]]
                [Samples.piece1; Samples.piece2] (TsIso "t") Samples.offline
                Samples.batch_idle eq_refl eq_refl eq_refl eq_refl) as H.
  cbv zeta in H. destruct (run a_props _ Samples.batch_idle) as [s' effs].
  destruct H as (H1 & _ & _ & H2 & _ & H3). auto.
Defined.

Lemma capture_never_stops cs s :
  ~ In emit_stop_translation (snd (Recorder.run cs s)).
Proof.
  pose proof (capture_steps cs s) as H. destruct (Recorder.run cs s) as [s' effs].
  apply capture_effect_not; [reflexivity|apply H].
Qed.

(** X8. The mode at the moment of the stop, not the mode the recording was
    started in, decides what the stop does.  A real-time session whose mode
    is switched to batch before the stop is never closed on the socket: no
    [stop_translation] follows its [start_translation], nothing is
    uploaded, and the start button is left disabled.  A batch recording
    whose mode is switched to real-time sends [stop_translation] for a
    session that was never started. *)
Theorem mode_at_stop_decides p sr cs mic s :
  socket_connected s = true -> isConnected s = true ->
  isProcessing s = false -> isRecording s = false ->
  (mode s = realtime ->
   forall now net,
   let (s', effs) :=
     run p (click (mic_resolves sr) :: map capture cs
            ++ [mode_button batch; click mic; recorder_stopped now net]) s in
   In (emit_start_translation (sourceLang p) (targetLang p)) effs /\
   ~ In emit_stop_translation effs /\ requests effs = [] /\
   isRecording s' = false /\ start_disabled s' = true) /\
  (mode s = batch ->
   let (s', effs) :=
     run p [click (mic_resolves sr); mode_button realtime; click mic] s in
   socket_messages effs = [emit_stop_translation] /\ isRecording s' = false).
Proof.
  intros Hc Hi Hp Hr. split; intros Hm.
  - intros now net.
    cbn [run step]. unfold click_button at 1, start_disabled at 1.
    rewrite Hr, Hi, Hp. cbn [negb orb]. unfold startRecording. rewrite Hm, Hc.
    rewrite run_app, run_capture.
    match goal with |- context [Recorder.run cs ?s1] => set (s1' := s1) end.
    pose proof (capture_steps cs s1') as H.
    pose proof (capture_never_stops cs s1') as Hn.
    destruct (Recorder.run cs s1') as [s2 effs2].
    destruct H as (A1 & A2 & A3 & A4 & A5 & A6). cbn [snd] in Hn.
    cbn [run step]. unfold click_button, setMode, stopRecording, onstop.
    cbn [isRecording mode batch_handlers]. rewrite A1, A4.
    cbn [s1' isRecording batch_handlers app].
    unfold start_disabled. cbn [isProcessing isConnected]. rewrite A2.
    cbn [s1' isProcessing]. rewrite orb_true_r, !app_nil_r.
    split; [right; right; left; reflexivity|].
    split.
    { intros [H|[H|[H|H]]]; try discriminate H. exact (Hn H). }
    split; [|split; reflexivity].
    cbn [requests].
    clear -A6. induction effs2 as [|e l IH]; [reflexivity|].
    cbn [forallb] in A6. apply andb_true_iff in A6 as (He & Hl).
    destruct e; try discriminate He; cbn [requests]; apply IH, Hl.
  - cbn [run step]. unfold click_button at 1, start_disabled at 1.
    rewrite Hr, Hi, Hp. cbn [negb orb]. unfold startRecording. rewrite Hm.
    cbv beta iota. unfold click_button, setMode, stopRecording.
    cbn [isRecording mode socket_connected]. rewrite Hc. split; reflexivity.
Qed.

Lemma mode_at_stop_decides_witness :
  (let (s', effs) :=
     run a_props (click (mic_resolves 16000%Q) :: map capture [frame silence_frame]
                  ++ [mode_button batch; click mic_unavailable;
                      recorder_stopped (TsIso "t") Samples.offline]) connected_idle in
   ~ In emit_stop_translation effs /\ start_disabled s' = true) /\
  (let (s', effs) :=
     run a_props [click (mic_resolves 16000%Q); mode_button realtime;
                  click mic_unavailable] Samples.batch_idle in
   socket_messages effs = [emit_stop_translation]).
Proof.
  split.
  - pose proof (proj1 (mode_at_stop_decides a_props 16000%Q [frame silence_frame]
                         mic_unavailable connected_idle
                         eq_refl eq_refl eq_refl eq_refl)
                  eq_refl (TsIso "t") Samples.offline) as H.
    destruct (run a_props _ connected_idle) as [s' effs].
    destruct H as (_ & H1 & _ & _ & H2). auto.
  - pose proof (proj2 (mode_at_stop_decides a_props 16000%Q []
                         mic_unavailable Samples.batch_idle
                         eq_refl eq_refl eq_refl eq_refl) eq_refl) as H.
    destruct (run a_props _ Samples.batch_idle) as [s' effs].
    apply H.
Defined.

(** The upload of a batch recording can arrive after the next recording
    has started.  Here the next recording is a real-time session: the
    handlers of the earlier recorder collect its data and upload it while
    the session runs, and the end of the upload clears [isProcessing],
    which the session had set. *)
Example earlier_recording_uploads_during_a_session :
  let (s', effs) :=
    run a_props [click (mic_resolves 48000%Q); click mic_unavailable;
                 mode_button realtime; click (mic_resolves 16000%Q);
                 earlier_dataavailable Samples.piece1;
                 earlier_recorder_stopped (TsIso "t") Samples.offline]
        Samples.batch_idle in
  requests effs = [(Samples.piece1, "en"%string, "es"%string)] /\
  reported effs = ["Failed to fetch"%string] /\
  isRecording s' = true /\ batch_handlers s' = false /\
  isProcessing s' = false.
Proof. vm_compute. repeat split. Qed.

End RecorderComponentFacts.

(* ===================================================================== *)
(** * Properties of the batch-only recorder as a component *)
(* ===================================================================== *)

Section BatchComponentFacts.
Import Common BatchRecorder BatchComponent Design.
Local Open Scope nat_scope.

Lemma batch_run_app p es1 : forall es2 s,
  run p (es1 ++ es2) s
  = let (s1, effs1) := run p es1 s in
    let (s2, effs2) := run p es2 s1 in
    (s2, effs1 ++ effs2).
Proof.
  induction es1 as [|e es1 IH]; intros es2 s.
  - simpl. destruct (run p es2 s). reflexivity.
  - cbn [app run]. destruct (step p e s) as [s1 effs1]. rewrite IH.
    destruct (run p es1 s1) as [s2 effs2].
    destruct (run p es2 s2) as [s3 effs3]. now rewrite app_assoc.
Qed.

Lemma checkHealth_state n s :
  checkHealth n s
  = (setIsConnected (probe_succeeds n) s, snd (checkHealth n s)) /\
  requests (snd (checkHealth n s)) = [].
Proof.
  destruct n as [e| |status [d|e]]; unfold checkHealth; simpl;
    try (split; reflexivity); destruct (response_ok status); split; reflexivity.
Qed.

Lemma health_run p ns : forall s,
  let (s', effs) := run p (map health ns) s in
  isRecording s' = isRecording s /\ isProcessing s' = isProcessing s /\
  audioChunksRef s' = audioChunksRef s /\ stream_live s' = stream_live s /\
  recorder_active s' = recorder_active s /\ requests effs = [].
Proof.
  induction ns as [|n ns IH]; intros s; [repeat split|].
  cbn [map run step]. destruct (checkHealth_state n s) as (E & Hq).
  rewrite E. specialize (IH (setIsConnected (probe_succeeds n) s)).
  destruct (run p (map health ns) _) as [s2 effs2].
  destruct IH as (A1 & A2 & A3 & A4 & A5 & A6).
  repeat split; try assumption.
  clear -Hq A6. induction (snd (checkHealth n s)) as [|e l IHl]; [exact A6|].
  destruct e; simpl in *; try discriminate Hq; apply IHl, Hq.
Qed.

Lemma batch_concat_has_data (ds : list Blob) :
  List.concat (filter has_data ds) = List.concat ds.
Proof.
  induction ds as [|d ds IH]; [reflexivity|].
  cbn [filter]. unfold has_data at 1.
  destruct (Nat.ltb_spec 0 (List.length d)).
  - simpl. now rewrite IH.
  - destruct d; [simpl; exact IH|simpl in *; lia].
Qed.

Lemma batch_dataavailable_run p ds : forall s,
  run p (map dataavailable ds) s
  = (set_audioChunksRef (audioChunksRef s ++ filter has_data ds) s, []).
Proof.
  induction ds as [|d ds IH]; intros s.
  - simpl. rewrite app_nil_r. destruct s; reflexivity.
  - cbn [map run step]. unfold ondataavailable.
    cbn [filter].
    destruct (has_data d).
    + rewrite IH. f_equal.
      unfold set_audioChunksRef. cbn [audioChunksRef isRecording isConnected
        isProcessing stream_live recorder_active].
      now rewrite <- app_assoc.
    + rewrite IH. reflexivity.
Qed.

(** X9. The batch-only recorder, from the click that starts a recording.  The
    second click stops the recording only if the latest health probe found
    the backend: after a failed probe the click is ignored, the recording
    goes on and the microphone stays live.  Once stopped, the recorded
    data is uploaded in one request, or not at all when it is empty, and
    [audioChunksRef] is emptied. *)
Theorem batch_only_recording p sr mic ns n ds now net s :
  isRecording s = false -> isConnected s = true -> isProcessing s = false ->
  let (s1, effs1) :=
    run p (click (mic_resolves sr) :: map health ns ++ [health n; click mic]) s in
  requests effs1 = [] /\
  (probe_succeeds n = false ->
   isRecording s1 = true /\ stream_live s1 = true /\ recorder_active s1 = true) /\
  (probe_succeeds n = true ->
   isRecording s1 = false /\ stream_live s1 = false /\
   let (s2, effs2) := run p (map dataavailable ds ++ [recorder_stopped now net]) s1 in
   requests effs2
     = (if has_data (List.concat ds)
        then [(List.concat ds, sourceLang p, targetLang p)] else []) /\
   audioChunksRef s2 = [] /\ isRecording s2 = false /\
   button_disabled s2 = false).
Proof.
  intros Hr Hi Hp.
  cbn [run step]. unfold click_record at 1, button_disabled at 1.
  rewrite Hi, Hp. cbn [negb orb]. unfold toggleRecording. rewrite Hr.
  unfold startRecording. rewrite batch_run_app.
  match goal with |- context [run p (map health ns) ?s1] => set (s1' := s1) end.
  pose proof (health_run p ns s1') as H.
  destruct (run p (map health ns) s1') as [s2 effs2].
  destruct H as (A1 & A2 & A3 & A4 & A5 & A6).
  cbn [run step]. destruct (checkHealth_state n s2) as (E & Hq). rewrite E.
  unfold click_record, button_disabled, toggleRecording.
  cbn [isConnected isProcessing isRecording setIsConnected].
  rewrite A1, A2. cbn [s1' isRecording isProcessing]. rewrite Hp.
  assert (Hq0 : forall l, requests l = [] -> forall l', requests l' = [] ->
                          requests (l ++ l') = []).
  { intros l Hl l' Hl'. induction l as [|e l IHl]; [exact Hl'|].
    destruct e; simpl in *; try discriminate Hl; apply IHl, Hl. }
  destruct (probe_succeeds n) eqn:En; cbn [negb orb].
  - unfold stopRecording. split.
    + cbn [app requests]. apply Hq0; [exact A6|]. apply Hq0; [exact Hq|reflexivity].
    + split; [discriminate|]. intros _.
      split; [reflexivity|]. split; [reflexivity|].
      rewrite batch_run_app, batch_dataavailable_run.
      cbn [run step]. unfold onstop, sendAudioToBackend.
      cbn [audioChunksRef set_audioChunksRef setIsConnected].
      rewrite A3. cbn [s1' audioChunksRef app].
      rewrite batch_concat_has_data.
      pose proof (batch_request_effects p now (List.concat ds) net) as (Hq1 & _).
      cbv zeta in Hq1.
      destruct (has_data (List.concat ds)).
      * cbn [app]. rewrite app_nil_r, Hq1.
        unfold button_disabled. cbn. repeat split.
      * cbn. unfold button_disabled. cbn. rewrite A2. cbn [s1' isProcessing].
        rewrite Hp. repeat split.
  - split.
    + cbn [app requests]. apply Hq0; [exact A6|]. apply Hq0; [exact Hq|reflexivity].
    + split; [|discriminate]. intros _.
      cbn [isRecording stream_live recorder_active setIsConnected].
      rewrite A1, A4, A5. repeat split.
Qed.

Import Examples.

Lemma batch_only_recording_witness :
  let s := setIsConnected true initial in
  let (s1, effs1) :=
    run a_props (click (mic_resolves 48000%Q) :: map health [probe_silent]
                 ++ [health (probe_answers 200 (json_ok tt)); click mic_unavailable]) s in
  isRecording s1 = false /\
  let (s2, effs2) :=
    run a_props (map dataavailable [Samples.piece1; []; Samples.piece2]
                 ++ [recorder_stopped (TsNumber 0) Samples.offline]) s1 in
  requests effs2 = [(Samples.piece1 ++ Samples.piece2, "en"%string, "es"%string)].
Proof.
  intros s.
  pose proof (batch_only_recording a_props 48000%Q mic_unavailable [probe_silent]
                (probe_answers 200 (json_ok tt)) [Samples.piece1; []; Samples.piece2]
                (TsNumber 0) Samples.offline s eq_refl eq_refl eq_refl) as H.
  destruct (run a_props _ s) as [s1 effs1].
  destruct H as (_ & _ & H). specialize (H eq_refl). destruct H as (H1 & _ & H).
  split; [exact H1|].
  destruct (run a_props _ s1) as [s2 effs2]. apply H.
Defined.

End BatchComponentFacts.

(* ===================================================================== *)
(** * Properties of the page *)
(* ===================================================================== *)

Section PageFacts.
Import Common Design.
Local Open Scope nat_scope.

Lemma split_space_nonempty text : Page.split_space text <> [].
Proof.
  induction text as [|c rest IH]; simpl; [discriminate|].
  destruct (Ascii.eqb c " "); [discriminate|].
  destruct (Page.split_space rest); [contradiction|discriminate].
Qed.

Lemma split_space_length text :
  List.length (Page.split_space text) = S (Page.spaces text).
Proof.
  induction text as [|c rest IH]; [reflexivity|].
  cbn [Page.split_space Page.spaces].
  destruct (Ascii.eqb c " ").
  - simpl. now rewrite IH.
  - pose proof (split_space_nonempty rest) as Hn.
    destruct (Page.split_space rest) as [|piece pieces]; [contradiction|].
    simpl in *. exact IH.
Qed.

Lemma join_space_cons piece pieces :
  pieces <> [] ->
  Page.join_space (piece :: pieces)
  = String.append piece (String " "%char (Page.join_space pieces)).
Proof. destruct pieces; [contradiction|reflexivity]. Qed.

Lemma join_split_space text : Page.join_space (Page.split_space text) = text.
Proof.
  induction text as [|c rest IH]; [reflexivity|].
  cbn [Page.split_space].
  pose proof (split_space_nonempty rest) as Hn.
  destruct (Ascii.eqb_spec c " ") as [->|Hc].
  - rewrite join_space_cons by exact Hn. now rewrite IH.
  - destruct (Page.split_space rest) as [|piece pieces]; [contradiction|].
    destruct pieces as [|piece' pieces].
    + simpl in *. now rewrite IH.
    + rewrite join_space_cons by discriminate.
      rewrite join_space_cons in IH by discriminate.
      cbn [String.append]. now rewrite IH.
Qed.

Lemma totalWords_from rs : forall n,
  fold_left (fun sum r => sum + List.length (Page.split_space (original_text r))) rs n
  = n + List.length rs + Page.total_spaces rs.
Proof.
  induction rs as [|r rs IH]; intros n.
  - unfold Page.total_spaces. simpl. lia.
  - cbn [fold_left]. rewrite IH, split_space_length.
    unfold Page.total_spaces. simpl. lia.
Qed.

(** X10. The word count of the statistics is the number of results plus the
    number of spaces in their transcripts: [split(' ')] gives one piece
    more than there are spaces, and joining the pieces gives the text
    back.  So a result with an empty transcript counts as one word, and
    every further space of a run of spaces as one more. *)
Theorem totalWords_counts_spaces :
  (forall results,
      Page.totalWords results = List.length results + Page.total_spaces results) /\
  (forall text,
      List.length (Page.split_space text) = S (Page.spaces text) /\
      Page.join_space (Page.split_space text) = text).
Proof.
  split.
  - intros rs. unfold Page.totalWords. now rewrite totalWords_from.
  - intros text. split; [apply split_space_length|apply join_split_space].
Qed.

Lemma callbacks_app effs1 : forall effs2 pg,
  Page.callbacks (effs1 ++ effs2) pg = Page.callbacks effs2 (Page.callbacks effs1 pg).
Proof.
  induction effs1 as [|e l IH]; intros effs2 pg; [reflexivity|].
  destruct e; cbn [app Page.callbacks]; apply IH.
Qed.

(** X11. A batch request as the page shows it.  The recorder's callbacks are
    the page's handlers: a request that succeeds appends its result to the
    results and removes the error box; a request that fails leaves the
    results as they are and shows the failure message, but no box at all
    when that message is empty. *)
Theorem batch_outcome_on_the_page p now audioBlob net pg :
  has_onError p = true ->
  let pg' := Page.callbacks (sendAudioToBackend_effects p now audioBlob net) pg in
  match translation_of now net with
  | Some result =>
      Page.results pg' = Page.results pg ++ [result] /\ Page.banner pg' = None
  | None =>
      Page.results pg' = Page.results pg /\
      Page.banner pg' = match failure_message net with
                        | EmptyString => None
                        | message => Some message
                        end
  end.
Proof.
  intros Hon pg'. unfold pg'.
  unfold sendAudioToBackend_effects, send_try, send_catch, call_onError.
  rewrite Hon.
  destruct net as [e|status [d|e]].
  - destruct e as [n [|c m]|[|c m]|]; repeat split.
  - cbn [translation_of failure_message].
    destruct d as [o t a r l c|[[|c m]|]|[[|c m]|] [|c' m']|[|c m]];
      destruct (response_ok status); cbn [negb]; repeat split.
  - cbn [translation_of failure_message].
    destruct (response_ok status); destruct e as [n [|c m]|[|c m]|];
      repeat split.
Qed.

Import Examples.

Lemma batch_outcome_on_the_page_witness :
  let pg' := Page.callbacks
               (sendAudioToBackend_effects a_props (TsNumber 0) Samples.piece1
                  Samples.offline) Page.initial in
  Page.results pg' = [] /\ Page.banner pg' = Some "Failed to fetch"%string.
Proof.
  apply (batch_outcome_on_the_page a_props (TsNumber 0) Samples.piece1
           Samples.offline Page.initial eq_refl).
Defined.

End PageFacts.

Section AppFacts.
Import Common App.
Local Open Scope nat_scope.

Lemma opened_app l1 l2 : opened (l1 ++ l2) = opened l1 ++ opened l2.
Proof.
  induction l1 as [|a l IH]; [reflexivity|]. destruct a; simpl; now rewrite IH.
Qed.

Lemma closed_app l1 l2 : closed (l1 ++ l2) = closed l1 ++ closed l2.
Proof.
  induction l1 as [|a l IH]; [reflexivity|]. destruct a; simpl; now rewrite IH.
Qed.

Lemma step_tidy e t :
  tidy t ->
  tidy (step e t) /\
  render t <= render (step e t) /\
  (renders_again e (page t) = true -> render (step e t) = S (render t)).
Proof.
  intros (Ho & Hc & Hs). unfold step.
  destruct (renders_again e (page t)).
  - split; [|split; [cbn; lia|reflexivity]].
    unfold tidy. cbn [sockets render socketRef].
    rewrite opened_app, closed_app, Ho, Hc, Hs. cbn [opened closed].
    rewrite (seq_S (S (render t)) 0), (seq_S (render t) 0). repeat split.
  - split; [|split; [cbn; lia|discriminate]]. repeat split; assumption.
Qed.

Lemma run_tidy es : forall t,
  tidy t ->
  tidy (run es t) /\
  render t + List.length (translations es) <= render (run es t).
Proof.
  induction es as [|e es IH]; intros t Ht.
  - simpl. split; [exact Ht|lia].
  - cbn [run]. destruct (step_tidy e t Ht) as (H1 & H2 & H3).
    destruct (IH (step e t) H1) as (H4 & H5). split; [exact H4|].
    destruct e; cbn [translations List.length]; try lia.
    specialize (H3 eq_refl). lia.
Qed.

(** X12. Whatever the user and the recorder do to the page, the recorder has
    opened one socket per render of the page, every socket but the one in
    use has been disconnected by the recorder itself, and every
    translation result handed to the page has cost one socket: after k
    results at least k sockets are gone, and as soon as one result has
    arrived the socket opened at mount is among them. *)
Theorem every_result_replaces_the_socket (es : list event) :
  let t := run es initial in
  opened (sockets t) = seq 0 (S (render t)) /\
  closed (sockets t) = seq 0 (render t) /\
  socketRef t = render t /\
  List.length (translations es) <= List.length (closed (sockets t)) /\
  (translations es <> [] -> In 0 (closed (sockets t))).
Proof.
  intros t.
  assert (H0 : tidy initial) by (repeat split).
  destruct (run_tidy es initial H0) as ((Ho & Hc & Hs) & Hn).
  fold t in Ho, Hc, Hs, Hn. cbn [render initial] in Hn.
  split; [exact Ho|]. split; [exact Hc|]. split; [exact Hs|].
  rewrite Hc, length_seq. split; [lia|].
  intros Hne. apply in_seq.
  destruct (translations es); [contradiction|]. simpl in Hn. lia.
Qed.

Import Examples.

Lemma every_result_replaces_the_socket_witness :
  In 0 (closed (sockets (run [translation r1] initial))).
Proof.
  apply (every_result_replaces_the_socket [translation r1]). discriminate.
Defined.

End AppFacts.

(* ===================================================================== *)
(** * Properties of the evaluation panel *)
(* ===================================================================== *)

Section MetricsFacts.
Import JS Common Metrics.

Lemma ge_weaken score a b :
  (b <= a)%Q -> ge score (Fin a) = true -> ge score (Fin b) = true.
Proof.
  intros Hab. destruct score as [q| | |]; simpl; try discriminate; auto.
  intros H. apply Qle_bool_iff in H. apply Qle_bool_iff.
  now apply Qle_trans with a.
Qed.

Lemma ge_absorbs score a b :
  (b <= a)%Q -> ge score (Fin a) || ge score (Fin b) = ge score (Fin b).
Proof.
  intros Hab. destruct (ge score (Fin a)) eqn:E; [|reflexivity].
  simpl. symmetry. now apply (ge_weaken score a b).
Qed.

(** X13. For BLEU, MOS and the overall score only the thresholds 4.5, 4.0 and
    3.5 decide the colour: whatever reaches 80, 60 or 40 has reached them
    already.  On the 0 to 100 scale of BLEU every score from 4.5 up is
    green. *)
Theorem score_colour_thresholds (score : number) :
  getScoreColor score false
  = (if ge score (Fin (9 # 2)) then "text-green-600"
     else if ge score (Fin 4) then "text-blue-600"
     else if ge score (Fin (7 # 2)) then "text-yellow-600"
     else "text-red-600")%string.
Proof.
  unfold getScoreColor.
  rewrite (ge_absorbs score 80 (9 # 2)) by discriminate.
  rewrite (ge_absorbs score 60 4) by discriminate.
  rewrite (ge_absorbs score 40 (7 # 2)) by discriminate.
  reflexivity.
Qed.

Lemma number_lt_le_trans a b c :
  le a b -> lt b (Fin c) = true -> lt a (Fin c) = true.
Proof.
  destruct a as [x| | |], b as [y| | |]; simpl; try tauto; try discriminate.
  intros Hxy H. apply negb_true_iff in H. apply negb_true_iff.
  destruct (Qle_bool c x) eqn:E; [|reflexivity].
  apply Qle_bool_iff in E.
  assert (Hc : Qle_bool c y = true) by (apply Qle_bool_iff; now apply Qle_trans with x).
  congruence.
Qed.

Lemma number_ge_le_trans a b c :
  le a b -> ge a (Fin c) = true -> ge b (Fin c) = true.
Proof.
  destruct a as [x| | |], b as [y| | |]; simpl; try tauto; try discriminate.
  intros Hxy H. apply Qle_bool_iff in H. apply Qle_bool_iff.
  now apply Qle_trans with x.
Qed.

(** X14. The colours respect the order of the scores: a lower word error rate
    never gets a worse colour than a higher one, and a higher BLEU or MOS
    never a worse colour than a lower one.  NaN compares false with every
    threshold and is red either way; behind the [|| 0] of the call sites
    it counts as 0, which is green for the word error rate and red for the
    other scores. *)
Theorem score_colour_is_monotone :
  (forall a b, le a b ->
     (grade (getScoreColor b true) <= grade (getScoreColor a true))%nat) /\
  (forall a b, le a b ->
     (grade (getScoreColor a false) <= grade (getScoreColor b false))%nat) /\
  (forall isWER, getScoreColor NaN isWER = "text-red-600"%string) /\
  getScoreColor (or_zero NaN) true = "text-green-600"%string /\
  getScoreColor (or_zero NaN) false = "text-red-600"%string.
Proof.
  split; [|split; [|split; [|split; reflexivity]]].
  - intros a b Hab. unfold getScoreColor.
    destruct (lt b (Fin d0_05)) eqn:B1.
    { rewrite (number_lt_le_trans a b _ Hab B1). apply Nat.le_refl. }
    destruct (lt b (Fin d0_10)) eqn:B2.
    { pose proof (number_lt_le_trans a b _ Hab B2) as A2. rewrite A2.
      destruct (lt a (Fin d0_05)); cbn; lia. }
    destruct (lt b (Fin d0_20)) eqn:B3.
    { pose proof (number_lt_le_trans a b _ Hab B3) as A3. rewrite A3.
      destruct (lt a (Fin d0_05)); [cbn; lia|].
      destruct (lt a (Fin d0_10)); cbn; lia. }
    cbn. lia.
  - intros a b Hab. unfold getScoreColor.
    rewrite !(ge_absorbs _ 80 (9 # 2)) by discriminate.
    rewrite !(ge_absorbs _ 60 4) by discriminate.
    rewrite !(ge_absorbs _ 40 (7 # 2)) by discriminate.
    destruct (ge a (Fin (9 # 2))) eqn:A1.
    { rewrite (number_ge_le_trans a b _ Hab A1). apply Nat.le_refl. }
    destruct (ge a (Fin 4)) eqn:A2.
    { pose proof (number_ge_le_trans a b _ Hab A2) as B2. rewrite B2.
      destruct (ge b (Fin (9 # 2))); cbn; lia. }
    destruct (ge a (Fin (7 # 2))) eqn:A3.
    { pose proof (number_ge_le_trans a b _ Hab A3) as B3. rewrite B3.
      destruct (ge b (Fin (9 # 2))); [cbn; lia|].
      destruct (ge b (Fin 4)); cbn; lia. }
    cbn. lia.
  - intros [|]; reflexivity.
Qed.

Lemma score_colour_is_monotone_witness :
  (grade (getScoreColor (Fin (3 # 10)) true)
   <= grade (getScoreColor (Fin (1 # 100)) true))%nat /\
  (grade (getScoreColor (Fin 3) false)
   <= grade (getScoreColor (Fin 42) false))%nat.
Proof.
  destruct score_colour_is_monotone as (H1 & H2 & _).
  split; [apply H1|apply H2]; simpl; discriminate.
Defined.

(** X15. [fetchSummary] never reads the status of the response: the body alone
    decides, so an error response whose body reports success is shown as
    data.  A fetch that fails leaves the summary that was on screen where
    it is, next to the error text; a fetch that succeeds replaces it by
    the [summary] of the body, also when the body has none, and clears the
    error text.  [loading] is false afterwards in every case. *)
Theorem summary_fetch_ignores_status :
  (forall status1 status2 body s,
      fetchSummary (fetch_resolves status1 body) s
      = fetchSummary (fetch_resolves status2 body) s) /\
  (forall net s,
      let s' := fst (fetchSummary net s) in
      loading s' = false /\ autoRefresh s' = autoRefresh s /\
      if reports_success net
      then error s' = EmptyString /\
           exists status data, net = fetch_resolves status (json_ok data) /\
                               summary s' = summary_field data
      else summary s' = summary s /\ error s' <> EmptyString).
Proof.
  split.
  - intros status1 status2 [data|e] s; reflexivity.
  - intros [e|status [data|e]] s; cbn [reports_success fetchSummary].
    + repeat split. discriminate.
    + destruct (success data); cbn [fst]; repeat split; try discriminate.
      exists status, data. split; reflexivity.
    + repeat split. discriminate.
Qed.

Lemma ticks_without_auto_refresh nets : forall s,
  autoRefresh s = false -> run (map tick nets) s = (s, []).
Proof.
  induction nets as [|n nets IH]; intros s Ha; [reflexivity|].
  cbn [map run step]. rewrite Ha. now rewrite IH.
Qed.

(** X16. The Reset button.  A reset that the backend confirms empties the panel
    and switches auto-refresh off, so the interval's ticks fetch nothing
    afterwards and the panel stays empty; the error text is left as it
    was.  A reset that fails changes nothing on the panel and raises one
    alert. *)
Theorem reset_stops_auto_refresh
        (net : fetch_outcome response_body) (nets : list (fetch_outcome response_body))
        (v : EvaluationSummary) (s : state) :
  summary s = Some v ->
  let (s', effs) := run (reset net :: map tick nets) s in
  if reports_success net
  then summary s' = None /\ autoRefresh s' = false /\ error s' = error s /\
       effs = [post_reset]
  else fst (step (reset net) s) = s /\
       alerts (snd (step (reset net) s)) = ["Error resetting metrics"%string].
Proof.
  intros Hs. cbn [run step]. rewrite Hs.
  destruct net as [e|status [data|e]]; cbn [reports_success resetMetrics].
  - destruct (run (map tick nets) s). split; reflexivity.
  - destruct (success data).
    + rewrite ticks_without_auto_refresh by reflexivity. repeat split.
    + destruct (run (map tick nets) s). split; reflexivity.
  - destruct (run (map tick nets) s). split; reflexivity.
Qed.

Lemma reset_stops_auto_refresh_witness :
  let (s', effs) :=
    run (reset Samples.reset_done :: map tick [Samples.summary_served])
        Samples.refreshing_panel in
  summary s' = None /\ autoRefresh s' = false /\ effs = [post_reset].
Proof.
  pose proof (reset_stops_auto_refresh Samples.reset_done [Samples.summary_served]
                Samples.a_summary Samples.refreshing_panel eq_refl) as H.
  destruct (run _ Samples.refreshing_panel) as [s' effs].
  destruct H as (H1 & H2 & _ & H4). auto.
Defined.

End MetricsFacts.

(* ===================================================================== *)
(** * More properties of playback *)
(* ===================================================================== *)

Section PlaybackMore.
Import Common Playback PlaybackRuns.
Local Open Scope nat_scope.

Section Overlap.
Variable Audio_throws : string -> bool.

Lemma only_current_flags s v1 v2 :
  only_current_playing s ->
  only_current_playing (setPlayingIndex v1 (set_isPlayingQueueRef v2 s)).
Proof. intros H j Hj. exact (H j Hj). Qed.

Lemma playNextInQueue_from_only_current : forall queue s,
  only_current_playing s ->
  only_current_playing (playNextInQueue_from Audio_throws queue s).
Proof.
  induction queue as [|[a i] rest IH]; intros s Hcur.
  - cbn [playNextInQueue_from]. now apply only_current_flags.
  - cbn [playNextInQueue_from]. fold (shift_state (a, i) rest s).
    destruct (shift_state_facts (a, i) rest s Hcur) as (Hsil & _).
    destruct (Audio_throws a).
    + apply IH. apply all_silent_only_current. exact Hsil.
    + intros j Hj. apply start_playing in Hj; [|exact Hsil]. subst j. reflexivity.
Qed.

Lemma autoplay_effect_only_current s :
  only_current_playing s -> only_current_playing (autoplay_effect Audio_throws s).
Proof.
  intros Hcur. unfold autoplay_effect.
  destruct (List.length (results s)) as [|k]; [exact Hcur|].
  destruct (nth_error (results s) k) as [r|]; [|exact Hcur].
  destruct (negb _); [|exact Hcur].
  apply playNextInQueue_from_only_current. exact Hcur.
Qed.

Lemma silence_only_current id s :
  only_current_playing s ->
  only_current_playing (set_audios (silence id (audios s)) s).
Proof.
  intros Hcur j Hj. apply is_playing_spec in Hj. destruct Hj as (a & Hn & Hp).
  simpl in Hn. destruct (silence_playing _ _ _ _ Hn Hp) as (_ & Hn').
  apply Hcur. apply is_playing_spec. eauto.
Qed.

(** Stopping the one object that may be playing leaves none playing. *)
Lemma silence_current_silent id s :
  only_current_playing s -> (audioRef s = Some id \/ audioRef s = None) ->
  all_silent (set_audios (silence id (audios s)) s).
Proof.
  intros Hcur Ha j. destruct (is_playing j _) eqn:E; [|reflexivity]. exfalso.
  apply is_playing_spec in E. destruct E as (a & Hn & Hp). simpl in Hn.
  destruct (silence_playing _ _ _ _ Hn Hp) as (Hne & Hn').
  assert (Hj : is_playing j s = true) by (apply is_playing_spec; eauto).
  apply Hcur in Hj. destruct Ha as [Ha|Ha]; congruence.
Qed.

Lemma stopAudio_silent s : only_current_playing s -> all_silent (stopAudio s).
Proof.
  intros Hcur j. pose proof (pause_current_silent s Hcur j) as P.
  unfold stopAudio. destruct (audioRef s); exact P.
Qed.

Lemma step_only_current e s :
  stale_manual_error e s = false ->
  only_current_playing s -> only_current_playing (step Audio_throws e s).
Proof.
  intros Hst Hcur. destruct e as [r|rs|id|id|id|i|]; cbn [step].
  - apply autoplay_effect_only_current. exact Hcur.
  - destruct (Nat.eqb _ _); [exact Hcur|].
    apply autoplay_effect_only_current. exact Hcur.
  - destruct (nth_error (audios s) id) as [a|] eqn:Hn; [|exact Hcur].
    destruct (playing a) eqn:Hp; [|exact Hcur].
    assert (Ha : audioRef s = Some id).
    { apply Hcur. apply is_playing_spec. eauto. }
    pose proof (silence_current_silent id s Hcur (or_introl Ha)) as Hsil.
    destruct (installed a); cbn [onended].
    + apply playNextInQueue_from_only_current, all_silent_only_current, Hsil.
    + apply all_silent_only_current. exact Hsil.
  - cbn [stale_manual_error] in Hst.
    destruct (nth_error (audios s) id) as [[sr pl k]|] eqn:Hn; [|exact Hcur].
    cbn [installed]. destruct k; cbn [onerror].
    + apply playNextInQueue_from_only_current.
      intros j Hj. exact (silence_only_current id s Hcur j Hj).
    + apply all_silent_only_current.
      assert (Hsil : all_silent (set_audios (silence id (audios s)) s)).
      { apply silence_current_silent; [exact Hcur|].
        destruct (audioRef s) as [c|]; [|now right]. left.
        apply negb_false_iff, Nat.eqb_eq in Hst. now subst. }
      exact Hsil.
  - destruct (nth_error (audios s) id) as [a|] eqn:Hn; [|exact Hcur].
    destruct (installed a); cbn [onrejected].
    + apply playNextInQueue_from_only_current.
      intros j Hj. exact (silence_only_current id s Hcur j Hj).
    + apply silence_only_current. exact Hcur.
  - destruct (nth_error (results s) i) as [r|]; [|exact Hcur].
    destruct (shows_stop i s); [exact Hcur|].
    intros j Hj.
    destruct (playAudio_only_new_plays Audio_throws _ _ s Hcur j Hj) as (_ & H & _).
    exact H.
  - destruct (stop_button s); [|exact Hcur].
    apply all_silent_only_current, stopAudio_silent, Hcur.
Qed.

Lemma run_only_current es : forall s,
  timely Audio_throws es s = true ->
  only_current_playing s -> only_current_playing (run Audio_throws es s).
Proof.
  induction es as [|e es IH]; intros s Ht Hcur; [exact Hcur|].
  cbn [timely] in Ht. apply andb_true_iff in Ht as (H1 & H2).
  apply negb_true_iff in H1. cbn [run]. apply IH; [exact H2|].
  now apply step_only_current.
Qed.

(** X17. Auto-play, manual replay and the stop button together: along every
    run in which no [error] event reaches a manually started object that
    is no longer the current one, only the current object can be playing,
    so two results are never heard at once. *)
Theorem one_object_at_a_time (es : list event) (s : state) :
  only_current_playing s ->
  timely Audio_throws es s = true ->
  only_current_playing (run Audio_throws es s) /\
  at_most_one_playing (run Audio_throws es s).
Proof.
  intros Hcur Ht.
  pose proof (run_only_current es s Ht Hcur) as H.
  split; [exact H|]. now apply only_current_gives_at_most_one.
Qed.

(** X18. The [error] handler of [playAudio] lets go of the current object
    whichever object failed.  So when the [error] event of an older,
    manually started object arrives while another object is playing, that
    object goes on playing unnoticed, and the next manual replay starts a
    second one beside it. *)
Theorem stale_error_lets_two_objects_play
        (s : state) (m b i : nat) (a : audio) (r : TranslationResult) :
  audioRef s = Some b -> is_playing b s = true -> m <> b ->
  nth_error (audios s) m = Some a -> installed a = manual_handlers ->
  nth_error (results s) i = Some r -> Audio_throws (audio_base64 r) = false ->
  let s' := run Audio_throws [errored m; click_play i] s in
  let new := List.length (audios s) in
  is_playing b s' = true /\ is_playing new s' = true /\ b <> new /\
  interrupted (log s') = interrupted (log s) /\
  ~ at_most_one_playing s'.
Proof.
  intros Ha Hb Hne Hm Hk Hr Ht s' new.
  assert (Hblt : b < List.length (audios s)).
  { apply is_playing_spec in Hb. destruct Hb as (x & Hx & _).
    apply nth_error_Some. congruence. }
  assert (Hs' : s' = start manual_handlers (audio_base64 r) i
                       (set_audioRef None
                          (setPlayingIndex None
                             (record (act_error "Error playing audio")
                                (set_audios (silence m (audios s)) s))))).
  { unfold s'. cbn [run step]. rewrite Hm, Hk. cbn [onerror].
    cbn [results set_audioRef setPlayingIndex record set_audios]. rewrite Hr.
    unfold playAudio. cbn [audioRef set_audioRef]. rewrite Ht. reflexivity. }
  assert (H1 : is_playing b s' = true).
  { rewrite Hs'. unfold is_playing in *. cbn [audios start record setPlayingIndex
      set_audioRef set_audios].
    rewrite nth_error_app1 by (rewrite silence_length; exact Hblt).
    rewrite silence_other by congruence. exact Hb. }
  assert (H2 : is_playing new s' = true).
  { rewrite Hs'. unfold new.
    rewrite <- (silence_length m (audios s)). apply start_is_playing. }
  split; [exact H1|]. split; [exact H2|].
  split; [unfold new; lia|]. split.
  - rewrite Hs'. cbn [log start record setPlayingIndex set_audioRef set_audios].
    rewrite !interrupted_app. cbn [interrupted]. now rewrite !app_nil_r.
  - intros Hone. specialize (Hone b new H1 H2). unfold new in Hone. lia.
Qed.

(** X19. The stop button during auto-play.  [stopAudio] silences the current
    object and leaves the queue and the consumer's flag as they are; since
    the flag stays true and the object it stopped will not reach its end,
    the entries that wait are not handed out, and new ones only pile up
    behind them, as long as no handler of the consumer fires. *)
Theorem stop_button_stalls_the_queue (s : state) (es : list event) :
  only_current_playing s ->
  isPlayingQueueRef s = true ->
  quiet Audio_throws es (stopAudio s) = true ->
  let s0 := stopAudio s in
  let s' := run Audio_throws es s0 in
  all_silent s0 /\ audioQueueRef s0 = audioQueueRef s /\
  isPlayingQueueRef s' = true /\ dequeued s' = dequeued s /\
  queue_started s' = queue_started s /\
  (exists later, audioQueueRef s' = audioQueueRef s ++ later) /\
  (forall es' id, id < List.length (audios s) ->
                  is_playing id (run Audio_throws es' s0) = false).
Proof.
  intros Hcur Hf Hq s0 s'.
  pose proof (stopAudio_same_queue s) as P.
  pose proof (stopAudio_silent s Hcur) as Hsil. fold s0 in P, Hsil.
  assert (Hf0 : isPlayingQueueRef s0 = true).
  { destruct P as (_ & -> & _). exact Hf. }
  pose proof (grown_trans _ _ _ (grown_of_same_queue _ _ P)
                (quiet_run Audio_throws es s0 Hf0 Hq)) as (A & B & C & D).
  fold s' in A, B, C, D.
  split; [exact Hsil|]. split; [apply P|].
  split; [congruence|]. split; [exact B|]. split; [exact C|]. split; [exact D|].
  intros es' id Hid. apply (no_resume_run Audio_throws es' s0); [|apply Hsil].
  destruct (no_resume_stopAudio s) as (Hlen & _). fold s0 in Hlen. lia.
Qed.

(** X20. A result that arrives while the consumer is idle cuts off whatever is
    playing, a manual replay for instance: the current object is paused in
    mid-play and the new result starts at once. *)
Theorem new_result_interrupts_playback (r : TranslationResult) (s : state) (m : nat) :
  isPlayingQueueRef s = false -> audioQueueRef s = [] ->
  audioRef s = Some m -> is_playing m s = true ->
  Audio_throws (audio_base64 r) = false ->
  let s' := step Audio_throws (submit r) s in
  let new := List.length (audios s) in
  is_playing m s' = false /\
  interrupted (log s') = interrupted (log s) ++ [m] /\
  is_playing new s' = true /\ audioRef s' = Some new /\
  playingIndex s' = Some (List.length (results s)) /\
  isPlayingQueueRef s' = true /\ audioQueueRef s' = [].
Proof.
  intros Hf Hq Ha Hp Ht s' new.
  assert (Hmlt : m < List.length (audios s)).
  { apply is_playing_spec in Hp. destruct Hp as (x & Hx & _).
    apply nth_error_Some. congruence. }
  assert (Hs' : s' = start queue_handlers (audio_base64 r) (List.length (results s))
                       (shift_state (audio_base64 r, List.length (results s)) []
                          (set_audioQueueRef
                             [(audio_base64 r, List.length (results s))]
                             (set_results (results s ++ [r]) s)))).
  { unfold s'. cbn [step]. rewrite autoplay_effect_push. cbv zeta.
    rewrite Hf, Hq. cbn [negb app]. unfold playNextInQueue.
    cbn [audioQueueRef set_audioQueueRef playNextInQueue_from]. rewrite Ht.
    reflexivity. }
  rewrite Hs'. unfold shift_state.
  cbn [audioRef record set_audioQueueRef set_isPlayingQueueRef set_results].
  rewrite Ha. unfold pause, is_playing in *.
  cbn [audios log audioRef playingIndex isPlayingQueueRef audioQueueRef
       start record setPlayingIndex set_audioRef set_audios
       set_audioQueueRef set_isPlayingQueueRef set_results].
  rewrite Hp, !silence_length.
  split.
  { rewrite nth_error_app1 by (rewrite silence_length; exact Hmlt).
    rewrite silence_same. now destruct (nth_error (audios s) m). }
  split.
  { rewrite !interrupted_app. cbn [interrupted]. now rewrite !app_nil_r. }
  split.
  { unfold new. rewrite nth_error_app2 by (rewrite silence_length; lia).
    now rewrite silence_length, Nat.sub_diag. }
  repeat split.
Qed.

Lemma rejected_calm id s :
  calm Audio_throws s -> audioRef s = Some id ->
  calm Audio_throws (step Audio_throws (play_rejected id) s).
Proof.
  intros (Hc & Hsil & Hint) Ha.
  split; [now apply step_consistent|].
  pose proof Hc as ((Hcur & _) & _ & _).
  cbn [step]. destruct (nth_error (audios s) id) as [a|] eqn:Hn; [|auto].
  destruct Hc as (Hr & _).
  rewrite (handlers_of_ready Audio_throws s id a Hr Hn). cbn [onrejected].
  apply playNextInQueue_from_calm.
  - exact (all_silent_silence id s Hcur Ha).
  - cbn [log record set_audios]. now rewrite interrupted_app, Hint.
Qed.

Lemma blocked_settles : forall n s,
  calm Audio_throws s ->
  List.length (audioQueueRef s) < n ->
  let s' := blocked Audio_throws n s in
  calm Audio_throws s' /\ isPlayingQueueRef s' = false /\
  results s' = results s.
Proof.
  induction n as [|n IH]; intros s Hcalm Hn; [lia|].
  cbn [blocked]. destruct (isPlayingQueueRef s) eqn:Hf; [|auto].
  pose proof Hcalm as ((Hr & Hidle & Hbusy) & _).
  destruct (Hbusy Hf) as (id & Ha & Hp). rewrite Ha.
  apply is_playing_spec in Hp. destruct Hp as (a & Hnth & Hpl).
  pose proof (rejected_calm id s Hcalm Ha) as Hc1.
  assert (Hstep : step Audio_throws (play_rejected id) s
                  = playNextInQueue Audio_throws
                      (record (act_error "Error starting playback:")
                         (set_audios (silence id (audios s)) s))).
  { cbn [step]. rewrite Hnth.
    now rewrite (handlers_of_ready Audio_throws s id a Hr Hnth). }
  rewrite Hstep in *.
  set (s0 := record (act_error "Error starting playback:")
               (set_audios (silence id (audios s)) s)) in *.
  destruct (playNextInQueue_from_progress Audio_throws (audioQueueRef s0) s0 eq_refl)
    as (Hres & Hlen & Hnil & _ & _).
  fold (playNextInQueue Audio_throws s0) in Hres, Hlen, Hnil.
  change (audioQueueRef s0) with (audioQueueRef s) in Hlen, Hnil.
  change (results s0) with (results s) in Hres.
  destruct (audioQueueRef s) as [|e q] eqn:Hq.
  - destruct (Hnil eq_refl) as (Hf1 & _).
    destruct n as [|n]; cbn [blocked]; [|rewrite Hf1]; auto.
  - simpl in Hn, Hlen.
    destruct (IH (playNextInQueue Audio_throws s0) Hc1 ltac:(lia)) as (H1 & H2 & H3).
    split; [exact H1|]. split; [exact H2|]. now rewrite H3.
Qed.

(** X21. A browser that blocks autoplay rejects every [play()].  The queue
    is then emptied all the same: each rejection hands out the next entry,
    every submitted result is handed to playback in order, no object is
    left playing and none was interrupted, and the consumer ends idle;
    nothing is retried. *)
Theorem rejected_playback_drains_the_queue (n : nat) (s : state) :
  calm Audio_throws s ->
  List.length (audioQueueRef s) < n ->
  let s' := blocked Audio_throws n s in
  isPlayingQueueRef s' = false /\ audioQueueRef s' = [] /\
  all_silent s' /\ dequeued s' = submitted s /\
  interrupted (log s') = [].
Proof.
  intros Hcalm Hn s'.
  destruct (blocked_settles n s Hcalm Hn)
    as ((((_ & Hord & _) & Hidle & _) & Hsil & Hint) & Hf & Hres).
  fold s' in Hord, Hidle, Hsil, Hint, Hf, Hres.
  specialize (Hidle Hf). rewrite Hidle, app_nil_r in Hord.
  split; [exact Hf|]. split; [exact Hidle|]. split; [exact (Hsil Hf)|].
  split; [|exact Hint].
  rewrite Hord. unfold submitted. now rewrite Hres.
Qed.

Lemma playNextInQueue_head x i rest s :
  audioQueueRef s = (x, i) :: rest -> Audio_throws x = false ->
  playNextInQueue Audio_throws s
  = start queue_handlers x i (shift_state (x, i) rest s).
Proof.
  intros Hq Ht. unfold playNextInQueue. rewrite Hq.
  cbn [playNextInQueue_from]. now rewrite Ht.
Qed.

Lemma shift_state_parts e rest s :
  let s2 := shift_state e rest s in
  audioRef s2 = audioRef s /\ audioQueueRef s2 = rest /\
  audios s2 = match audioRef s with
              | Some c => silence c (audios s)
              | None => audios s
              end /\
  log s2 = log s ++ act_shift e
                    :: match audioRef s with
                       | Some c => [act_pause c (is_playing c s)]
                       | None => []
                       end.
Proof.
  unfold shift_state. cbn [audioRef record set_audioQueueRef set_isPlayingQueueRef].
  destruct (audioRef s) as [c|] eqn:Ha; cbn; rewrite ?Ha, <- ?app_assoc;
    repeat split.
Qed.

Lemma silence_keeps_handlers j l id a :
  nth_error l id = Some a ->
  exists a', nth_error (silence j l) id = Some a' /\ installed a' = installed a.
Proof.
  intros Hn. destruct (Nat.eq_dec id j) as [->|Hne].
  - rewrite silence_same, Hn. eexists. split; reflexivity.
  - rewrite silence_other by exact Hne. eauto.
Qed.

(** X22. One failure, two handlers.  When both the [error] event and the
    rejection of [play()] fire for the same failed object while two
    results wait, the consumer runs twice: the first waiting result is
    started by the first run and paused by the second before it could be
    heard, and the second waiting result plays. *)
Theorem double_failure_skips_a_result
        (id : nat) (a : audio) (s : state) (x1 x2 : string) (i1 i2 : nat)
        (rest : list entry) :
  nth_error (audios s) id = Some a -> installed a = queue_handlers ->
  audioQueueRef s = (x1, i1) :: (x2, i2) :: rest ->
  Audio_throws x1 = false -> Audio_throws x2 = false ->
  let s' := run Audio_throws [errored id; play_rejected id] s in
  let first := List.length (audios s) in
  is_playing first s' = false /\ In first (interrupted (log s')) /\
  is_playing (S first) s' = true /\ playingIndex s' = Some i2 /\
  audioQueueRef s' = rest /\
  dequeued s' = dequeued s ++ [(x1, i1); (x2, i2)].
Proof.
  intros Hn Hk Hq Ht1 Ht2 s' first.
  assert (Hid : id < first) by (apply nth_error_Some; congruence).
  set (s0 := record (act_error "Error playing audio")
               (set_audios (silence id (audios s)) s)).
  set (s1 := start queue_handlers x1 i1 (shift_state (x1, i1) ((x2, i2) :: rest) s0)).
  assert (H1 : step Audio_throws (errored id) s = s1).
  { cbn [step]. rewrite Hn, Hk. cbn [onerror]. fold s0.
    now apply playNextInQueue_head. }
  destruct (shift_state_parts (x1, i1) ((x2, i2) :: rest) s0) as (Ra & Rq & Ru & Rl).
  cbv zeta in Ra, Rq, Ru, Rl.
  set (t1 := shift_state (x1, i1) ((x2, i2) :: rest) s0) in *.
  assert (Hlen1 : List.length (audios t1) = first).
  { rewrite Ru. cbn [audios audioRef s0 record set_audios].
    destruct (audioRef s); now rewrite ?silence_length. }
  assert (Hn1 : exists a1, nth_error (audios t1) id = Some a1 /\
                           installed a1 = queue_handlers).
  { rewrite Ru. cbn [audios audioRef s0 record set_audios].
    destruct (silence_keeps_handlers id (audios s) id a Hn) as (a0 & Ha0 & Hk0).
    destruct (audioRef s) as [c|].
    - destruct (silence_keeps_handlers c _ id a0 Ha0) as (a1 & Ha1 & Hk1).
      exists a1. split; [exact Ha1|congruence].
    - exists a0. split; [exact Ha0|congruence]. }
  destruct Hn1 as (a1 & Ha1 & Hk1).
  assert (Hs1n : nth_error (audios s1) id = Some a1).
  { unfold s1. cbn [audios start record setPlayingIndex set_audioRef set_audios].
    rewrite nth_error_app1 by lia. exact Ha1. }
  set (s2 := record (act_error "Error starting playback:")
               (set_audios (silence id (audios s1)) s1)).
  assert (H2 : step Audio_throws (play_rejected id) s1
               = start queue_handlers x2 i2 (shift_state (x2, i2) rest s2)).
  { cbn [step]. rewrite Hs1n, Hk1. cbn [onrejected]. fold s2.
    apply playNextInQueue_head; [|exact Ht2].
    unfold s2, s1. cbn [audioQueueRef start record setPlayingIndex set_audioRef
                        set_audios]. exact Rq. }
  destruct (shift_state_parts (x2, i2) rest s2) as (Sa & Sq & Su & Sl).
  cbv zeta in Sa, Sq, Su, Sl.
  set (t2 := shift_state (x2, i2) rest s2) in *.
  assert (Href2 : audioRef s2 = Some first).
  { unfold s2, s1. cbn [audioRef start record setPlayingIndex set_audioRef
                        set_audios]. now rewrite Hlen1. }
  assert (Hau2 : audios s2 = silence id (audios t1 ++ [{| src := data_url x1;
                                                          playing := true;
                                                          installed := queue_handlers |}])).
  { reflexivity. }
  assert (Hp2 : is_playing first s2 = true).
  { unfold is_playing. rewrite Hau2, silence_other by lia.
    rewrite nth_error_app2 by lia. now rewrite Hlen1, Nat.sub_diag. }
  rewrite Href2 in Su, Sl. rewrite Hp2 in Sl.
  assert (Hlen2 : List.length (audios t2) = S first).
  { rewrite Su, silence_length, Hau2, silence_length, length_app, Hlen1.
    simpl. lia. }
  assert (Hs' : s' = start queue_handlers x2 i2 t2).
  { unfold s'. cbn [run]. rewrite H1. exact H2. }
  rewrite Hs'. unfold is_playing, dequeued.
  cbn [audios log playingIndex audioQueueRef start record setPlayingIndex
       set_audioRef set_audios].
  split.
  { rewrite nth_error_app1 by lia. rewrite Su, silence_same.
    now destruct (nth_error (audios s2) first). }
  split.
  { rewrite Sl, !interrupted_app. cbn [interrupted].
    apply in_or_app. left. apply in_or_app. right. now left. }
  split.
  { rewrite nth_error_app2 by lia. now rewrite Hlen2, Nat.sub_diag. }
  split; [reflexivity|]. split; [exact Sq|].
  rewrite Sl. unfold s2, s1.
  cbn [log start record setPlayingIndex set_audioRef set_audios].
  rewrite Rl. unfold s0. cbn [log record set_audios].
  rewrite !shifted_app. cbn [shifted].
  destruct (audioRef (record (act_error "Error playing audio")
                        (set_audios (silence id (audios s)) s)));
    cbn [shifted app]; rewrite ?app_nil_r, <- ?app_assoc; reflexivity.
Qed.

Lemma playNextInQueue_from_entries : forall queue s,
  audioQueueRef s = queue ->
  let s' := playNextInQueue_from Audio_throws queue s in
  dequeued s' ++ audioQueueRef s' = dequeued s ++ queue.
Proof.
  induction queue as [|[a i] rest IH]; intros s Hq s'.
  - unfold s'. cbn [playNextInQueue_from]. unfold dequeued.
    cbn [log audioQueueRef setPlayingIndex set_isPlayingQueueRef]. now rewrite Hq.
  - unfold s'. cbn [playNextInQueue_from]. fold (shift_state (a, i) rest s).
    destruct (shift_state_parts (a, i) rest s) as (_ & Rq & _ & Rl).
    cbv zeta in Rq, Rl. set (s2 := shift_state (a, i) rest s) in *.
    assert (Hd : dequeued s2 = dequeued s ++ [(a, i)]).
    { unfold dequeued. rewrite Rl, shifted_app. cbn [shifted].
      destruct (audioRef s); reflexivity. }
    destruct (Audio_throws a).
    + specialize (IH (record (act_error "Error playing audio:") s2) Rq).
      cbv zeta in IH. rewrite IH. unfold dequeued at 1.
      cbn [log record]. rewrite shifted_app. cbn [shifted]. rewrite app_nil_r.
      fold (dequeued s2). now rewrite Hd, <- app_assoc.
    + unfold dequeued at 1.
      cbn [log audioQueueRef start record setPlayingIndex set_audioRef set_audios].
      rewrite shifted_app. cbn [shifted]. rewrite app_nil_r.
      fold (dequeued s2). now rewrite Hd, Rq, <- app_assoc.
Qed.

Lemma autoplay_effect_entries s :
  let s' := autoplay_effect Audio_throws s in
  results s' = results s /\
  dequeued s' ++ audioQueueRef s'
  = dequeued s ++ audioQueueRef s ++ latest_entry (results s).
Proof.
  unfold autoplay_effect, latest_entry.
  destruct (List.length (results s)) as [|k] eqn:Hlen.
  - cbn [pred]. destruct (results s); [|discriminate Hlen].
    cbn. now rewrite !app_nil_r.
  - cbn [pred]. destruct (nth_error (results s) k) as [r|].
    + set (s1 := set_audioQueueRef (audioQueueRef s ++ [(audio_base64 r, k)]) s).
      destruct (negb (isPlayingQueueRef s1)); [|split; reflexivity].
      destruct (playNextInQueue_from_progress Audio_throws (audioQueueRef s1) s1 eq_refl)
        as (Hres & _).
      split; [exact Hres|].
      exact (playNextInQueue_from_entries (audioQueueRef s1) s1 eq_refl).
    + now rewrite !app_nil_r.
Qed.

(** X23. What one render does to the queue.  The effect runs only when the
    number of results has changed, and then it enqueues one entry, that of
    the last result with its index: results appended together before one
    render are not enqueued except for the last, a render with as many
    results as before enqueues nothing, and clearing the results enqueues
    nothing and cancels nothing, neither the queue nor the playing object
    being touched. *)
Theorem render_enqueues_the_latest_only (rs : list TranslationResult) (s : state) :
  let s' := step Audio_throws (rerender rs) s in
  results s' = rs /\
  dequeued s' ++ audioQueueRef s'
  = dequeued s ++ audioQueueRef s
    ++ (if Nat.eqb (List.length rs) (List.length (results s))
        then [] else latest_entry rs) /\
  step Audio_throws (rerender []) s = set_results [] s.
Proof.
  intros s'. split; [|split].
  - unfold s'. cbn [step]. destruct (Nat.eqb _ _); [reflexivity|].
    now destruct (autoplay_effect_entries (set_results rs s)) as (-> & _).
  - unfold s'. cbn [step]. destruct (Nat.eqb _ _).
    + now rewrite app_nil_r.
    + now destruct (autoplay_effect_entries (set_results rs s)) as (_ & ->).
  - cbn [step]. destruct (Nat.eqb _ _); reflexivity.
Qed.

End Overlap.

Import Examples.

Lemma one_object_at_a_time_witness :
  let es := [submit r1; submit r2; click_play 1; ended 1; click_play 0;
             click_stop] in
  timely never_throws es initial = true /\
  at_most_one_playing (run never_throws es initial).
Proof.
  intros es. split; [reflexivity|].
  apply (one_object_at_a_time never_throws es initial).
  - intros id H. destruct id; discriminate H.
  - reflexivity.
Defined.

Lemma stale_error_lets_two_objects_play_witness :
  let s := run never_throws [submit r1; ended 0; click_play 0; submit r2] initial in
  let s' := run never_throws [errored 1; click_play 0] s in
  is_playing 2 s' = true /\ is_playing 3 s' = true.
Proof.
  intros s s'.
  destruct (stale_error_lets_two_objects_play never_throws s 1 2 0
              {| src := data_url (audio_base64 r1); playing := false;
                 installed := manual_handlers |} r1
              eq_refl eq_refl ltac:(discriminate) eq_refl eq_refl eq_refl eq_refl)
    as (H1 & H2 & _).
  split; [exact H1|exact H2].
Defined.

Lemma stop_button_stalls_the_queue_witness :
  let s := run never_throws [submit r1; submit r2] initial in
  let s' := run never_throws [submit r3; click_play 0; ended 1]
                (stopAudio s) in
  isPlayingQueueRef s' = true /\ dequeued s' = dequeued s.
Proof.
  intros s s'.
  destruct (stop_button_stalls_the_queue never_throws s
              [submit r3; click_play 0; ended 1]) as (_ & _ & H1 & H2 & _).
  - intros id H. destruct id as [|[|id]]; try discriminate H; reflexivity.
  - reflexivity.
  - reflexivity.
  - split; [exact H1|exact H2].
Defined.

Lemma new_result_interrupts_playback_witness :
  let s := run never_throws [submit r1; ended 0; click_play 0] initial in
  let s' := step never_throws (submit r2) s in
  is_playing 1 s = true /\ is_playing 1 s' = false /\ is_playing 2 s' = true.
Proof.
  intros s s'.
  destruct (new_result_interrupts_playback never_throws r2 s 1
              eq_refl eq_refl eq_refl eq_refl eq_refl) as (H1 & _ & H3 & _).
  split; [reflexivity|]. split; [exact H1|exact H3].
Defined.

Lemma rejected_playback_drains_the_queue_witness :
  let s := run never_throws [submit r1; submit r2; submit r3] initial in
  let s' := blocked never_throws 3 s in
  isPlayingQueueRef s' = false /\ audioQueueRef s' = [] /\
  dequeued s' = submitted s.
Proof.
  intros s s'.
  destruct (rejected_playback_drains_the_queue never_throws 3 s)
    as (H1 & H2 & _ & H4 & _).
  - apply (run_calm never_throws [submit r1; submit r2; submit r3] initial eq_refl).
    apply initial_calm.
  - simpl. lia.
  - split; [exact H1|]. split; [exact H2|exact H4].
Defined.

Lemma double_failure_skips_a_result_witness :
  let s := run never_throws [submit r1; submit r2; submit r3] initial in
  let s' := run never_throws [errored 0; play_rejected 0] s in
  is_playing 1 s' = false /\ In 1 (interrupted (log s')) /\ is_playing 2 s' = true.
Proof.
  intros s s'.
  destruct (double_failure_skips_a_result never_throws 0
              {| src := data_url (audio_base64 r1); playing := true;
                 installed := queue_handlers |} s
              (audio_base64 r2) (audio_base64 r3) 1 2 []
              eq_refl eq_refl eq_refl eq_refl eq_refl) as (H1 & H2 & H3 & _).
  split; [exact H1|]. split; [exact H2|exact H3].
Defined.

End PlaybackMore.

(* ===================================================================== *)
(** * From the page to the display *)
(* ===================================================================== *)

Section PageToDisplay.
Import Common Playback.
Local Open Scope nat_scope.
Variable Audio_throws : string -> bool.

Lemma submit_results r d :
  results (step Audio_throws (submit r) d) = results d ++ [r].
Proof.
  cbn [step].
  now destruct (autoplay_effect_entries Audio_throws
                  (set_results (results d ++ [r]) d)) as (-> & _).
Qed.

Lemma deliver_all_run rs : forall pg d,
  results d = Page.results pg ->
  let v := App.deliver_all Audio_throws rs (pg, d) in
  Page.results (fst v) = Page.results pg ++ rs /\
  (rs <> [] -> Page.error (fst v) = None) /\
  snd v = run Audio_throws (map submit rs) d.
Proof.
  induction rs as [|r rs IH]; intros pg d Hres.
  - cbn. rewrite app_nil_r. repeat split. intros H. now contradiction H.
  - cbn [App.deliver_all map run].
    assert (Hd : App.deliver Audio_throws r (pg, d)
                 = (Page.handleTranslation r pg, step Audio_throws (submit r) d)).
    { unfold App.deliver. cbn [fst snd]. f_equal.
      rewrite submit_is_rerender. cbn [Page.results Page.handleTranslation].
      now rewrite Hres. }
    rewrite Hd.
    destruct (IH (Page.handleTranslation r pg) (step Audio_throws (submit r) d))
      as (H1 & H2 & H3).
    { rewrite submit_results, Hres. reflexivity. }
    split; [|split; [|exact H3]].
    + rewrite H1. cbn [Page.results Page.handleTranslation].
      now rewrite <- app_assoc.
    + intros _. destruct rs as [|r' rs']; [reflexivity|].
      apply H2. discriminate.
Qed.

(** X24. From the recorder's callback to the loudspeaker.  Results handed to
    the page one after the other, each followed by its render, are the
    page's results in arrival order, with the error box removed, and reach
    the display exactly as single submissions: the entries handed to
    playback followed by those still queued are the results in arrival
    order, each with its position as index. *)
Theorem results_reach_the_queue_in_order (rs : list TranslationResult) :
  let v := App.deliver_all Audio_throws rs (Page.initial, initial) in
  Page.results (fst v) = rs /\
  Page.error (fst v) = None /\
  snd v = run Audio_throws (map submit rs) initial /\
  dequeued (snd v) ++ audioQueueRef (snd v) = entries_from 0 rs /\
  at_most_one_playing (snd v).
Proof.
  intros v.
  destruct (deliver_all_run rs Page.initial initial eq_refl) as (H1 & H2 & H3).
  fold v in H1, H2, H3. cbn [Page.results Page.initial app] in H1.
  split; [exact H1|]. split.
  { destruct rs as [|r rs']; [reflexivity|]. apply H2. discriminate. }
  split; [exact H3|].
  assert (Hq : forallb queue_event (map submit rs) = true).
  { clear. induction rs as [|r rs IH]; [reflexivity|exact IH]. }
  pose proof (run_consistent Audio_throws (map submit rs) initial Hq
                (initial_consistent Audio_throws)) as ((Hcur & Hord & _) & _).
  rewrite <- H3 in Hcur, Hord. split.
  - rewrite Hord. unfold submitted. rewrite H3.
    clear. 
    assert (G : forall l d, results (run Audio_throws (map submit l) d) = results d ++ l).
    { induction l as [|r l IH]; intros d; [now rewrite app_nil_r|].
      cbn [map run]. rewrite IH, submit_results. now rewrite <- app_assoc. }
    now rewrite G.
  - now apply only_current_gives_at_most_one.
Qed.

End PageToDisplay.

(* ===================================================================== *)
(** * The card marked as playing *)
(* ===================================================================== *)

Section Highlight.
Import Common Playback PlaybackRuns.
Local Open Scope nat_scope.
Variable Audio_throws : string -> bool.

Lemma entries_from_In x i : forall rs k,
  In (x, i) (entries_from k rs) ->
  k <= i /\ exists r, nth_error rs (i - k) = Some r /\ audio_base64 r = x.
Proof.
  induction rs as [|r rs IH]; intros k Hin; [contradiction|].
  cbn [entries_from] in Hin. destruct Hin as [[= <- <-]|Hin].
  - split; [lia|]. exists r. now rewrite Nat.sub_diag.
  - destruct (IH (S k) Hin) as (Hk & r0 & Hn & Ha).
    split; [lia|]. exists r0. split; [|exact Ha].
    replace (i - k) with (S (i - S k)) by lia. exact Hn.
Qed.

Lemma submitted_In x i s :
  In (x, i) (submitted s) ->
  exists r, nth_error (results s) i = Some r /\ audio_base64 r = x.
Proof.
  intros Hin. destruct (entries_from_In x i _ 0 Hin) as (_ & r & Hn & Ha).
  rewrite Nat.sub_0_r in Hn. eauto.
Qed.

(** What the consumer leaves when it is running afterwards. *)
Lemma playNextInQueue_from_marks : forall queue s,
  audioQueueRef s = queue ->
  let s' := playNextInQueue_from Audio_throws queue s in
  isPlayingQueueRef s' = true ->
  exists x i id earlier,
    In (x, i) queue /\ dequeued s' = earlier ++ [(x, i)] /\
    playingIndex s' = Some i /\ audioRef s' = Some id /\
    nth_error (audios s') id
    = Some {| src := data_url x; playing := true; installed := queue_handlers |}.
Proof.
  induction queue as [|[a i] rest IH]; intros s Hq s' Hf.
  - unfold s' in Hf. cbn in Hf. discriminate Hf.
  - unfold s' in *. cbn [playNextInQueue_from] in *.
    fold (shift_state (a, i) rest s) in *.
    destruct (shift_state_parts (a, i) rest s) as (_ & Rq & _ & Rl).
    cbv zeta in Rq, Rl. set (s2 := shift_state (a, i) rest s) in *.
    destruct (Audio_throws a).
    + destruct (IH (record (act_error "Error playing audio:") s2) Rq Hf)
        as (x & j & id & earlier & Hin & H).
      exists x, j, id, earlier. split; [now right|exact H].
    + exists a, i, (List.length (audios s2)), (dequeued s).
      split; [now left|]. split.
      { unfold dequeued.
        cbn [log start record setPlayingIndex set_audioRef set_audios].
        rewrite shifted_app. cbn [shifted]. rewrite app_nil_r, Rl, shifted_app.
        cbn [shifted]. destruct (audioRef s); reflexivity. }
      split; [reflexivity|]. split; [reflexivity|].
      cbn [audios start record setPlayingIndex set_audioRef set_audios].
      rewrite nth_error_app2 by lia. now rewrite Nat.sub_diag.
Qed.

Lemma playNextInQueue_marks s :
  ready Audio_throws s ->
  marks_what_plays (playNextInQueue Audio_throws s).
Proof.
  intros (_ & Hord & _) Hf.
  destruct (playNextInQueue_from_marks (audioQueueRef s) s eq_refl Hf)
    as (x & i & id & earlier & Hin & Hd & Hp & Ha & Hn).
  destruct (playNextInQueue_from_progress Audio_throws (audioQueueRef s) s eq_refl)
    as (Hres & _).
  fold (playNextInQueue Audio_throws s) in Hd, Hp, Ha, Hn, Hres.
  assert (Hsub : In (x, i) (submitted s)).
  { rewrite <- Hord. apply in_or_app. now right. }
  destruct (submitted_In x i s Hsub) as (r & Hr & Hx).
  exists x, i, id, r, earlier. rewrite Hres. repeat split; assumption.
Qed.

Lemma step_marks e s :
  queue_event e = true ->
  consistent Audio_throws s -> marks_what_plays s ->
  marks_what_plays (step Audio_throws e s).
Proof.
  intros He Hc Hm. pose proof Hc as (Hr & Hidle & Hbusy).
  destruct e as [r|rs|id|id|id|i|]; try discriminate He; cbn [step].
  - rewrite autoplay_effect_push. cbv zeta.
    destruct (isPlayingQueueRef s) eqn:Hf; cbn [negb].
    + intros _. destruct (Hm Hf) as (x & i & id & r0 & earlier & H1 & H2 & H3 & H4 & H5 & H6).
      exists x, i, id, r0, earlier. repeat split; try assumption.
      cbn [results set_audioQueueRef set_results].
      rewrite nth_error_app1; [exact H5|].
      apply nth_error_Some. congruence.
    + apply playNextInQueue_marks.
      destruct Hr as (Hcur & Hord & Hst & Hh). repeat split; try assumption.
      change (dequeued s ++ audioQueueRef s ++ [(audio_base64 r, List.length (results s))]
              = submitted (set_results (results s ++ [r]) s)).
      now rewrite submitted_push, app_assoc, Hord.
  - destruct (nth_error (audios s) id) as [a|] eqn:Hn; [|exact Hm].
    destruct (playing a) eqn:Hp; [|exact Hm].
    rewrite (handlers_of_ready Audio_throws s id a Hr Hn). cbn [onended].
    apply playNextInQueue_marks, ready_silence, Hr.
  - destruct (nth_error (audios s) id) as [a|] eqn:Hn; [|exact Hm].
    rewrite (handlers_of_ready Audio_throws s id a Hr Hn). cbn [onerror].
    apply playNextInQueue_marks, ready_error, ready_silence, Hr.
  - destruct (nth_error (audios s) id) as [a|] eqn:Hn; [|exact Hm].
    rewrite (handlers_of_ready Audio_throws s id a Hr Hn). cbn [onrejected].
    apply playNextInQueue_marks, ready_error, ready_silence, Hr.
Qed.

Lemma run_marks es : forall s,
  forallb queue_event es = true ->
  consistent Audio_throws s -> marks_what_plays s ->
  marks_what_plays (run Audio_throws es s).
Proof.
  induction es as [|e es IH]; intros s He Hc Hm; [exact Hm|].
  simpl in He. apply andb_prop in He. destruct He as [He Hes].
  simpl. apply IH; [exact Hes| |].
  - now apply step_consistent.
  - now apply step_marks.
Qed.

(** X25. Along every run of the queue path, while the consumer is running the
    card marked as playing is the card of the result that is heard:
    [playingIndex] is the index of the entry handed out last, the current
    object is playing that entry's audio, and the result at that index is
    the one the audio belongs to. *)
Theorem marked_card_is_the_one_heard (es : list event) :
  forallb queue_event es = true ->
  let s := run Audio_throws es initial in
  isPlayingQueueRef s = true ->
  exists x i id r earlier,
    dequeued s = earlier ++ [(x, i)] /\
    playingIndex s = Some i /\
    audioRef s = Some id /\
    nth_error (audios s) id
    = Some {| src := data_url x; playing := true; installed := queue_handlers |} /\
    nth_error (results s) i = Some r /\ audio_base64 r = x.
Proof.
  intros He s.
  apply (run_marks es initial He (initial_consistent Audio_throws)).
  intros Hf. discriminate Hf.
Qed.

End Highlight.

Lemma marked_card_is_the_one_heard_witness :
  let s := Playback.run Examples.never_throws
             [Playback.submit Examples.r1; Playback.submit Examples.r2;
              Playback.errored 0] Playback.initial in
  Playback.isPlayingQueueRef s = true /\
  exists x i id r earlier,
    Playback.dequeued s = earlier ++ [(x, i)] /\
    Playback.playingIndex s = Some i /\
    Playback.audioRef s = Some id /\
    nth_error (Playback.audios s) id
    = Some {| Playback.src := Playback.data_url x; Playback.playing := true;
              Playback.installed := Playback.queue_handlers |} /\
    nth_error (Playback.results s) i = Some r /\ Common.audio_base64 r = x.
Proof.
  intros s. split; [reflexivity|].
  apply (marked_card_is_the_one_heard Examples.never_throws
           [Playback.submit Examples.r1; Playback.submit Examples.r2;
            Playback.errored 0] eq_refl eq_refl).
Defined.
